(** * gala.imio: the Raveler label hierarchy

    A shallow embedding of the label-remapping part of [gala/imio.py]:
    [apply_segmentation_map], [compute_sp_to_body_map],
    [serial_section_map], [raveler_serial_section_map], [segs_to_raveler]
    and the in-memory part of [raveler_to_labeled_volume]; and of what the
    readers and writers around it compute before they touch a file:
    [write_png_image_stack], [read_multi_page_tif], the label attributes of
    [write_ilastik_project] and [raveler_body_annotations].

    Label volumes are numpy arrays of non-negative integers with axis order
    (plane, row, column).  A plane is a list of rows, a volume a list of
    planes, and a label is an [N]: the fixed width of numpy's integers is
    not modelled, except where a cast to a fixed width is written in the
    code: the PNG writer and the tables read as [uint32].  Python exceptions
    (IndexError, KeyError, ValueError) are the [None] of an [option] result.
    The builder's results reach the reader through the export directory:
    [write_to_raveler] stores the superpixels in images of 16 bits and the
    tables as text, and the reader gets them from [read_image_stack], which
    squeezes the stack, and from [np.loadtxt].  A PNG image holds the 16-bit
    values it was given and a text file the integers it was given. *)

From stdpp Require Import base numbers option list sorting strings pretty gmap.

Abbreviation plane := (list (list N)).
Abbreviation volume := (list (list (list N))).

(** ** numpy helpers *)

(** [a.ravel()] of a plane, and of a volume. *)
Definition ravel (a : plane) : list N := mjoin a.
Definition ravel3 (v : volume) : list N := mjoin (mjoin v).

(** [a[r, c]] read as an option; [v[k, r, c]] likewise. *)
Definition pixel (a : plane) (r c : nat) : option N := a !! r ≫= (.!! c).
Definition voxel (v : volume) (k r c : nat) : option N :=
  v !! k ≫= λ a, pixel a r c.

(** [cumsum]: running sums. *)
Fixpoint cumsum_from (acc : N) (l : list N) : list N :=
  match l with
  | [] => []
  | x :: l' => (acc + x)%N :: cumsum_from (acc + x)%N l'
  end.
Definition cumsum (l : list N) : list N := cumsum_from 0%N l.

(** [x.max()]: numpy raises ValueError on an empty array. *)
Definition array_max (l : list N) : option N :=
  match l with
  | [] => None
  | x :: l' => Some (foldr N.max x l')
  end.

Definition array_min (l : list N) : option N :=
  match l with
  | [] => None
  | x :: l' => Some (foldr N.min x l')
  end.

(** [zeros(n)] *)
Definition zeros (n : N) : list N := replicate (N.to_nat n) 0%N.

(** ** Compaction of the ids of one plane *)

(** The distinct values of a list, in the order in which they first occur. *)
Fixpoint first_seen (l : list N) : list N :=
  match l with
  | [] => []
  | x :: l' => x :: filter (λ y, y ≠ x) (first_seen l')
  end.

Fixpoint index_of (x : N) (l : list N) : nat :=
  match l with
  | [] => 0
  | y :: l' => if decide (x = y) then 0 else S (index_of x l')
  end.

(** The new id of [v] when the nonzero ids listed in [imap] are renumbered
    1, 2, ... in that order; 0 stays 0. *)
Definition new_id (imap : list N) (v : N) : N :=
  if decide (v = 0%N) then 0%N else N.of_nat (S (index_of v imap)).

Definition nonzero_ids (a : plane) : list N :=
  first_seen (filter (λ v, v ≠ 0%N) (ravel a)).

(** Modelled from the spec: [evaluate.relabel_from_one], which is not among
    the sources.  The spec (4.1) has it "compact existing distinct nonzero
    values in the plane to a contiguous range starting at 1, preserving their
    relative order of first appearance" and "record the count of distinct
    nonzero ids produced per plane".  It returns the relabelled plane, the
    forward map (old id, new id) and the inverse map: the old ids, the one at
    position [i] being the one renamed [i + 1]. *)
Definition relabel_from_one (a : plane) : plane * list (N * N) * list N :=
  let imap := nonzero_ids a in
  (map (map (new_id imap)) a, map (λ v, (v, new_id imap v)) imap, imap).

(** ** Connected components of a plane *)

(** The 4-neighbours of a pixel. *)
Definition neighbours4 (r c : nat) : list (nat * nat) :=
  match r with 0 => [] | S r' => [(r', c)] end ++ [(S r, c)] ++
  match c with 0 => [] | S c' => [(r, c')] end ++ [(r, S c)].

(** Every foreground pixel starts with its raster index plus one as tag. *)
Definition initial_tags (a : plane) : plane :=
  imap (λ r row,
    imap (λ c v, if decide (v = 0%N) then 0%N
                 else N.of_nat (S (r * length row + c))) row) a.

(** One round: a foreground pixel takes the least tag among itself and the
    neighbours it is connected to ([conn] on the two pixel values). *)
Definition spread (conn : N → N → bool) (a t : plane) : plane :=
  imap (λ r row,
    imap (λ c tag,
      if decide (tag = 0%N) then 0%N
      else foldr (λ rc m,
             if conn (default 0%N (pixel a r c)) (default 0%N (pixel a rc.1 rc.2))
             then N.min m (default 0%N (pixel t rc.1 rc.2)) else m)
           tag (neighbours4 r c)) row) t.

(** After as many rounds as there are pixels every component carries the
    least raster index of its pixels. *)
Definition components (conn : N → N → bool) (a : plane) : plane :=
  Nat.iter (length (ravel a)) (spread conn a) (initial_tags a).

(** [scipy.ndimage.label] with its default structuring element: the
    connected components (4-connectivity) of the nonzero pixels, numbered
    from 1 in raster order, and their number. *)
Definition label (a : plane) : plane * N :=
  let t := components (λ v w, negb (N.eqb v 0) && negb (N.eqb w 0)) a in
  let ids := nonzero_ids t in
  (map (map (new_id ids)) t, N.of_nat (length ids)).

(** Modelled from the spec: [morpho.remove_small_connected_components], which
    is not among the sources.  The spec (4.1): "if min_size > 0, zero out any
    connected component (4- or 6-connectivity per plane) smaller than
    min_size, voxels become background".  A component is a maximal
    4-connected set of pixels carrying one nonzero id. *)
Definition remove_small_connected_components (a : plane) (min_size : N)
    : plane :=
  if decide (min_size = 0%N) then a
  else
    let t := components (λ v w, negb (N.eqb v 0) && N.eqb v w) a in
    let size tag := N.of_nat (length (filter (λ x, x = tag) (ravel t))) in
    zip_with (zip_with (λ v tag, if decide (size tag < min_size)%N then 0%N else v))
             a t.

(** ** The plane relabeler *)

Definition label_fct (do_conn_comp : bool) (a : plane) : plane * N :=
  if do_conn_comp then label a
  else
    let '(relabeled, fmap, imap) := relabel_from_one a in
    (relabeled, N.of_nat (length imap)).

Definition start_ids (globally_unique_ids : bool) (nids_per_plane : list N)
    : list N :=
  if globally_unique_ids
  then [0%N] ++ take (length (cumsum nids_per_plane) - 1) (cumsum nids_per_plane)
  else replicate (length nids_per_plane) 0%N.

(** [serial_section_map]: [relabeled_plane + start_id] adds the offset to
    every entry of the plane.  On a volume without planes the zip of the
    labelled planes is empty and cannot be unpacked into two names
    (ValueError). *)
Definition serial_section_map (nd_map : volume) (min_size : N)
    (do_conn_comp globally_unique_ids : bool) : option volume :=
  let remove_small a := remove_small_connected_components a min_size in
  let mplanes := map remove_small nd_map in
  let labelled := map (label_fct do_conn_comp) mplanes in
  match labelled with
  | [] => None
  | _ =>
    let relabeled_planes := labelled.*1 in
    let nids_per_plane := labelled.*2 in
    Some (zip_with (λ relabeled_plane start_id,
                      map (map (λ v, (v + start_id)%N)) relabeled_plane)
                   relabeled_planes
                   (start_ids globally_unique_ids nids_per_plane))
  end.

(** [(nd_map == 0).any()] *)
Definition any_zero (nd_map : volume) : bool :=
  bool_decide (0%N ∈ ravel3 nd_map).

(** [a[0, 0] = 0] on one plane; IndexError when the plane has no pixel
    there. *)
Definition zero_corner (a : plane) : option plane :=
  match a with
  | (_ :: row) :: rows => Some ((0%N :: row) :: rows)
  | _ => None
  end.

Definition raveler_serial_section_map (nd_map : volume) (min_size : N)
    (do_conn_comp globally_unique_ids : bool) : option volume :=
  nd_map' ← serial_section_map nd_map min_size do_conn_comp globally_unique_ids;
  if any_zero nd_map' then Some nd_map' else mapM zero_corner nd_map'.

(** ** The forward-map decoder *)

(** [forward_map[keys] = values], one pair after the other: of two pairs with
    one key the later one stays.  Every key written here is at most the
    maximum the array was sized for, so no write is out of range. *)
Definition scatter (forward_map : list N) (pairs : list (N * N)) : list N :=
  foldl (λ fm p, <[N.to_nat p.1 := p.2]> fm) forward_map pairs.

(** [forward_map[labels]]: IndexError when a label is not an index of the
    array. *)
Definition gather (forward_map : list N) (labels : list N) : option (list N) :=
  mapM (λ v, forward_map !! N.to_nat v) labels.

(** [apply_segmentation_map].  The label array may have any shape; the
    gather is elementwise, so the array is taken raveled. *)
Definition apply_segmentation_map (superpixels : list N)
    (sp_to_body_map : list (N * N)) : option (list N) :=
  m ← array_max (sp_to_body_map.*1);
  let forward_map := scatter (zeros (m + 1)) sp_to_body_map in
  gather forward_map superpixels.

(** ** The hierarchy builder *)

(** Rows of a table are compared column by column. *)
Definition pair_le (p q : N * N) : Prop :=
  (p.1 < q.1)%N ∨ (p.1 = q.1 ∧ (p.2 ≤ q.2)%N).
Definition triple_le (p q : N * N * N) : Prop :=
  pair_le p.1 q.1 ∧ (p.1 = q.1 → (p.2 ≤ q.2)%N).

Global Instance pair_le_dec p q : Decision (pair_le p q).
Proof. unfold pair_le. apply _. Defined.
Global Instance triple_le_dec p q : Decision (triple_le p q).
Proof. unfold triple_le. apply _. Defined.

(** [unique] of a list of tuples: numpy of the code's time returns
    [sorted(set(ar))] as an array with one row per tuple. *)
Definition unique2 (ar : list (N * N)) : list (N * N) :=
  merge_sort pair_le (remove_dups ar).
Definition unique3 (ar : list (N * N * N)) : list (N * N * N) :=
  merge_sort triple_le (remove_dups ar).

(** [a.astype(bool)], [a *= mask], [(sp != 0) + (seg == 0)] and [a[valid]]. *)
Definition astype_bool (a : plane) : list (list bool) :=
  map (map (λ v, bool_decide (v ≠ 0%N))) a.
Definition mul_mask (a : plane) (mask : list (list bool)) : plane :=
  zip_with (zip_with (λ v (b : bool), (v * (if b then 1 else 0))%N)) a mask.
Definition valid_mask (sp_map_i segment_map_i : plane) : list (list bool) :=
  zip_with (zip_with (λ s g, bool_decide (s ≠ 0%N) || bool_decide (g = 0%N)))
           sp_map_i segment_map_i.
Definition select (a : plane) (valid : list (list bool)) : list N :=
  (filter (λ vb, vb.2 = true) (zip (ravel a) (mjoin valid))).*1.

(** The body of the loop over the planes: the rows appended for plane [i]. *)
Definition sp_to_segment_plane (i : nat) (sp_map_i segment_map_i : plane)
    : list (N * N * N) :=
  let segment_map_i := mul_mask segment_map_i (astype_bool sp_map_i) in
  let valid := valid_mask sp_map_i segment_map_i in
  unique3 ((λ sg, (N.of_nat i, sg.1, sg.2)) <$>
           zip (select sp_map_i valid) (select segment_map_i valid)).

(** [segs_to_raveler].  The in-place product changes [segment_map] only
    after [segment_to_body] has been taken from it, and the second
    assignment to [valid] in the loop is never read. *)
Definition segs_to_raveler (sps bodies : volume) (min_size : N)
    (do_conn_comp : bool) (sps_out : option volume)
    : option (volume * list (N * N * N) * list (N * N)) :=
  sps_out ← match sps_out with
            | None => raveler_serial_section_map sps min_size do_conn_comp false
            | Some given => Some given
            end;
  segment_map ← raveler_serial_section_map bodies min_size do_conn_comp true;
  let segment_to_body := unique2 (zip (ravel3 segment_map) (ravel3 bodies)) in
  let segment_to_body := filter (λ row, row.1 ≠ 0%N) segment_to_body in
  let segment_to_body := [(0%N, 0%N)] ++ segment_to_body in
  let sp_to_segment :=
    imap (λ i planes, sp_to_segment_plane i planes.1.1 planes.1.2)
         (zip (zip sps_out segment_map) bodies) in
  Some (sps_out, mjoin sp_to_segment, segment_to_body).

(** ** The hierarchy reader *)

(** [table[m]] for a plane [m] of indices. *)
Definition gather_plane (table : list N) (m : plane) : option plane :=
  mapM (gather table) m.

(** The dictionary of per-plane arrays built by the loop over the rows of
    the superpixel-to-segment table. *)
Definition sp2seg_dict (max_sp : N) (sp2seg_list : list (N * N * N))
    : gmap N (list N) :=
  foldl (λ sp2seg row,
           let '(z, sp, seg) := row in
           let sp2seg := if sp2seg !! z is Some _ then sp2seg
                         else <[z := zeros (max_sp + 1)]> sp2seg in
           alter (λ arr, <[N.to_nat sp := seg]> arr) z sp2seg)
        ∅ sp2seg_list.

(** [output_volume[:, 0, 0] = output_volume[:, 0, 1]] *)
Definition copy_corner (a : plane) : option plane :=
  x ← pixel a 0 1;
  match a with
  | (_ :: row) :: rows => Some ((x :: row) :: rows)
  | _ => None
  end.

(** The decoding of [raveler_to_labeled_volume] (lines 769-796), from the
    point where the superpixel stack and the two tables have been read, on a
    stack of three axes and tables of two; without the watershed refinement
    ([use_watershed=False]) and without the glia list ([get_glia=False]).
    What the lines before it read from the export directory is
    [raveler_to_labeled_volume_export] below. *)
Definition raveler_to_labeled_volume (spmap : volume)
    (sp2seg_list : list (N * N * N)) (seg2bod_list : list (N * N))
    : option volume :=
  max_sp ← array_max (sp2seg_list.*1.*2);
  start_plane ← array_min (sp2seg_list.*1.*1);
  let sp2seg := sp2seg_dict max_sp sp2seg_list in
  max_seg ← array_max (seg2bod_list.*1);
  let seg2bod := scatter (zeros (max_seg + 1)) seg2bod_list in
  initial_output_volume ←
    mapM (λ im, let j := (start_plane + N.of_nat im.1)%N in
                arr ← sp2seg !! j;
                segs ← gather_plane arr im.2;
                gather_plane seg2bod segs)
         (imap (λ i m, (i, m)) spmap);
  let output_volume := initial_output_volume in
  corners ← mapM (λ a, pixel a 0 0) output_volume;
  if bool_decide (Forall (λ x, x = 0%N) corners) &&
     bool_decide (length (filter (λ x, x = 0%N) (ravel3 output_volume))
                  = length output_volume)
  then mapM copy_corner output_volume
  else Some output_volume.

(** ** Shapes and the builder's contract *)

(** A numpy array of shape (P, R, C). *)
Definition plane_shape (R C : nat) (a : plane) : Prop :=
  length a = R ∧ Forall (λ row, length row = C) a.
Definition volume_shape (P R C : nat) (v : volume) : Prop :=
  length v = P ∧ Forall (plane_shape R C) v.

Global Instance plane_shape_dec R C a : Decision (plane_shape R C a).
Proof. unfold plane_shape. apply _. Defined.
Global Instance volume_shape_dec P R C v : Decision (volume_shape P R C v).
Proof. unfold volume_shape. apply _. Defined.

(** "Superpixels should not map to more than one body", plane by plane. *)
Definition one_body_per_superpixel (sps bodies : volume) : Prop :=
  Forall (λ sb : list (list N) * list (list N),
            let l := zip (ravel sb.1) (ravel sb.2) in
            Forall (λ p, Forall (λ q, p.1 = q.1 → p.2 = q.2) l) l)
         (zip sps bodies).

(** The two volumes have the same background. *)
Definition same_background (sps bodies : volume) : Prop :=
  Forall (λ p : N * N, p.1 = 0%N ↔ p.2 = 0%N)
         (zip (ravel3 sps) (ravel3 bodies)).

Global Instance one_body_per_superpixel_dec sps bodies :
  Decision (one_body_per_superpixel sps bodies).
Proof. unfold one_body_per_superpixel. simpl. apply _. Defined.
Global Instance same_background_dec sps bodies :
  Decision (same_background sps bodies).
Proof. unfold same_background. apply _. Defined.

(** A plane of tags has the background of a plane where the plane has it,
    and a tag other than 0 elsewhere. *)
Definition same_support (a t : plane) : Prop :=
  ∀ r c,
    (pixel a r c = Some 0%N → pixel t r c = Some 0%N)
    ∧ (∀ v, pixel a r c = Some v → v ≠ 0%N →
            ∃ tag, pixel t r c = Some tag ∧ tag ≠ 0%N).

(** ** The fine-to-mid table in the words of the spec *)

(** The mid id of a voxel once the mid-id plane is zeroed wherever the
    fine-id plane is 0. *)
Definition masked_mid (fine mid : N) : N :=
  if decide (fine = 0%N) then 0%N else mid.

(** The table of plane [i]: the distinct (plane index, fine id, mid id) over
    the voxels where the fine id is nonzero or the masked mid id is zero. *)
Definition fine_to_mid_plane (i : nat) (fine_plane mid_plane : plane)
    : list (N * N * N) :=
  let voxels := zip (ravel fine_plane) (ravel mid_plane) in
  let masked := (λ fm, (fm.1, masked_mid fm.1 fm.2)) <$> voxels in
  let qualifying := filter (λ fm, fm.1 ≠ 0%N ∨ fm.2 = 0%N) masked in
  unique3 ((λ fm, (N.of_nat i, fm.1, fm.2)) <$> qualifying).

(** The per-plane tables one after the other, in plane order. *)
Definition fine_to_mid (fine_volume mid_volume : volume) : list (N * N * N) :=
  mjoin (imap (λ i planes, fine_to_mid_plane i planes.1 planes.2)
              (zip fine_volume mid_volume)).

(** ** Offsets *)

(** The number of ids of each plane and the offset of plane [k]: the number
    of ids of the planes before it. *)
Definition sumN (l : list N) : N := foldr N.add 0%N l.
Definition plane_ids (nd_map : volume) : list N :=
  map (λ a, N.of_nat (length (nonzero_ids a))) nd_map.
Definition plane_offset (nd_map : volume) (k : nat) : N :=
  sumN (take k (plane_ids nd_map)).

(** ** Superpixel-to-body maps *)

(** [compute_sp_to_body_map]: the distinct (superpixel, body) pairs of two
    arrays, taken raveled.  No check is made that the arrays have one shape:
    the zip stops with the shorter one. *)
Definition compute_sp_to_body_map (sps bodies : list N) : list (N * N) :=
  unique2 (zip sps bodies).

(** ** Writing a volume as a stack of PNG images *)

(** The extents of a volume along its three axes. *)
Definition dims (v : volume) : nat * nat * nat :=
  (length v,
   length (default [] (v !! 0)),
   length (default [] (v !! 0 ≫= (.!! 0)))).

(** [swapaxes(v, 0, axis)] for [axis] 0, 1 or 2 of a 3D array. *)
Definition swapaxes0 (v : volume) (axis : nat) : volume :=
  let '(P, R, C) := dims v in
  match axis with
  | 0 => v
  | 1 => (λ r, (λ k, default [] (v !! k ≫= (.!! r))) <$> seq 0 P) <$> seq 0 R
  | _ => (λ c, (λ r, (λ k, default 0%N (voxel v k r c)) <$> seq 0 P)
                 <$> seq 0 R) <$> seq 0 C
  end.

(** An axis of a 3D array, counted from the end when negative; numpy raises
    for any other. *)
Definition normalize_axis (axis : Z) : option nat :=
  if bool_decide (0 ≤ axis < 3)%Z then Some (Z.to_nat axis)
  else if bool_decide (-3 ≤ axis < 0)%Z then Some (Z.to_nat (axis + 3))
  else None.

Inductive png_mode := mode_L | mode_I16 | mode_RGBA.

(** The two tests on the largest value and the requested depth, with
    Python's precedence: [a and b or c] is [(a and b) or c]. *)
Definition png_mode_of (vmax : N) (bitdepth : option N) : png_mode :=
  if bool_decide ((1 < vmax)%N ∧ (vmax < 256)%N ∧ bitdepth = None)
     || bool_decide (bitdepth = Some 8%N)
  then mode_L
  else if bool_decide ((256 ≤ vmax)%N ∧ (vmax < 2 ^ 16)%N ∧ bitdepth = None)
          || bool_decide (bitdepth = Some 16%N)
  then mode_I16
  else mode_RGBA.

(** The width of [uint8], [uint16] and [uint32]: the cast keeps the value
    modulo 2 to that power. *)
Definition png_width (mode : png_mode) : N :=
  match mode with mode_L => 8 | mode_I16 => 16 | mode_RGBA => 32 end%N.

(** [write_png_image_stack] for an array of integers (for which the
    rescaling of doubles between 0 and 1 does not apply): the mode and, for
    each image, its number in the file name and its pixels.  The maximum of
    an array without elements raises. *)
Definition write_png_image_stack (npy_vol : volume) (axis : Z)
    (bitdepth : option N) : option (png_mode * list (nat * list (list N))) :=
  ax ← normalize_axis axis;
  let npy_vol := swapaxes0 npy_vol ax in
  vmax ← array_max (ravel3 npy_vol);
  let mode := png_mode_of vmax bitdepth in
  let npy_vol := map (map (map (λ v, v `mod` 2 ^ png_width mode)%N)) npy_vol in
  Some (mode, imap (λ z pl, (z, pl)) npy_vol).

(** ** Reading a multi-page tif *)

(** The loop of [read_multi_page_tif] with the file at page [pos], [l] being
    the pages from there to the end of the file: the page is appended unless
    its number is [zmax], and the loop ends when seeking the next page
    runs off the end of the file. *)
Fixpoint read_pages {A} (pos : Z) (zmax : option Z) (l : list A) : list A :=
  match l with
  | [] => []
  | page :: l' =>
    if decide (Some pos = zmax) then []
    else page :: read_pages (pos + 1) zmax l'
  end.

(** [read_multi_page_tif] on the pages of the file.  The crop is unpacked
    into six names (ValueError for another length), seeking a page the file
    does not have raises EOFError outside the loop, and concatenating no
    page at all raises.  The pages are returned in the order in which they
    are stacked along the last axis. *)
Definition read_multi_page_tif {A} (img : list A) (crop : list (option Z))
    : option (list A) :=
  match crop with
  | [xmin; xmax; ymin; ymax; zmin; zmax] =>
    start ← match zmin with
            | Some z =>
              if decide (0 < z)%Z
              then if decide (z < Z.of_nat (length img))%Z then Some z else None
              else Some 0%Z
            | None => Some 0%Z
            end;
    match read_pages start zmax (drop (Z.to_nat start) img) with
    | [] => None
    | pages => Some pages
    end
  | _ => None
  end.

(** ** Ilastik label attributes *)

(** [unique] of an array of labels: its distinct values in increasing
    order. *)
Definition unique (ar : list N) : list N := merge_sort N.le (remove_dups ar).

Definition ilastik_label_colors : list N :=
  [0xffff0000; 0xff00ff00; 0xffffff00; 0xff0000ff;
   0xffff00ff; 0xff808000; 0xffc0c0c0; 0xfff2022d]%N.

(** The label attributes computed at the head of [write_ilastik_project]
    from the label arrays, each taken raveled: the colors, the names and the
    numbers.  Concatenating an empty list of arrays raises, and so does the
    maximum of the lengths of no name. *)
Definition ilastik_label_attributes (labels : list (list N))
    : option (list N * list string * list N) :=
  all ← match labels with
        | [] => None
        | _ => Some (mjoin (unique <$> labels))
        end;
  let ulbs := drop 1 (unique all) in
  let colors := take (length ulbs) ilastik_label_colors in
  let names := (λ i, "Label " +:+ pretty i) <$> ulbs in
  match names with
  | [] => None
  | _ => Some (colors, names, ulbs)
  end.

(** ** Body annotations *)

(** The values of an annotation: strings and integers. *)
Inductive json := JStr (s : string) | JInt (n : N).

Global Instance json_eq_dec : EqDecision json.
Proof. solve_decision. Defined.

(** [raveler_body_annotations]: one dictionary per orphan, then one per
    non-traversing body, and the metadata. *)
Definition raveler_body_annotations (orphans : list N)
    (non_traversing : option (list N))
    : list (gmap string json) * gmap string json :=
  let data :=
    (λ o, {[ "status" := JStr "not sure"; "comment" := JStr "orphan";
             "body ID" := JInt o ]} : gmap string json) <$> orphans in
  let data :=
    match non_traversing with
    | Some non_traversing =>
      data ++ ((λ n, {[ "status" := JStr "not sure";
                        "comment" := JStr "does not traverse";
                        "body ID" := JInt n ]} : gmap string json)
               <$> non_traversing)
    | None => data
    end in
  (data, {[ "description" := JStr "body annotations";
            "file version" := JInt 2 ]}).

(** The glia list of [raveler_to_labeled_volume] with [get_glia=True]:
    the body ID of every annotation whose comment is 'glia'; KeyError when
    one of these has no body ID. *)
Definition glia (data : list (gmap string json)) : option (list json) :=
  mapM (λ a, a !! "body ID")
       (filter (λ a, a !! "comment" = Some (JStr "glia")) data).

(** ** The export directory *)

(** What [write_to_raveler] leaves for the reader: the images of the
    superpixel maps in the order of their file names, and the rows of the
    two text files. *)
Record raveler_export := {
  superpixel_maps : list plane;
  superpixel_to_segment_map : list (N * N * N);
  segment_to_body_map : list (N * N)
}.

(** [write_to_raveler] without grayscale images and body annotations: the
    two tables are saved as integers, and the superpixels as PNG images of
    16 bits along axis 0, named by their number.  The Raveler tools called
    afterwards do not change these files. *)
Definition write_to_raveler (sps : volume)
    (sp_to_segment : list (N * N * N)) (segment_to_body : list (N * N))
    : option raveler_export :=
  '(mode, imgs) ← write_png_image_stack sps 0 (Some 16%N);
  Some {| superpixel_maps := imgs.*2;
          superpixel_to_segment_map := sp_to_segment;
          segment_to_body_map := segment_to_body |}.

(** [squeeze] on a shape: the axes of length 1 are dropped. *)
Definition squeeze (shape : list nat) : list nat :=
  filter (λ n, n ≠ 1) shape.

(** The array [read_image_stack] returns from a directory of images: of
    three axes, or of two when the axis of the planes has been squeezed
    away. *)
Inductive image_stack := stack3 (v : volume) | stack2 (a : plane).

(** [read_image_stack] on a directory of PNG images of one size, without
    crop.  Without an image [fns[0]] raises.  [pil_to_numpy] squeezes every
    image, so an image of one row or of one column has fewer than two axes
    and [im0[xmin:xmax,ymin:ymax]] raises.  The stack is squeezed before it
    is returned, so a stack of one image is that image. *)
Definition read_image_stack (imgs : list plane) : option image_stack :=
  match imgs with
  | [] => None
  | im0 :: _ =>
    let '(P, R, C) := dims imgs in
    if bool_decide (squeeze [R; C] = [R; C])
    then if decide (P = 1) then Some (stack2 im0) else Some (stack3 imgs)
    else None
  end.

(** [np.loadtxt(fn, uint32)] on the rows of a text file of integers: every
    entry is read into 32 bits.  A file of fewer than two rows gives an
    array of one axis, and the reader's [table[:, k]] raises on it: that is
    the [None] here. *)
Definition uint32 (v : N) : N := (v `mod` 2 ^ 32)%N.
Definition loadtxt3 (rows : list (N * N * N)) : option (list (N * N * N)) :=
  if decide (2 ≤ length rows)
  then Some ((λ row, (uint32 row.1.1, uint32 row.1.2, uint32 row.2)) <$> rows)
  else None.
Definition loadtxt2 (rows : list (N * N)) : option (list (N * N)) :=
  if decide (2 ≤ length rows)
  then Some ((λ row, (uint32 row.1, uint32 row.2)) <$> rows)
  else None.

(** [raveler_to_labeled_volume] on an export directory: the stack and the
    two tables are read (lines 763-768) and then decoded.  On a stack of two
    axes [output_volume[:, 0, 0]] raises, if nothing before it did. *)
Definition raveler_to_labeled_volume_export (d : raveler_export)
    : option volume :=
  spmap ← read_image_stack (superpixel_maps d);
  sp2seg_list ← loadtxt3 (superpixel_to_segment_map d);
  seg2bod_list ← loadtxt2 (segment_to_body_map d);
  match spmap with
  | stack3 spmap => raveler_to_labeled_volume spmap sp2seg_list seg2bod_list
  | stack2 _ => None
  end.

(** The builder, the export and the reader, one after the other. *)
Definition round_trip (sps bodies : volume) (min_size : N)
    (do_conn_comp : bool) : option volume :=
  '(sps_out, sp_to_segment, segment_to_body) ←
    segs_to_raveler sps bodies min_size do_conn_comp None;
  d ← write_to_raveler sps_out sp_to_segment segment_to_body;
  raveler_to_labeled_volume_export d.

(** * Properties *)

(** ** Pixels, voxels and raveled arrays *)

Lemma pixel_Some (a : plane) r c x :
  pixel a r c = Some x ↔ ∃ row, a !! r = Some row ∧ row !! c = Some x.
Proof.
  unfold pixel. destruct (a !! r) as [row|]; simpl.
  - split; [by exists row|]. by intros (? & [= <-] & ?).
  - split; [done|]. by intros (? & ? & ?).
Qed.

Lemma voxel_Some (v : volume) k r c x :
  voxel v k r c = Some x ↔ ∃ a, v !! k = Some a ∧ pixel a r c = Some x.
Proof.
  unfold voxel. destruct (v !! k) as [a|]; simpl.
  - split; [by exists a|]. by intros (? & [= <-] & ?).
  - split; [done|]. by intros (? & ? & ?).
Qed.

Lemma pixel_map (f : N → N) (a : plane) r c :
  pixel (map (map f) a) r c = f <$> pixel a r c.
Proof.
  unfold pixel. change (map (map f) a) with (map f <$> a).
  rewrite list_lookup_fmap. destruct (a !! r) as [row|]; [|done]. simpl.
  apply (list_lookup_fmap f).
Qed.

Lemma elem_of_ravel (a : plane) x :
  x ∈ ravel a ↔ ∃ r c, pixel a r c = Some x.
Proof.
  unfold ravel. rewrite list_elem_of_join. split.
  - intros (row & [c Hc]%list_elem_of_lookup & [r Hr]%list_elem_of_lookup).
    exists r, c. apply pixel_Some. eauto.
  - intros (r & c & (row & Hr & Hc)%pixel_Some).
    exists row. eauto using list_elem_of_lookup_2.
Qed.

Lemma elem_of_ravel3 (v : volume) x :
  x ∈ ravel3 v ↔ ∃ k r c, voxel v k r c = Some x.
Proof.
  unfold ravel3. rewrite list_elem_of_join. split.
  - intros (row & [c Hc]%list_elem_of_lookup & Hrow).
    apply list_elem_of_join in Hrow
      as (a & [r Hr]%list_elem_of_lookup & [k Hk]%list_elem_of_lookup).
    exists k, r, c. apply voxel_Some. exists a. split; [done|].
    apply pixel_Some. eauto.
  - intros (k & r & c & (a & Hk & (row & Hr & Hc)%pixel_Some)%voxel_Some).
    exists row. split; [eauto using list_elem_of_lookup_2|].
    apply list_elem_of_join. exists a. eauto using list_elem_of_lookup_2.
Qed.

(** ** Shapes are kept *)

Section shapes.
Context (R C : nat).

Lemma plane_shape_map (f : N → N) a :
  plane_shape R C a → plane_shape R C (map (map f) a).
Proof.
  intros [Hl Hrows]. split; [by rewrite length_map|].
  apply Forall_fmap. eapply Forall_impl; [done|].
  intros row Hrow. simpl. by rewrite length_map.
Qed.

Lemma plane_shape_imap (f : nat → nat → N → N) a :
  plane_shape R C a →
  plane_shape R C (imap (λ r row, imap (f r) row) a).
Proof.
  intros [Hl Hrows]. split; [by rewrite length_imap|].
  apply Forall_lookup. intros r row'.
  rewrite list_lookup_imap. destruct (a !! r) as [row|] eqn:Hr; [|done].
  intros [= <-]. rewrite length_imap.
  rewrite Forall_lookup in Hrows. by eapply Hrows.
Qed.

Lemma plane_shape_zip_with {A} (f : N → A → N) a (b : list (list A)) :
  plane_shape R C a →
  length b = R → Forall (λ row, length row = C) b →
  plane_shape R C (zip_with (zip_with f) a b).
Proof.
  intros [Hl Hrows] Hlb Hrb. split.
  - rewrite length_zip_with. lia.
  - apply Forall_lookup. intros r row'.
    intros (x & y & -> & Hx & Hy)%lookup_zip_with_Some.
    rewrite length_zip_with.
    rewrite Forall_lookup in Hrows. rewrite Forall_lookup in Hrb.
    rewrite (Hrows _ _ Hx), (Hrb _ _ Hy). lia.
Qed.

Lemma plane_shape_spread conn a t :
  plane_shape R C t → plane_shape R C (spread conn a t).
Proof. apply plane_shape_imap. Qed.

Lemma plane_shape_components conn a :
  plane_shape R C a → plane_shape R C (components conn a).
Proof.
  intros Ha. unfold components.
  induction (length (ravel a)) as [|n IH]; simpl.
  - unfold initial_tags. destruct Ha as [Hl Hrows].
    split; [by rewrite length_imap|].
    apply Forall_lookup. intros r row'.
    rewrite list_lookup_imap. destruct (a !! r) as [row|] eqn:Hr; [|done].
    intros [= <-]. rewrite length_imap.
    rewrite Forall_lookup in Hrows. by eapply Hrows.
  - by apply plane_shape_spread.
Qed.

Lemma plane_shape_remove_small a min_size :
  plane_shape R C a →
  plane_shape R C (remove_small_connected_components a min_size).
Proof.
  intros Ha. unfold remove_small_connected_components.
  destruct (decide (min_size = 0%N)); [done|].
  apply plane_shape_zip_with; [done|..];
    by eapply plane_shape_components.
Qed.

Lemma plane_shape_label_fct do_conn_comp a :
  plane_shape R C a → plane_shape R C (label_fct do_conn_comp a).1.
Proof.
  intros Ha. destruct do_conn_comp; simpl.
  - by apply plane_shape_map, plane_shape_components.
  - by apply plane_shape_map.
Qed.

Lemma plane_shape_zero_corner a a' :
  plane_shape R C a → zero_corner a = Some a' → plane_shape R C a'.
Proof.
  destruct a as [|[|x row] rows]; intros [Hl Hrows] [= <-].
  split; [done|]. apply Forall_cons in Hrows as [Hrow Hrows].
  by apply Forall_cons.
Qed.

Lemma plane_shape_pixel a r c :
  plane_shape R C a → r < R → c < C → is_Some (pixel a r c).
Proof.
  intros [Hl Hrows] Hr Hc.
  destruct (lookup_lt_is_Some_2 a r) as [row Hrow]; [lia|].
  rewrite Forall_lookup in Hrows. specialize (Hrows _ _ Hrow).
  destruct (lookup_lt_is_Some_2 row c) as [x Hx]; [lia|].
  exists x. apply pixel_Some. eauto.
Qed.

Lemma pixel_plane_shape a r c x :
  plane_shape R C a → pixel a r c = Some x → r < R ∧ c < C.
Proof.
  intros [Hl Hrows] (row & Hrow & Hx)%pixel_Some.
  rewrite Forall_lookup in Hrows. specialize (Hrows _ _ Hrow).
  apply lookup_lt_Some in Hrow, Hx. lia.
Qed.
End shapes.

Lemma length_cumsum_from acc l : length (cumsum_from acc l) = length l.
Proof. revert acc. induction l; intros; simpl; [done|]. by rewrite IHl. Qed.

Lemma length_start_ids gu nids :
  nids ≠ [] → length (start_ids gu nids) = length nids.
Proof.
  intros Hne. destruct gu; simpl; [|by rewrite length_replicate].
  rewrite length_take. unfold cumsum. rewrite length_cumsum_from.
  destruct nids; [done|]. simpl. lia.
Qed.

Lemma serial_section_map_Some nd_map min_size cc gu :
  nd_map ≠ [] →
  let labelled :=
    map (label_fct cc)
        (map (λ a, remove_small_connected_components a min_size) nd_map) in
  serial_section_map nd_map min_size cc gu
  = Some (zip_with (λ relabeled_plane start_id,
                      map (map (λ v, (v + start_id)%N)) relabeled_plane)
                   (labelled.*1) (start_ids gu (labelled.*2))).
Proof. destruct nd_map; done. Qed.

Lemma serial_section_map_None min_size cc gu :
  serial_section_map [] min_size cc gu = None.
Proof. done. Qed.

Lemma volume_shape_serial_section_map P R C nd_map min_size cc gu m :
  volume_shape P R C nd_map →
  serial_section_map nd_map min_size cc gu = Some m →
  volume_shape P R C m.
Proof.
  intros [Hl Hplanes] Hm.
  destruct (decide (nd_map = [])) as [->|Hne]; [done|].
  rewrite serial_section_map_Some in Hm by done. simpl in Hm.
  injection Hm as <-. split.
  - rewrite length_zip_with, length_start_ids, !length_fmap.
    + lia.
    + destruct nd_map; done.
  - apply Forall_lookup. intros k a'.
    intros (p & s & -> & Hp & Hs)%lookup_zip_with_Some.
    apply plane_shape_map.
    apply list_lookup_fmap_Some in Hp as ([p' n] & -> & Hp). simpl.
    apply list_lookup_fmap_Some in Hp as (b & Hlb & Hp).
    apply list_lookup_fmap_Some in Hp as (b' & -> & Hp).
    change p' with (p', n).1. rewrite Hlb. apply plane_shape_label_fct.
    apply plane_shape_remove_small.
    rewrite Forall_lookup in Hplanes. by eapply Hplanes.
Qed.

Lemma volume_shape_raveler_serial_section_map P R C nd_map min_size cc gu m :
  volume_shape P R C nd_map →
  raveler_serial_section_map nd_map min_size cc gu = Some m →
  volume_shape P R C m.
Proof.
  intros Hshape Hm. unfold raveler_serial_section_map in Hm.
  destruct (serial_section_map nd_map min_size cc gu) as [m0|] eqn:Hm0;
    [|done]. simpl in Hm.
  apply (volume_shape_serial_section_map P R C) in Hm0; [|done].
  destruct (any_zero m0); [by injection Hm as <-|].
  apply mapM_Some_1 in Hm. destruct Hm0 as [Hl Hplanes]. split.
  - rewrite <- Hl. symmetry. by eapply Forall2_length.
  - apply Forall_lookup. intros k a' Ha'.
    destruct (Forall2_lookup_r _ _ _ _ _ Hm Ha') as (a & Ha & Hz).
    eapply plane_shape_zero_corner; [|done].
    rewrite Forall_lookup in Hplanes. by eapply Hplanes.
Qed.

(** ** The offset reaches the background *)

(** C1.  The plane relabeler does not keep the background at 0: in the
    two-plane volume [[1,0]], [[2,0]] relabelled with globally unique ids
    (with or without the connected-component pass) plane 1 gets the offset 1,
    and its background voxel, 0 in the input, is 1 in the output. *)
Theorem serial_section_map_offsets_background :
  ∀ do_conn_comp,
    ∃ out, serial_section_map [[[1; 0]]; [[2; 0]]]%N 0 do_conn_comp true = Some out
      ∧ voxel [[[1; 0]]; [[2; 0]]]%N 1 0 1 = Some 0%N
      ∧ voxel out 1 0 1 = Some 1%N.
Proof. intros []; eexists; (split; [vm_compute; reflexivity | done]). Qed.

(** C2.  With globally unique ids two planes of the output can share a
    nonzero id: for the volume [[1,0]], [[2,0]] the id 1 is the region of
    plane 0 and the shifted background of plane 1. *)
Theorem serial_section_map_planes_share_id :
  ∀ do_conn_comp,
    ∃ p q, serial_section_map [[[1; 0]]; [[2; 0]]]%N 0 do_conn_comp true
             = Some [p; q]
      ∧ 1%N ∈ ravel p ∧ 1%N ∈ ravel q ∧ 1%N ≠ 0%N.
Proof.
  intros []; do 2 eexists; (split; [vm_compute; reflexivity |]);
    cbn; set_solver.
Qed.

(** C8.  Relabelling the output of the relabeler again, with the same
    parameters, changes it: the shifted background of plane 1 is taken for a
    region the second time. *)
Theorem serial_section_map_not_idempotent :
  serial_section_map [[[1; 0]]; [[2; 0]]]%N 0 false true
    = Some [[[1; 0]]; [[2; 1]]]%N
  ∧ serial_section_map [[[1; 0]]; [[2; 1]]]%N 0 false true
    = Some [[[1; 0]]; [[2; 3]]]%N
  ∧ serial_section_map [[[1; 0]]; [[2; 0]]]%N 0 true true
    = Some [[[1; 0]]; [[2; 1]]]%N
  ∧ serial_section_map [[[1; 0]]; [[2; 1]]]%N 0 true true
    = Some [[[1; 0]]; [[2; 2]]]%N.
Proof. repeat split; vm_compute; reflexivity. Qed.

(** ** The forward-map decoder *)

Lemma array_max_ge l m x : array_max l = Some m → x ∈ l → (x ≤ m)%N.
Proof.
  destruct l as [|y l]; [done|]. intros [= <-].
  revert x. induction l as [|z l IH]; intros x Hx.
  - apply list_elem_of_singleton in Hx as ->. simpl. lia.
  - simpl. assert (x = z ∨ x ∈ y :: l) as [->|Hx']; [|lia|].
    { rewrite !elem_of_cons in Hx. rewrite elem_of_cons. tauto. }
    specialize (IH x Hx'). lia.
Qed.

Lemma array_max_elem l m : array_max l = Some m → m ∈ l.
Proof.
  destruct l as [|y l]; [done|]. intros [= <-].
  induction l as [|z l IH]; simpl; [by left|].
  destruct (N.max_spec z (foldr N.max y l)) as [[_ ->]|[_ ->]].
  - rewrite !elem_of_cons in *. tauto.
  - right. by left.
Qed.

Lemma array_max_is_Some (l : list N) : l ≠ [] → is_Some (array_max l).
Proof. destruct l; [done|]. by eexists. Qed.

Lemma length_zeros n : length (zeros n) = N.to_nat n.
Proof. apply length_replicate. Qed.

Lemma lookup_zeros n i x : zeros n !! i = Some x → x = 0%N.
Proof. unfold zeros. by intros [-> _]%lookup_replicate. Qed.

Lemma length_scatter fm l : length (scatter fm l) = length fm.
Proof.
  revert fm. induction l as [|p l IH]; intros fm; [done|].
  unfold scatter in *. simpl. by rewrite IH, length_insert.
Qed.

Lemma scatter_app fm l k : scatter fm (l ++ k) = scatter (scatter fm l) k.
Proof. unfold scatter. apply foldl_app. Qed.

(** A key that is not written keeps its entry. *)
Lemma scatter_lookup_other fm l (k : N) :
  k ∉ l.*1 → scatter fm l !! N.to_nat k = fm !! N.to_nat k.
Proof.
  revert fm. induction l as [|[k' t] l IH]; intros fm Hk; [done|].
  unfold scatter in *. simpl. rewrite IH.
  - apply list_lookup_insert_ne. intros Heq. apply Hk. simpl.
    assert (k' = k) as -> by lia. by left.
  - intros Hin. apply Hk. simpl. by right.
Qed.

(** A key that is written with one value only ends with that value. *)
Lemma scatter_lookup_single fm l (k t : N) :
  (k, t) ∈ l → (∀ t', (k, t') ∈ l → t' = t) →
  N.to_nat k < length fm →
  scatter fm l !! N.to_nat k = Some t.
Proof.
  revert fm. induction l as [|[k' t'] l IH]; intros fm Hin Hone Hlt.
  { by apply elem_of_nil in Hin. }
  destruct (decide ((k, t) ∈ l)) as [Hl|Hl].
  - unfold scatter in *. simpl. apply IH; [done| |by rewrite length_insert].
    intros t'' Ht''. apply Hone. by right.
  - apply elem_of_cons in Hin as [[= <- <-]|]; [|done].
    unfold scatter. simpl. fold (scatter (<[N.to_nat k:=t]> fm) l).
    rewrite scatter_lookup_other.
    + by apply list_lookup_insert_eq.
    + intros ([k2 t2] & -> & Hin2)%list_elem_of_fmap. simpl in *.
      apply Hl. rewrite <- (Hone t2); [done|by right].
Qed.

Lemma gather_Some fm labels :
  Forall (λ v, N.to_nat v < length fm) labels →
  ∃ seg, gather fm labels = Some seg ∧ length seg = length labels
    ∧ ∀ i v, labels !! i = Some v → seg !! i = fm !! N.to_nat v.
Proof.
  intros Hall. unfold gather.
  destruct (mapM_is_Some_2 (λ v, fm !! N.to_nat v) labels) as [seg Hseg].
  { eapply Forall_impl; [done|]. intros v Hv. by apply lookup_lt_is_Some_2. }
  exists seg. split; [done|].
  apply mapM_Some_1 in Hseg. split; [symmetry; by eapply Forall2_length|].
  intros i v Hi. destruct (Forall2_lookup_l _ _ _ _ _ Hseg Hi) as (y & -> & ->).
  done.
Qed.

Lemma gather_None fm labels :
  ¬ Forall (λ v, N.to_nat v < length fm) labels → gather fm labels = None.
Proof.
  intros Hall. unfold gather. apply mapM_None_2.
  apply not_Forall_Exists in Hall; [|apply _].
  eapply Exists_impl; [done|]. intros v Hv. simpl in Hv.
  apply lookup_ge_None_2. lia.
Qed.

(** C9.  An empty pair table makes [apply_segmentation_map] raise, whatever
    the labels: the maximum of the empty column of source ids does not
    exist.  There is no result, all-background or other. *)
Theorem apply_segmentation_map_empty_table :
  ∀ superpixels, apply_segmentation_map superpixels [] = None.
Proof. done. Qed.

(** The result claimed for an empty table does not exist, not even for a
    single background label. *)
Lemma empty_table_has_no_result :
  apply_segmentation_map [0%N] [] ≠ Some [0%N].
Proof. done. Qed.

(** C4.  For a nonempty table the forward map has length [max + 1], starts
    at 0, and is gathered per voxel.  When no label exceeds the largest
    source id, a label that is no source id decodes to 0 and a label with a
    single target decodes to it; a label above the largest source id is not
    an index of the forward map and the call raises.  So the table
    (1,5),(2,7) on [1,2,3] raises, and on [1,2,0] gives [5,7,0]. *)
Theorem apply_segmentation_map_unmapped superpixels sp_to_body_map :
  sp_to_body_map ≠ [] →
  ∃ m, array_max (sp_to_body_map.*1) = Some m
    ∧ length (scatter (zeros (m + 1)) sp_to_body_map) = N.to_nat (m + 1)
    ∧ (Forall (λ v, (v ≤ m)%N) superpixels →
       ∃ seg, apply_segmentation_map superpixels sp_to_body_map = Some seg
         ∧ length seg = length superpixels
         ∧ (∀ i v, superpixels !! i = Some v → v ∉ sp_to_body_map.*1 →
                   seg !! i = Some 0%N)
         ∧ (∀ i v t, superpixels !! i = Some v → (v, t) ∈ sp_to_body_map →
                     (∀ t', (v, t') ∈ sp_to_body_map → t' = t) →
                     seg !! i = Some t))
    ∧ (¬ Forall (λ v, (v ≤ m)%N) superpixels →
       apply_segmentation_map superpixels sp_to_body_map = None)
    ∧ apply_segmentation_map [1; 2; 3]%N [(1, 5); (2, 7)]%N = None
    ∧ apply_segmentation_map [1; 2; 0]%N [(1, 5); (2, 7)]%N
      = Some [5; 7; 0]%N.
Proof.
  intros Hne.
  destruct (array_max (sp_to_body_map.*1)) as [m|] eqn:Hm.
  2:{ destruct sp_to_body_map; done. }
  exists m. split; [done|].
  assert (Hlen : length (scatter (zeros (m + 1)) sp_to_body_map)
                 = N.to_nat (m + 1)) by by rewrite length_scatter, length_zeros.
  split; [done|]. unfold apply_segmentation_map. rewrite Hm. simpl.
  split; [|split; [|done]].
  - intros Hall.
    destruct (gather_Some (scatter (zeros (m + 1)) sp_to_body_map) superpixels)
      as (seg & Hseg & Hl & Hlook).
    { eapply Forall_impl; [done|]. intros v Hv. simpl in Hv. lia. }
    exists seg. split; [done|]. split; [done|]. split.
    + intros i v Hi Hv. rewrite (Hlook i v Hi), scatter_lookup_other by done.
      apply lookup_replicate_2.
      rewrite Forall_forall in Hall.
      specialize (Hall v (list_elem_of_lookup_2 _ _ _ Hi)). lia.
    + intros i v t Hi Hin Hone. rewrite (Hlook i v Hi).
      apply scatter_lookup_single; [done..|].
      rewrite length_zeros.
      rewrite Forall_forall in Hall.
      specialize (Hall v (list_elem_of_lookup_2 _ _ _ Hi)). lia.
  - intros Hall. apply gather_None. rewrite Hlen.
    intros Hall'. apply Hall. eapply Forall_impl; [done|].
    intros v Hv. simpl in Hv. lia.
Qed.

Lemma apply_segmentation_map_unmapped_witness :
  ∃ m, array_max ([(1, 5); (3, 7)]%N.*1) = Some m
    ∧ apply_segmentation_map [1; 2; 3]%N [(1, 5); (3, 7)]%N
      = Some [5; 0; 7]%N.
Proof.
  destruct (apply_segmentation_map_unmapped [1; 2; 3]%N [(1, 5); (3, 7)]%N)
    as (m & Hm & _). { done. }
  exists m. split; [exact Hm|]. vm_compute. reflexivity.
Defined.

(** The spec's example: the label 3 is above the largest source id 2. *)
Lemma apply_segmentation_map_example_raises :
  apply_segmentation_map [1; 2; 3]%N [(1, 5); (2, 7)]%N ≠ Some [5; 7; 0]%N.
Proof. vm_compute. discriminate. Qed.

(** ** The background sentinel *)

Lemma zero_corner_Some (a : plane) :
  is_Some (pixel a 0 0) →
  ∃ a', zero_corner a = Some a' ∧ pixel a' 0 0 = Some 0%N
    ∧ length a' = length a
    ∧ ∀ r c, (r, c) ≠ (0, 0) → pixel a' r c = pixel a r c.
Proof.
  destruct a as [|[|x row] rows]; intros [y Hy]; try done.
  eexists. split; [done|]. split; [done|]. split; [done|].
  intros [|r] [|c] Hne; done.
Qed.

Lemma mapM_zero_corner (m : volume) :
  Forall (λ a, is_Some (pixel a 0 0)) m →
  ∃ out, mapM zero_corner m = Some out ∧ length out = length m
    ∧ ∀ k, k < length m →
        voxel out k 0 0 = Some 0%N
        ∧ ∀ r c, (r, c) ≠ (0, 0) → voxel out k r c = voxel m k r c.
Proof.
  intros Hm.
  destruct (mapM_is_Some_2 zero_corner m) as [out Hout].
  { eapply Forall_impl; [done|]. intros a Ha. simpl.
    destruct (zero_corner_Some a Ha) as (a' & -> & _). by eexists. }
  exists out. split; [done|]. apply mapM_Some_1 in Hout.
  split; [symmetry; by eapply Forall2_length|].
  intros k Hk. destruct (lookup_lt_is_Some_2 m k Hk) as [a Ha].
  destruct (Forall2_lookup_l _ _ _ _ _ Hout Ha) as (a' & Ha' & Hz).
  rewrite Forall_forall in Hm.
  destruct (zero_corner_Some a (Hm a (list_elem_of_lookup_2 _ _ _ Ha)))
    as (a'' & Hz' & H00 & _ & Hrest).
  rewrite Hz in Hz'. injection Hz' as <-.
  unfold voxel. rewrite Ha, Ha'. simpl. split; [done|]. exact Hrest.
Qed.

(** C7.  The sentinel is set on one condition on the whole volume.  If the
    relabelled volume has a 0 somewhere it is returned as it is: nothing is
    promised plane by plane.  If it has no 0 at all, the voxel at row 0,
    column 0 of every plane becomes 0, every other voxel is kept, and every
    plane then has a background voxel. *)
Theorem raveler_serial_section_map_sentinel nd_map min_size cc gu m :
  serial_section_map nd_map min_size cc gu = Some m →
  Forall (λ a, is_Some (pixel a 0 0)) m →
  ∃ out, raveler_serial_section_map nd_map min_size cc gu = Some out
    ∧ (any_zero m = true → out = m)
    ∧ (any_zero m = false →
       length out = length m
       ∧ Forall (λ a, 0%N ∈ ravel a) out
       ∧ ∀ k, k < length m →
           voxel out k 0 0 = Some 0%N
           ∧ ∀ r c, (r, c) ≠ (0, 0) → voxel out k r c = voxel m k r c).
Proof.
  intros Hm Hshape. unfold raveler_serial_section_map. rewrite Hm. simpl.
  destruct (any_zero m) eqn:Hz.
  - exists m. split; [done|]. split; [done|]. done.
  - destruct (mapM_zero_corner m Hshape) as (out & Hout & Hlen & Hvox).
    exists out. split; [done|]. split; [done|]. intros _.
    split; [done|]. split; [|done].
    apply Forall_lookup. intros k a Ha.
    assert (Hk : k < length m).
    { rewrite <- Hlen. by eapply lookup_lt_Some. }
    destruct (Hvox k Hk) as [H00 _].
    apply elem_of_ravel. exists 0, 0.
    unfold voxel in H00. by rewrite Ha in H00.
Qed.

Lemma raveler_serial_section_map_sentinel_witness :
  ∃ out, raveler_serial_section_map [[[1; 2]]; [[1; 1]]]%N 0 false true
           = Some out
    ∧ voxel out 0 0 0 = Some 0%N ∧ voxel out 1 0 0 = Some 0%N.
Proof.
  destruct (raveler_serial_section_map_sentinel
              [[[1; 2]]; [[1; 1]]]%N 0 false true [[[1; 2]]; [[3; 3]]]%N)
    as (out & Hout & _ & Hno).
  - vm_compute. reflexivity.
  - repeat constructor; by eexists.
  - exists out. split; [exact Hout|].
    destruct Hno as (_ & _ & Hvox); [vm_compute; reflexivity|].
    split; [apply (Hvox 0) | apply (Hvox 1)]; simpl; lia.
Defined.

(** A plane without background after the sentinel: the volume [[0]], [[1]]
    has a 0 in plane 0, so nothing is set, and plane 1 keeps its single
    voxel 1. *)
Lemma raveler_serial_section_map_plane_without_background :
  raveler_serial_section_map [[[0]]; [[1]]]%N 0 false true
    = Some [[[0]]; [[1]]]%N
  ∧ 0%N ∉ ravel [[1%N]].
Proof.
  split; [vm_compute; reflexivity|].
  cbn. intros [[=]|[]%elem_of_nil]%elem_of_cons.
Qed.

(** ** The tables of the spec's example *)

(** C5.  On the spec's own example (two planes, bodies
    [[1,1,0],[1,1,0],[0,0,0]] and superpixels [[1,2,0],[1,2,0],[0,0,0]] in
    each), where every superpixel lies in one body, the segment-to-body table
    starts with (0,0) and has no other row with segment 0, but the segment 1
    is listed with two bodies, 0 and 1: it is the region of plane 0 and the
    shifted background of plane 1. *)
Theorem segs_to_raveler_segment_with_two_bodies :
  let bodies := [[[1; 1; 0]; [1; 1; 0]; [0; 0; 0]];
                 [[1; 1; 0]; [1; 1; 0]; [0; 0; 0]]]%N in
  let sps := [[[1; 2; 0]; [1; 2; 0]; [0; 0; 0]];
              [[1; 2; 0]; [1; 2; 0]; [0; 0; 0]]]%N in
  one_body_per_superpixel sps bodies
  ∧ ∀ do_conn_comp,
      ∃ sps_out sp_to_segment,
        segs_to_raveler sps bodies 0 do_conn_comp None
        = Some (sps_out, sp_to_segment,
                [(0, 0); (1, 0); (1, 1); (2, 1)]%N).
Proof.
  intros bodies sps. split.
  - apply (bool_decide_unpack (one_body_per_superpixel sps bodies)).
    vm_compute. exact I.
  - intros []; do 2 eexists; vm_compute; reflexivity.
Qed.

(** C10.  The builder relabels the superpixels without globally unique ids
    and the bodies with them, and the segment ids are still not unique to a
    plane.  For superpixels [[1,2,0]] and bodies [[1,0,0]] in each of two
    planes, the superpixel ids 1 and 2 are used in both planes, and the
    segment 1 is given to superpixel 1 of plane 0 and to superpixel 2 of
    plane 1. *)
Theorem segs_to_raveler_segment_on_two_planes :
  let sps := [[[1; 2; 0]]; [[1; 2; 0]]]%N in
  let bodies := [[[1; 0; 0]]; [[1; 0; 0]]]%N in
  raveler_serial_section_map sps 0 false false
    = Some [[[1; 2; 0]]; [[1; 2; 0]]]%N
  ∧ (∀ do_conn_comp,
       raveler_serial_section_map bodies 0 do_conn_comp true
       = Some [[[1; 0; 0]]; [[2; 1; 1]]]%N)
  ∧ segs_to_raveler sps bodies 0 false None
    = Some ([[[1; 2; 0]]; [[1; 2; 0]]]%N,
            [(0, 0, 0); (0, 1, 1); (0, 2, 0);
             (1, 0, 0); (1, 1, 2); (1, 2, 1)]%N,
            [(0, 0); (1, 0); (1, 1); (2, 1)]%N).
Proof.
  intros sps bodies. split; [vm_compute; reflexivity|]. split.
  - intros []; vm_compute; reflexivity.
  - vm_compute. reflexivity.
Qed.

(** ** Tables: sorted rows without repetition *)

Global Instance pair_le_trans : Transitive pair_le.
Proof. intros [??] [??] [??]; unfold pair_le; simpl; lia. Qed.
Global Instance pair_le_total : Total pair_le.
Proof. intros [??] [??]; unfold pair_le; simpl; lia. Qed.
Global Instance triple_le_trans : Transitive triple_le.
Proof.
  intros [[a b] c] [[a' b'] c'] [[a'' b''] c'']; unfold triple_le, pair_le.
  simpl. intros [H1 H2] [H3 H4]. split; [lia|]. intros [= -> ->].
  assert (a' = a'') as -> by lia. assert (b' = b'') as -> by lia.
  specialize (H2 eq_refl). specialize (H4 eq_refl). lia.
Qed.
Global Instance triple_le_total : Total triple_le.
Proof.
  intros [[a b] c] [[a' b'] c']; unfold triple_le, pair_le; simpl.
  destruct (decide (a = a')) as [->|]; [|
    destruct (decide (a < a')%N); [left|right]; (split; [lia|congruence])].
  destruct (decide (b = b')) as [->|]; [|
    destruct (decide (b < b')%N); [left|right]; (split; [lia|congruence])].
  destruct (decide (c ≤ c')%N); [left|right]; (split; [lia|intros _; lia]).
Qed.

Section unique.
Context {A : Type} `{EqDecision A} (R : relation A).
Context `{∀ x y, Decision (R x y)} `{!Transitive R} `{!Total R}.

Lemma elem_of_unique l x : x ∈ merge_sort R (remove_dups l) ↔ x ∈ l.
Proof. by rewrite merge_sort_Permutation, elem_of_remove_dups. Qed.

Lemma NoDup_unique l : NoDup (merge_sort R (remove_dups l)).
Proof. rewrite merge_sort_Permutation. apply NoDup_remove_dups. Qed.

Lemma StronglySorted_unique l :
  StronglySorted R (merge_sort R (remove_dups l)).
Proof. by apply StronglySorted_merge_sort. Qed.

Lemma StronglySorted_filter (P : A → Prop) `{∀ x, Decision (P x)} l :
  StronglySorted R l → StronglySorted R (filter P l).
Proof.
  induction 1 as [|x l Hl IH Hx]; [constructor|].
  rewrite filter_cons. destruct (decide (P x)); [|done].
  constructor; [done|]. apply Forall_forall.
  intros y [_ Hy]%list_elem_of_filter. rewrite Forall_forall in Hx. auto.
Qed.
End unique.

(** The rows made for the planes of a list, plane after plane. *)
Section per_plane.
Context {X T : Type} (key : T → nat).

Lemma NoDup_join_imap n (f : nat → X → list T) l :
  (∀ i x row, l !! i = Some x → row ∈ f i x → key row = n + i) →
  (∀ i x, l !! i = Some x → NoDup (f i x)) →
  NoDup (mjoin (imap f l)).
Proof.
  revert n f. induction l as [|x l IH]; intros n f Hkey Hnd; [constructor|].
  rewrite imap_cons. simpl. apply NoDup_app. split_and!.
  - by apply (Hnd 0).
  - intros row Hrow (l' & Hin & Hl')%list_elem_of_join.
    apply elem_of_lookup_imap in Hl' as (i & y & -> & Hy).
    pose proof (Hkey 0 x row eq_refl Hrow).
    pose proof (Hkey (S i) y row Hy Hin). lia.
  - apply (IH (S n)).
    + intros i y row Hy Hrow. rewrite (Hkey (S i) y row Hy Hrow). lia.
    + intros i y Hy. apply (Hnd (S i)). done.
Qed.


Lemma elem_of_join_imap (f : nat → X → list T) l row :
  row ∈ mjoin (imap f l) ↔ ∃ i x, l !! i = Some x ∧ row ∈ f i x.
Proof.
  rewrite list_elem_of_join. split.
  - intros (l' & Hin & Hl'). 
    apply elem_of_lookup_imap in Hl' as (i & y & -> & Hy). eauto.
  - intros (i & x & Hx & Hrow). exists (f i x). split; [done|].
    by apply elem_of_lookup_imap_2.
Qed.
End per_plane.

(** ** Raveled arrays of one shape *)

Lemma join_fmap {A B} (f : A → B) (a : list (list A)) :
  mjoin (map (map f) a) = map f (mjoin a).
Proof. induction a as [|x a IH]; simpl; [done|]. by rewrite IH, map_app. Qed.

Lemma join_zip_with {A B D} (f : A → B → D) C a b :
  Forall (λ row, length row = C) a → Forall (λ row, length row = C) b →
  mjoin (zip_with (zip_with f) a b) = zip_with f (mjoin a) (mjoin b).
Proof.
  intros Ha. revert b. induction Ha as [|x a Hx Ha IH]; intros b Hb.
  { by destruct b. }
  destruct Hb as [|y b Hy Hb]; simpl.
  { by destruct (x ++ mjoin a). }
  rewrite zip_with_app by congruence. by rewrite IH.
Qed.

Lemma elem_of_zip_ravel C (a b : plane) x y :
  Forall (λ row, length row = C) a → Forall (λ row, length row = C) b →
  (x, y) ∈ zip (ravel a) (ravel b)
  ↔ ∃ r c, pixel a r c = Some x ∧ pixel b r c = Some y.
Proof.
  intros Ha Hb. unfold ravel.
  rewrite <- (join_zip_with pair C a b) by done.
  rewrite list_elem_of_join. split.
  - intros (row & Hxy & Hrow).
    apply elem_of_lookup_zip_with in Hrow as (r & ra & rb & -> & Hra & Hrb).
    apply elem_of_lookup_zip_with in Hxy as (c & x' & y' & [= <- <-] & Hx & Hy).
    exists r, c. rewrite !pixel_Some. split; eauto.
  - intros (r & c & (ra & Hra & Hx)%pixel_Some & (rb & Hrb & Hy)%pixel_Some).
    exists (zip_with pair ra rb). split.
    + apply elem_of_lookup_zip_with. exists c, x, y. eauto.
    + apply elem_of_lookup_zip_with. exists r, ra, rb. eauto.
Qed.

(** ** The fine-to-mid table *)

(** The mask product, the boolean sum and the two selections of the loop
    body, on the raveled planes: they keep the voxels the spec names. *)
Lemma select_zip_flat (S G : list N) :
  let G' := zip_with (λ v (b : bool), (v * (if b then 1 else 0))%N) G
                     (map (λ v, bool_decide (v ≠ 0%N)) S) in
  let B := zip_with (λ s g, bool_decide (s ≠ 0%N) || bool_decide (g = 0%N))
                    S G' in
  zip (filter (λ vb : N * bool, vb.2 = true) (zip S B)).*1
      (filter (λ vb : N * bool, vb.2 = true) (zip G' B)).*1
  = filter (λ fm, fm.1 ≠ 0%N ∨ fm.2 = 0%N)
           ((λ fm, (fm.1, masked_mid fm.1 fm.2)) <$> zip S G).
Proof.
  revert G. induction S as [|s S IH]; intros G; [by destruct G|].
  destruct G as [|g G]; [done|]. simpl in *.
  assert (Hval : (g * (if bool_decide (s ≠ 0) then 1 else 0))%N
                 = masked_mid s g).
  { unfold masked_mid. case_bool_decide; case_decide; try done; lia. }
  assert (Hq : s ≠ 0%N ∨ masked_mid s g = 0%N).
  { unfold masked_mid. case_decide; [by right|by left]. }
  assert (Hb : bool_decide (s ≠ 0%N) || bool_decide (masked_mid s g = 0%N)
               = true).
  { destruct Hq as [Hq|Hq].
    - by rewrite (bool_decide_true _ Hq).
    - rewrite (bool_decide_true _ Hq). apply orb_true_r. }
  rewrite Hval, Hb, !filter_cons. simpl.
  rewrite !decide_True by done. simpl. f_equal. apply IH.
Qed.

Lemma sp_to_segment_plane_spec C i (sp_map_i segment_map_i : plane) :
  Forall (λ row, length row = C) sp_map_i →
  Forall (λ row, length row = C) segment_map_i →
  sp_to_segment_plane i sp_map_i segment_map_i
  = fine_to_mid_plane i sp_map_i segment_map_i.
Proof.
  intros Hsp Hseg. unfold sp_to_segment_plane, fine_to_mid_plane.
  do 2 f_equal. unfold select, valid_mask, mul_mask, astype_bool, ravel.
  assert (Hmask : Forall (λ row : list bool, length row = C)
                    (map (map (λ v, bool_decide (v ≠ 0%N))) sp_map_i)).
  { apply Forall_fmap. eapply Forall_impl; [done|].
    intros row Hrow. simpl. by rewrite length_map. }
  assert (Hseg' : Forall (λ row : list N, length row = C)
            (zip_with (zip_with (λ v (b : bool), (v * (if b then 1 else 0))%N))
               segment_map_i
               (map (map (λ v, bool_decide (v ≠ 0%N))) sp_map_i))).
  { apply Forall_lookup. intros r row.
    intros (x & y & -> & Hx & Hy)%lookup_zip_with_Some.
    rewrite length_zip_with.
    rewrite Forall_lookup in Hseg. rewrite Forall_lookup in Hmask.
    rewrite (Hseg _ _ Hx), (Hmask _ _ Hy). lia. }
  rewrite (join_zip_with _ C) by done.
  rewrite (join_zip_with _ C) by done.
  rewrite join_fmap. apply select_zip_flat.
Qed.

Lemma elem_of_fine_to_mid_plane C i (fine_plane mid_plane : plane) row :
  Forall (λ row, length row = C) fine_plane →
  Forall (λ row, length row = C) mid_plane →
  row ∈ fine_to_mid_plane i fine_plane mid_plane
  ↔ ∃ r c fine mid,
      pixel fine_plane r c = Some fine ∧ pixel mid_plane r c = Some mid
      ∧ (fine ≠ 0%N ∨ masked_mid fine mid = 0%N)
      ∧ row = (N.of_nat i, fine, masked_mid fine mid).
Proof.
  intros Hf Hm. unfold fine_to_mid_plane, unique3.
  rewrite (elem_of_unique triple_le), list_elem_of_fmap. split.
  - intros ([f m'] & -> & [Hq Hin]%list_elem_of_filter). simpl in *.
    apply list_elem_of_fmap in Hin as ([f' m] & [= -> ->] & Hin). simpl in *.
    apply (elem_of_zip_ravel C) in Hin as (r & c & Hr & Hc); [|done..].
    exists r, c, f', m. done.
  - intros (r & c & f & m & Hr & Hc & Hq & ->).
    exists (f, masked_mid f m). split; [done|].
    apply list_elem_of_filter. split; [done|].
    apply list_elem_of_fmap. exists (f, m). split; [done|].
    apply (elem_of_zip_ravel C); eauto.
Qed.

Lemma fine_to_mid_plane_index i (fine_plane mid_plane : plane) row :
  row ∈ fine_to_mid_plane i fine_plane mid_plane → N.to_nat row.1.1 = 0 + i.
Proof.
  unfold fine_to_mid_plane, unique3. rewrite (elem_of_unique triple_le).
  intros (fm & -> & _)%list_elem_of_fmap. simpl. lia.
Qed.

Lemma volume_shape_lookup P R C (v : volume) k a :
  volume_shape P R C v → v !! k = Some a →
  k < P ∧ Forall (λ row, length row = C) a ∧ plane_shape R C a.
Proof.
  intros [Hl Hplanes] Ha. rewrite Forall_lookup in Hplanes.
  pose proof (Hplanes _ _ Ha) as Hs. pose proof Hs as [_ Hrows].
  apply lookup_lt_Some in Ha. split; [lia|done].
Qed.

Section fine_to_mid.
Context (P R C : nat) (fine_volume mid_volume : volume).
Context (Hfine : volume_shape P R C fine_volume).
Context (Hmid : volume_shape P R C mid_volume).

Lemma elem_of_fine_to_mid row :
  row ∈ fine_to_mid fine_volume mid_volume
  ↔ ∃ k r c fine mid,
      voxel fine_volume k r c = Some fine
      ∧ voxel mid_volume k r c = Some mid
      ∧ (fine ≠ 0%N ∨ masked_mid fine mid = 0%N)
      ∧ row = (N.of_nat k, fine, masked_mid fine mid).
Proof.
  unfold fine_to_mid. rewrite elem_of_join_imap. split.
  - intros (k & [a b] & Hab & Hrow). simpl in Hrow.
    apply lookup_zip_with_Some in Hab as (a' & b' & [= <- <-] & Ha & Hb).
    destruct (volume_shape_lookup _ _ _ _ _ _ Hfine Ha) as (_ & Hra & _).
    destruct (volume_shape_lookup _ _ _ _ _ _ Hmid Hb) as (_ & Hrb & _).
    apply (elem_of_fine_to_mid_plane C) in Hrow
      as (r & c & f & m & Hf & Hm & Hq & ->); [|done..].
    exists k, r, c, f, m. rewrite !voxel_Some. eauto 10.
  - intros (k & r & c & f & m & (a & Ha & Hf)%voxel_Some
              & (b & Hb & Hm)%voxel_Some & Hq & ->).
    exists k, (a, b). split.
    + apply lookup_zip_with_Some. eauto.
    + destruct (volume_shape_lookup _ _ _ _ _ _ Hfine Ha) as (_ & Hra & _).
      destruct (volume_shape_lookup _ _ _ _ _ _ Hmid Hb) as (_ & Hrb & _).
      apply (elem_of_fine_to_mid_plane C); [done..|]. eauto 10.
Qed.

Lemma NoDup_fine_to_mid : NoDup (fine_to_mid fine_volume mid_volume).
Proof.
  apply (NoDup_join_imap (λ row : N * N * N, N.to_nat row.1.1) 0).
  - intros i [a b] row _. apply fine_to_mid_plane_index.
  - intros i [a b] _. apply (NoDup_unique triple_le).
Qed.

End fine_to_mid.

Lemma imap_zip_fst {A B D} (g : nat → A → D) (l : list A) (k : list B) :
  length l ≤ length k → imap (λ i x, g i x.1) (zip l k) = imap g l.
Proof.
  intros Hlen. apply list_eq. intros i.
  rewrite !list_lookup_imap, lookup_zip_with.
  destruct (l !! i) as [x|] eqn:Hx; simpl; [|done].
  destruct (lookup_lt_is_Some_2 k i) as [y ->]; [|done].
  apply lookup_lt_Some in Hx. lia.
Qed.

(** What [segs_to_raveler] returns, in terms of the two relabelled
    volumes. *)
Lemma segs_to_raveler_Some sps bodies min_size cc result :
  segs_to_raveler sps bodies min_size cc None = Some result →
  ∃ sps_out segment_map,
    raveler_serial_section_map sps min_size cc false = Some sps_out
    ∧ raveler_serial_section_map bodies min_size cc true = Some segment_map
    ∧ result =
        (sps_out,
         mjoin (imap (λ i planes, sp_to_segment_plane i planes.1.1 planes.1.2)
                     (zip (zip sps_out segment_map) bodies)),
         (0%N, 0%N) :: filter (λ row, row.1 ≠ 0%N)
                         (unique2 (zip (ravel3 segment_map) (ravel3 bodies)))).
Proof.
  unfold segs_to_raveler. intros Hres.
  destruct (raveler_serial_section_map sps min_size cc false) as [so|];
    [|done].
  destruct (raveler_serial_section_map bodies min_size cc true) as [sm|];
    [|done].
  simpl in Hres. injection Hres as <-. by exists so, sm.
Qed.

Lemma sp_to_segment_fine_to_mid P R C (sps_out segment_map bodies : volume) :
  volume_shape P R C sps_out → volume_shape P R C segment_map →
  length bodies = P →
  mjoin (imap (λ i planes, sp_to_segment_plane i planes.1.1 planes.1.2)
              (zip (zip sps_out segment_map) bodies))
  = fine_to_mid sps_out segment_map.
Proof.
  intros Hso Hsm Hb. unfold fine_to_mid. f_equal.
  rewrite (imap_zip_fst (λ i ab, sp_to_segment_plane i ab.1 ab.2)).
  2:{ rewrite length_zip_with. destruct Hso as [-> _]. lia. }
  apply imap_ext. intros k [a b].
  intros (a' & b' & [= <- <-] & Ha & Hb')%lookup_zip_with_Some. simpl.
  destruct (volume_shape_lookup _ _ _ _ _ _ Hso Ha) as (_ & Hra & _).
  destruct (volume_shape_lookup _ _ _ _ _ _ Hsm Hb') as (_ & Hrb & _).
  by apply (sp_to_segment_plane_spec C).
Qed.


(** ** Compaction of the ids of a plane *)

Lemma elem_of_first_seen l x : x ∈ first_seen l ↔ x ∈ l.
Proof.
  induction l as [|y l IH]; simpl; [done|].
  rewrite !elem_of_cons, list_elem_of_filter, IH.
  destruct (decide (x = y)); tauto.
Qed.

Lemma elem_of_nonzero_ids (a : plane) x :
  x ∈ nonzero_ids a ↔ x ≠ 0%N ∧ x ∈ ravel a.
Proof.
  unfold nonzero_ids. by rewrite elem_of_first_seen, list_elem_of_filter.
Qed.

Lemma index_of_lt x l : x ∈ l → index_of x l < length l.
Proof.
  induction l as [|y l IH]; [by intros ?%elem_of_nil|].
  intros Hx. simpl. case_decide; [lia|].
  apply elem_of_cons in Hx as [?|Hx]; [done|]. specialize (IH Hx). lia.
Qed.

Lemma index_of_inj x y l :
  x ∈ l → y ∈ l → index_of x l = index_of y l → x = y.
Proof.
  induction l as [|z l IH]; [by intros ?%elem_of_nil|].
  intros Hx Hy. simpl. repeat case_decide; try congruence.
  intros [= Heq].
  apply elem_of_cons in Hx as [?|Hx]; [done|].
  apply elem_of_cons in Hy as [?|Hy]; [done|]. auto.
Qed.

Section new_id.
Context (imap : list N).

Lemma new_id_zero v : new_id imap v = 0%N ↔ v = 0%N.
Proof. unfold new_id. case_decide; [done|]. split; [lia|done]. Qed.

Lemma new_id_le v :
  v = 0%N ∨ v ∈ imap → (new_id imap v ≤ N.of_nat (length imap))%N.
Proof.
  unfold new_id. case_decide; [lia|]. intros [?|Hv]; [done|].
  apply index_of_lt in Hv. lia.
Qed.

Lemma new_id_pos v : v ≠ 0%N → (1 ≤ new_id imap v)%N.
Proof. unfold new_id. case_decide; [done|]. lia. Qed.

Lemma new_id_inj v w :
  v = 0%N ∨ v ∈ imap → w = 0%N ∨ w ∈ imap →
  new_id imap v = new_id imap w → v = w.
Proof.
  unfold new_id. intros Hv Hw. repeat case_decide; try (congruence || lia).
  destruct Hv as [?|Hv]; [done|]. destruct Hw as [?|Hw]; [done|].
  intros Heq. apply (index_of_inj v w imap); [done..|lia].
Qed.
End new_id.

(** An id of a plane is 0 or one of its listed ids. *)
Lemma pixel_nonzero_ids (a : plane) r c v :
  pixel a r c = Some v → v = 0%N ∨ v ∈ nonzero_ids a.
Proof.
  intros Hv. destruct (decide (v = 0%N)); [by left|right].
  apply elem_of_nonzero_ids. split; [done|]. apply elem_of_ravel. eauto.
Qed.

(** ** Offsets of the planes *)

Lemma cumsum_from_lookup acc l i :
  i < length l → cumsum_from acc l !! i = Some (acc + sumN (take (S i) l))%N.
Proof.
  revert acc i. induction l as [|x l IH]; intros acc i Hi; [simpl in Hi; lia|].
  destruct i as [|i]; simpl.
  - f_equal. destruct l; simpl; lia.
  - rewrite IH by (simpl in Hi; lia). f_equal. simpl. lia.
Qed.

Lemma start_ids_lookup nids k :
  k < length nids → start_ids true nids !! k = Some (sumN (take k nids)).
Proof.
  intros Hk. unfold start_ids. destruct k as [|k]; [done|]. simpl.
  unfold cumsum. rewrite length_cumsum_from.
  rewrite lookup_take_lt by lia. rewrite cumsum_from_lookup by lia.
  f_equal; lia.
Qed.

Lemma start_ids_false_lookup nids k :
  k < length nids → start_ids false nids !! k = Some 0%N.
Proof. intros Hk. by apply lookup_replicate_2. Qed.

Lemma plane_offset_S nd_map k a :
  nd_map !! k = Some a →
  plane_offset nd_map (S k)
  = (plane_offset nd_map k + N.of_nat (length (nonzero_ids a)))%N.
Proof.
  intros Ha. unfold plane_offset.
  assert (Hn : plane_ids nd_map !! k
               = Some (N.of_nat (length (nonzero_ids a)))).
  { unfold plane_ids. change (map ?f ?l) with (f <$> l).
    by rewrite list_lookup_fmap, Ha. }
  rewrite (take_S_r _ _ _ Hn). unfold sumN. rewrite foldr_app. simpl.
  generalize (take k (plane_ids nd_map)). intros l.
  induction l as [|x l IH]; simpl; lia.
Qed.

Lemma plane_offset_mono nd_map j k :
  j ≤ k → (plane_offset nd_map j ≤ plane_offset nd_map k)%N.
Proof.
  induction 1 as [|k Hjk IH]; [lia|].
  destruct (nd_map !! k) as [a|] eqn:Ha.
  - rewrite (plane_offset_S _ _ _ Ha). lia.
  - apply lookup_ge_None in Ha. unfold plane_offset in *.
    assert (Hlen : length (plane_ids nd_map) ≤ k).
    { unfold plane_ids. rewrite length_map. lia. }
    rewrite (take_ge _ (S k)) by lia. by rewrite (take_ge _ k) in IH by lia.
Qed.

(** ** The relabelled volume, voxel by voxel *)

Lemma remove_small_zero a : remove_small_connected_components a 0 = a.
Proof. done. Qed.

Lemma labelled_ids (nd_map : volume) :
  (map (label_fct false)
       (map (λ a, remove_small_connected_components a 0) nd_map)).*2
  = plane_ids nd_map.
Proof. induction nd_map as [|a nd IH]; [done|]. simpl. by f_equal. Qed.

(** Without component filter and component pass, a voxel gets its compacted
    id plus the offset of its plane, whether it is background or not. *)
Lemma serial_section_map_voxel nd_map gu m k a r c :
  serial_section_map nd_map 0 false gu = Some m → nd_map !! k = Some a →
  voxel m k r c
  = (λ v, (new_id (nonzero_ids a) v
           + (if gu then plane_offset nd_map k else 0))%N) <$> pixel a r c.
Proof.
  intros Hm Ha.
  assert (Hne : nd_map ≠ []) by (by destruct nd_map).
  rewrite serial_section_map_Some in Hm by done. simpl in Hm.
  injection Hm as <-. unfold voxel. rewrite lookup_zip_with.
  rewrite labelled_ids, !list_lookup_fmap, Ha. simpl.
  assert (Hk : k < length (plane_ids nd_map)).
  { unfold plane_ids. rewrite length_map. by eapply lookup_lt_Some. }
  destruct gu.
  - rewrite start_ids_lookup by done. simpl.
    rewrite !remove_small_zero, !pixel_map. by destruct (pixel a r c).
  - rewrite start_ids_false_lookup by done. simpl.
    rewrite !remove_small_zero, !pixel_map. by destruct (pixel a r c).
Qed.

Lemma serial_section_map_is_Some nd_map min_size cc gu :
  nd_map ≠ [] → is_Some (serial_section_map nd_map min_size cc gu).
Proof. intros Hne. rewrite serial_section_map_Some by done. by eexists. Qed.

(** The sentinel changes corner voxels only, and only to 0. *)
Lemma raveler_serial_section_map_voxel P R C nd_map min_size cc gu :
  volume_shape P R C nd_map → 0 < P → 0 < R → 0 < C →
  ∃ m rs,
    serial_section_map nd_map min_size cc gu = Some m
    ∧ raveler_serial_section_map nd_map min_size cc gu = Some rs
    ∧ volume_shape P R C rs
    ∧ (∀ k r c, (r, c) ≠ (0, 0) → voxel rs k r c = voxel m k r c)
    ∧ (∀ k x, voxel rs k 0 0 = Some x →
              x = 0%N ∨ voxel m k 0 0 = Some x).
Proof.
  intros Hshape HP HR HC.
  destruct (serial_section_map_is_Some nd_map min_size cc gu) as [m Hm].
  { destruct Hshape as [Hl _]. destruct nd_map; [simpl in Hl; lia|done]. }
  pose proof (volume_shape_serial_section_map _ _ _ _ _ _ _ _ Hshape Hm)
    as Hms.
  exists m.
  assert (∃ rs, raveler_serial_section_map nd_map min_size cc gu = Some rs
            ∧ (∀ k r c, (r, c) ≠ (0, 0) → voxel rs k r c = voxel m k r c)
            ∧ (∀ k x, voxel rs k 0 0 = Some x →
                      x = 0%N ∨ voxel m k 0 0 = Some x))
    as (rs & Hrs & Hrest & Hcorner).
  { unfold raveler_serial_section_map. rewrite Hm. simpl.
    destruct (any_zero m).
    { exists m. split_and!; auto. }
    destruct (mapM_zero_corner m) as (rs & Hrs & Hlen & Hvox).
    { destruct Hms as [_ Hplanes]. eapply Forall_impl; [done|].
      intros a Ha. simpl. by apply (plane_shape_pixel R C). }
    exists rs. split_and!; [done|..].
    - intros k r c Hne. destruct (decide (k < length m)) as [Hk|Hk].
      + by apply Hvox.
      + unfold voxel. rewrite !(lookup_ge_None_2 _ k); [done|lia..].
    - intros k x Hx. left. destruct (decide (k < length m)) as [Hk|Hk].
      + destruct (Hvox k Hk) as [H00 _]. congruence.
      + unfold voxel in Hx. rewrite (lookup_ge_None_2 _ k) in Hx; [done|lia]. }
  exists rs. split_and!; try done.
  exact (volume_shape_raveler_serial_section_map _ _ _ _ _ _ _ _ Hshape Hrs).
Qed.

(** ** The superpixel-to-segment table of the builder *)

(** C6.  For every pair of input volumes of one shape, and whether the
    superpixel volume is relabelled by the builder or given to it, the
    builder returns the fine volume (the relabelled superpixels, or the
    given volume) and, as its superpixel-to-segment table, the fine-to-mid
    table of the spec for the fine volume and the relabelled bodies: per
    plane, the mid-id plane is zeroed where the fine-id plane is 0, the
    distinct (plane, fine id, mid id) are taken over the voxels whose fine
    id is nonzero or whose masked mid id is zero, and the per-plane tables
    follow one another in plane order.  No row is repeated, and the rows are
    those of the qualifying voxels. *)
Theorem sp_to_segment_is_fine_to_mid P R C sps bodies min_size cc
    (given : option volume) :
  volume_shape P R C sps → volume_shape P R C bodies →
  0 < P → 0 < R → 0 < C →
  (∀ g, given = Some g → volume_shape P R C g) →
  ∃ fine mid segment_to_body,
    match given with
    | Some g => fine = g
    | None => raveler_serial_section_map sps min_size cc false = Some fine
    end
    ∧ raveler_serial_section_map bodies min_size cc true = Some mid
    ∧ segs_to_raveler sps bodies min_size cc given
      = Some (fine, fine_to_mid fine mid, segment_to_body)
    ∧ NoDup (fine_to_mid fine mid)
    ∧ ∀ row, row ∈ fine_to_mid fine mid
        ↔ ∃ k r c f m,
            voxel fine k r c = Some f
            ∧ voxel mid k r c = Some m
            ∧ (f ≠ 0%N ∨ masked_mid f m = 0%N)
            ∧ row = (N.of_nat k, f, masked_mid f m).
Proof.
  intros Hsps Hbodies HP HR HC Hgiven.
  destruct (raveler_serial_section_map_voxel P R C bodies min_size cc true)
    as (_ & mid & _ & Hmid & Hmid_shape & _); [done..|].
  assert (∃ fine,
            match given with
            | Some g => fine = g
            | None => raveler_serial_section_map sps min_size cc false
                      = Some fine
            end
            ∧ volume_shape P R C fine
            ∧ match given with
              | Some g => Some g
              | None => raveler_serial_section_map sps min_size cc false
              end = Some fine) as (fine & Hfine & Hfine_shape & Hfine').
  { destruct given as [g|].
    - exists g. split_and!; [done| |done]. by apply Hgiven.
    - destruct (raveler_serial_section_map_voxel P R C sps min_size cc false)
        as (_ & fine & _ & Hfine & Hfine_shape & _); [done..|].
      by exists fine. }
  exists fine, mid. eexists. split_and!; [exact Hfine|exact Hmid| | |].
  - unfold segs_to_raveler. rewrite Hfine', Hmid. cbn.
    rewrite (sp_to_segment_fine_to_mid P R C); [done..|]. by destruct Hbodies.
  - apply NoDup_fine_to_mid.
  - intros row. by apply (elem_of_fine_to_mid P R C).
Qed.

Lemma sp_to_segment_is_fine_to_mid_witness :
  ∃ fine mid segment_to_body,
    raveler_serial_section_map [[[4; 4; 0]]; [[0; 7; 7]]]%N 0 false false
      = Some fine
    ∧ raveler_serial_section_map [[[1; 1; 0]]; [[0; 3; 3]]]%N 0 false true
      = Some mid
    ∧ segs_to_raveler [[[4; 4; 0]]; [[0; 7; 7]]]%N
                      [[[1; 1; 0]]; [[0; 3; 3]]]%N 0 false None
      = Some (fine, fine_to_mid fine mid, segment_to_body).
Proof.
  destruct (sp_to_segment_is_fine_to_mid 2 1 3
              [[[4; 4; 0]]; [[0; 7; 7]]]%N [[[1; 1; 0]]; [[0; 3; 3]]]%N
              0 false None)
    as (fine & mid & segment_to_body & Hfine & Hmid & Hres & _).
  - apply (bool_decide_unpack _). vm_compute. exact I.
  - apply (bool_decide_unpack _). vm_compute. exact I.
  - lia.
  - lia.
  - lia.
  - intros g Hg. discriminate Hg.
  - exists fine, mid, segment_to_body.
    split_and!; [exact Hfine | exact Hmid | exact Hres].
Defined.

(** ** Raveled volumes of one shape *)

Lemma elem_of_zip_ravel3 P R C (u v : volume) x y :
  volume_shape P R C u → volume_shape P R C v →
  (x, y) ∈ zip (ravel3 u) (ravel3 v)
  ↔ ∃ k r c, voxel u k r c = Some x ∧ voxel v k r c = Some y.
Proof.
  intros [Hlu Hu] [Hlv Hv]. unfold ravel3.
  assert (Hru : Forall (λ a : list (list N), length a = R) u).
  { eapply Forall_impl; [exact Hu|]. by intros a [? _]. }
  assert (Hrv : Forall (λ a : list (list N), length a = R) v).
  { eapply Forall_impl; [exact Hv|]. by intros a [? _]. }
  assert (Hcu : Forall (λ row : list N, length row = C) (mjoin u)).
  { apply Forall_join. eapply Forall_impl; [exact Hu|]. by intros a [_ ?]. }
  assert (Hcv : Forall (λ row : list N, length row = C) (mjoin v)).
  { apply Forall_join. eapply Forall_impl; [exact Hv|]. by intros a [_ ?]. }
  pose proof (elem_of_zip_ravel C (mjoin u) (mjoin v) x y Hcu Hcv) as Hflat.
  unfold ravel in Hflat. rewrite Hflat. clear Hflat.
  pose proof (join_zip_with pair R u v Hru Hrv) as Hjoin.
  split.
  - intros (r' & c & (ru & Hr'u & Hx)%pixel_Some & (rv & Hr'v & Hy)%pixel_Some).
    assert (Hin : (ru, rv) ∈ zip (mjoin u) (mjoin v)).
    { apply elem_of_lookup_zip_with. exists r', ru, rv. eauto. }
    rewrite <- Hjoin in Hin. apply list_elem_of_join in Hin as (l & Hin & Hl).
    apply elem_of_lookup_zip_with in Hl as (k & a & b & -> & Ha & Hb).
    apply elem_of_lookup_zip_with in Hin as (r & ru' & rv' & [= <- <-] & ? & ?).
    exists k, r, c. rewrite !voxel_Some. split.
    + exists a. split; [done|]. apply pixel_Some. eauto.
    + exists b. split; [done|]. apply pixel_Some. eauto.
  - intros (k & r & c & (a & Ha & (ru & Hru' & Hx)%pixel_Some)%voxel_Some
              & (b & Hb & (rv & Hrv' & Hy)%pixel_Some)%voxel_Some).
    assert (Hin : (ru, rv) ∈ zip (mjoin u) (mjoin v)).
    { rewrite <- Hjoin. apply list_elem_of_join. exists (zip a b). split.
      - apply elem_of_lookup_zip_with. exists r, ru, rv. eauto.
      - apply elem_of_lookup_zip_with. exists k, a, b. eauto. }
    apply elem_of_lookup_zip_with in Hin as (r' & ru' & rv' & [= <- <-] & ? & ?).
    exists r', c. rewrite !pixel_Some. split; eauto.
Qed.

(** ** Reading the tables back *)

(** In a sorted table the last row of a key carries its largest value, and
    that is the one the scatter leaves. *)
Lemma scatter_lookup_sorted fm l (k V : N) :
  StronglySorted pair_le l →
  (k, V) ∈ l → (∀ v', (k, v') ∈ l → (v' ≤ V)%N) →
  N.to_nat k < length fm →
  scatter fm l !! N.to_nat k = Some V.
Proof.
  intros Hsorted Hin Hmax Hlt.
  induction l as [|[k' t'] l IH] using rev_ind; [by apply elem_of_nil in Hin|].
  apply StronglySorted_app in Hsorted as (Hle & Hl & _).
  rewrite scatter_app. unfold scatter at 1. simpl.
  destruct (decide (k' = k)) as [->|Hne].
  - rewrite list_lookup_insert_eq by by rewrite length_scatter.
    f_equal. apply N.le_antisymm.
    + apply Hmax. apply elem_of_app. right. by left.
    + apply elem_of_app in Hin as [Hin|Hin].
      * specialize (Hle (k, V) (k, t') Hin (list_elem_of_here _ _)).
        unfold pair_le in Hle. simpl in Hle. lia.
      * apply list_elem_of_singleton in Hin as [= ->]. lia.
  - rewrite list_lookup_insert_ne by lia.
    apply elem_of_app in Hin as [Hin|Hin].
    + apply IH; [done..|]. intros v' Hv'. apply Hmax, elem_of_app. by left.
    + apply list_elem_of_singleton in Hin as [= -> ->]. done.
Qed.

Section sp2seg_dict.
Context (max_sp : N).

Lemma sp2seg_dict_snoc l z sp seg z' :
  sp2seg_dict max_sp (l ++ [(z, sp, seg)]) !! z'
  = if decide (z = z')
    then Some (<[N.to_nat sp := seg]>
                 (default (zeros (max_sp + 1)) (sp2seg_dict max_sp l !! z)))
    else sp2seg_dict max_sp l !! z'.
Proof.
  unfold sp2seg_dict at 1. rewrite foldl_app. simpl.
  fold (sp2seg_dict max_sp l).
  destruct (sp2seg_dict max_sp l !! z) as [arr|] eqn:Hz; simpl.
  - case_decide as Hzz.
    + subst z'. by rewrite lookup_alter_eq, Hz.
    + by rewrite lookup_alter_ne.
  - case_decide as Hzz.
    + subst z'. by rewrite lookup_alter_eq, lookup_insert_eq.
    + rewrite lookup_alter_ne, lookup_insert_ne; done.
Qed.

(** Every array has the size it was made with; a plane has an array when
    a row names it; an entry is 0 or the segment of a row of the plane. *)
Lemma sp2seg_dict_inv l z arr :
  sp2seg_dict max_sp l !! z = Some arr →
  length arr = N.to_nat (max_sp + 1)
  ∧ ∀ i x, arr !! i = Some x → x = 0%N ∨ ∃ sp, (z, sp, x) ∈ l.
Proof.
  revert arr. induction l as [|[[z' sp] seg] l IH] using rev_ind; intros arr.
  { unfold sp2seg_dict. simpl. by rewrite lookup_empty. }
  rewrite sp2seg_dict_snoc. case_decide as Hz.
  - subst z'. intros [= <-]. rewrite length_insert.
    assert (Hdef : length (default (zeros (max_sp + 1))
                             (sp2seg_dict max_sp l !! z))
                   = N.to_nat (max_sp + 1)
              ∧ ∀ i x, default (zeros (max_sp + 1))
                         (sp2seg_dict max_sp l !! z) !! i = Some x →
                       x = 0%N ∨ ∃ sp, (z, sp, x) ∈ l).
    { destruct (sp2seg_dict max_sp l !! z) as [arr|]; simpl.
      - by apply IH.
      - split; [apply length_zeros|]. intros i x ?%lookup_zeros. by left. }
    destruct Hdef as [Hlen Hent]. split; [done|].
    intros i x Hx. apply list_lookup_insert_Some in Hx
      as [(_ & <- & _)|(_ & Hx)].
    + right. exists sp. apply elem_of_app. right. by left.
    + destruct (Hent i x Hx) as [?|[sp' ?]]; [by left|right].
      exists sp'. apply elem_of_app. by left.
  - intros Harr. destruct (IH arr Harr) as [Hlen Hent]. split; [done|].
    intros i x Hx. destruct (Hent i x Hx) as [?|[sp' ?]]; [by left|right].
    exists sp'. apply elem_of_app. by left.
Qed.

Lemma sp2seg_dict_is_Some l z sp seg :
  (z, sp, seg) ∈ l → is_Some (sp2seg_dict max_sp l !! z).
Proof.
  induction l as [|[[z' sp'] seg'] l IH] using rev_ind;
    [by intros ?%elem_of_nil|].
  rewrite sp2seg_dict_snoc. intros [Hin|Hin]%elem_of_app.
  - case_decide; [by eexists|auto].
  - apply list_elem_of_singleton in Hin as [= -> -> ->].
    rewrite decide_True by done. by eexists.
Qed.

End sp2seg_dict.

(** [table[m]] on a plane of indices in range. *)
Lemma gather_plane_Some R C table (m : plane) :
  plane_shape R C m →
  (∀ r c x, pixel m r c = Some x → N.to_nat x < length table) →
  ∃ out, gather_plane table m = Some out
    ∧ plane_shape R C out
    ∧ ∀ r c, pixel out r c = pixel m r c ≫= λ x, table !! N.to_nat x.
Proof.
  intros [Hl Hrows] Hin. unfold gather_plane.
  destruct (mapM_is_Some_2 (gather table) m) as [out Hout].
  { apply Forall_lookup. intros r row Hrow. simpl.
    destruct (gather_Some table row) as (seg & -> & _); [|by eexists].
    apply Forall_lookup. intros c x Hx. apply (Hin r c). apply pixel_Some.
    eauto. }
  exists out. split; [done|]. apply mapM_Some_1 in Hout.
  assert (Hrow : ∀ r row, m !! r = Some row →
            ∃ seg, out !! r = Some seg ∧ length seg = length row
              ∧ ∀ c x, row !! c = Some x → seg !! c = table !! N.to_nat x).
  { intros r row Hrow.
    destruct (Forall2_lookup_l _ _ _ _ _ Hout Hrow) as (seg & Hseg & Hg).
    exists seg. split; [done|].
    destruct (gather_Some table row) as (seg' & Hg' & Hlen & Hlook).
    { apply Forall_lookup. intros c x Hx. apply (Hin r c). apply pixel_Some.
      eauto. }
    rewrite Hg in Hg'. injection Hg' as <-. done. }
  split; [split|].
  - rewrite <- Hl. symmetry. by eapply Forall2_length.
  - apply Forall_lookup. intros r seg Hseg.
    destruct (Forall2_lookup_r _ _ _ _ _ Hout Hseg) as (row & Hr & _).
    destruct (Hrow r row Hr) as (seg' & Hseg' & Hlen & _).
    rewrite Hseg in Hseg'. injection Hseg' as <-.
    rewrite Forall_lookup in Hrows. rewrite Hlen. by eapply Hrows.
  - intros r c. unfold pixel.
    destruct (m !! r) as [row|] eqn:Hr; simpl.
    + destruct (Hrow r row Hr) as (seg & -> & Hlen & Hlook). simpl.
      destruct (row !! c) as [x|] eqn:Hx; simpl; [by apply Hlook|].
      apply lookup_ge_None. apply lookup_ge_None in Hx. lia.
    + rewrite (lookup_ge_None_2 out r); [done|].
      apply lookup_ge_None in Hr.
      rewrite <- (Forall2_length _ _ _ Hout). done.
Qed.

Lemma copy_corner_Some R C (a : plane) :
  plane_shape R C a → 0 < R → 1 < C →
  ∃ a', copy_corner a = Some a' ∧ plane_shape R C a'
    ∧ ∀ r c, (r, c) ≠ (0, 0) → pixel a' r c = pixel a r c.
Proof.
  intros Hshape HR HC.
  destruct (plane_shape_pixel R C a 0 1 Hshape) as [x Hx]; [lia..|].
  unfold copy_corner. rewrite Hx. simpl.
  destruct a as [|[|y row] rows]; [done..|].
  eexists. split; [done|]. split.
  - destruct Hshape as [Hl Hrows]. split; [done|].
    apply Forall_cons in Hrows as [Hrow Hrows]. by apply Forall_cons.
  - intros [|r] [|c] Hne; done.
Qed.

Lemma array_min_le l m x : array_min l = Some m → x ∈ l → (m ≤ x)%N.
Proof.
  destruct l as [|y l]; [done|]. intros [= <-].
  revert x. induction l as [|z l IH]; intros x Hx.
  - apply list_elem_of_singleton in Hx as ->. simpl. lia.
  - simpl. assert (x = z ∨ x ∈ y :: l) as [->|Hx']; [|lia|].
    { rewrite !elem_of_cons in Hx. rewrite elem_of_cons. tauto. }
    specialize (IH x Hx'). lia.
Qed.

Lemma array_min_is_Some (l : list N) : l ≠ [] → is_Some (array_min l).
Proof. destruct l; [done|]. by eexists. Qed.

(** ** The default relabelling, voxel by voxel *)


(** The ids given to the regions of two planes do not meet. *)
Lemma plane_offsets_disjoint (nd_map : volume) k k' a a' (i i' : N) :
  nd_map !! k = Some a → nd_map !! k' = Some a' →
  (1 ≤ i ≤ N.of_nat (length (nonzero_ids a)))%N →
  (1 ≤ i' ≤ N.of_nat (length (nonzero_ids a')))%N →
  (i + plane_offset nd_map k = i' + plane_offset nd_map k')%N →
  k = k'.
Proof.
  intros Ha Ha' Hi Hi' Heq.
  destruct (Nat.lt_trichotomy k k') as [Hlt|[?|Hlt]]; [|done|]; exfalso.
  - pose proof (plane_offset_mono nd_map (S k) k' Hlt) as Hmono.
    rewrite (plane_offset_S _ _ _ Ha) in Hmono. lia.
  - pose proof (plane_offset_mono nd_map (S k') k Hlt) as Hmono.
    rewrite (plane_offset_S _ _ _ Ha') in Hmono. lia.
Qed.

(** ** The segment-to-body table *)

Section segment_to_body.
Context (P R C : nat) (segment_map bodies : volume).
Context (Hsm : volume_shape P R C segment_map).
Context (Hbodies : volume_shape P R C bodies).

Let table : list (N * N) :=
  (0%N, 0%N) :: filter (λ row : N * N, row.1 ≠ 0%N)
                  (unique2 (zip (ravel3 segment_map) (ravel3 bodies))).

Lemma elem_of_segment_to_body s b :
  (s, b) ∈ table
  ↔ (s, b) = (0%N, 0%N)
    ∨ s ≠ 0%N ∧ ∃ k r c, voxel segment_map k r c = Some s
                         ∧ voxel bodies k r c = Some b.
Proof.
  unfold table, unique2.
  rewrite elem_of_cons, list_elem_of_filter, (elem_of_unique pair_le).
  by rewrite (elem_of_zip_ravel3 P R C).
Qed.

Lemma StronglySorted_segment_to_body : StronglySorted pair_le table.
Proof.
  unfold table. constructor.
  - apply (StronglySorted_filter pair_le).
    apply (StronglySorted_unique pair_le).
  - apply Forall_forall. intros [s b] _. unfold pair_le. simpl. lia.
Qed.
End segment_to_body.

Lemma volume_shape_voxel P R C (v : volume) k r c :
  volume_shape P R C v → k < P → r < R → c < C → is_Some (voxel v k r c).
Proof.
  intros [Hl Hplanes] Hk Hr Hc.
  destruct (lookup_lt_is_Some_2 v k) as [a Ha]; [lia|].
  rewrite Forall_lookup in Hplanes.
  destruct (plane_shape_pixel R C a r c (Hplanes _ _ Ha)) as [x Hx]; [done..|].
  exists x. apply voxel_Some. eauto.
Qed.

Lemma voxel_volume_shape P R C (v : volume) k r c x :
  volume_shape P R C v → voxel v k r c = Some x → k < P ∧ r < R ∧ c < C.
Proof.
  intros [Hl Hplanes] (a & Ha & Hx)%voxel_Some.
  rewrite Forall_lookup in Hplanes.
  destruct (pixel_plane_shape R C a r c x (Hplanes _ _ Ha) Hx).
  apply lookup_lt_Some in Ha. lia.
Qed.


(** ** From the builder to the reader and back *)

Section round_trip.
Context (P R C : nat) (sps bodies : volume).
Context (Hsps : volume_shape P R C sps).
Context (Hbodies : volume_shape P R C bodies).
Context (HP : 0 < P) (HR : 0 < R) (HC : 1 < C).
Context (Hone : one_body_per_superpixel sps bodies).
Context (Hbg : same_background sps bodies).



(** The two relabelled volumes of the builder. *)
Context (so sm : volume).
Context (Hso_shape : volume_shape P R C so).
Context (Hsm_shape : volume_shape P R C sm).
Context (Hso : ∀ k r c a v, sps !! k = Some a → pixel a r c = Some v →
    ((r, c) ≠ (0, 0) →
     voxel so k r c = Some (new_id (nonzero_ids a) v + 0)%N)
    ∧ ∃ x, voxel so k r c = Some x
        ∧ (x = (new_id (nonzero_ids a) v + 0)%N ∨ x = 0%N)).
Context (Hsm : ∀ k r c a v, bodies !! k = Some a → pixel a r c = Some v →
    ((r, c) ≠ (0, 0) →
     voxel sm k r c
     = Some (new_id (nonzero_ids a) v + plane_offset bodies k)%N)
    ∧ ∃ x, voxel sm k r c = Some x
        ∧ (x = (new_id (nonzero_ids a) v + plane_offset bodies k)%N
           ∨ x = 0%N)).


(** The two tables of the builder. *)
Let sp_to_segment : list (N * N * N) := fine_to_mid so sm.
Let segment_to_body : list (N * N) :=
  (0%N, 0%N) :: filter (λ row : N * N, row.1 ≠ 0%N)
                  (unique2 (zip (ravel3 sm) (ravel3 bodies))).

Lemma row_of_voxel k r c x y :
  voxel so k r c = Some x → voxel sm k r c = Some y →
  (N.of_nat k, x, masked_mid x y) ∈ sp_to_segment.
Proof.
  intros Hx Hy. apply (elem_of_fine_to_mid P R C); [done..|].
  exists k, r, c, x, y. split_and!; try done.
  unfold masked_mid. case_decide; [by right|by left].
Qed.

Lemma row_inv z f g :
  (z, f, g) ∈ sp_to_segment →
  ∃ k r c y, z = N.of_nat k ∧ voxel so k r c = Some f
    ∧ voxel sm k r c = Some y ∧ g = masked_mid f y.
Proof.
  intros Hrow. apply (elem_of_fine_to_mid P R C) in Hrow
    as (k & r & c & f' & y & Hf & Hy & _ & [= -> -> ->]); [|done..].
  by exists k, r, c, y.
Qed.

Context (max_sp max_seg : N).
Context (Hmax_sp : array_max (sp_to_segment.*1.*2) = Some max_sp).
Context (Hmax_seg : array_max (segment_to_body.*1) = Some max_seg).

Lemma so_le_max_sp k r c x : voxel so k r c = Some x → (x ≤ max_sp)%N.
Proof.
  intros Hx.
  destruct (voxel_volume_shape _ _ _ _ _ _ _ _ Hso_shape Hx) as (Hk & Hr & Hc).
  destruct (volume_shape_voxel P R C sm k r c) as [y Hy]; [done..|].
  apply (array_max_ge _ _ _ Hmax_sp).
  apply list_elem_of_fmap. exists (N.of_nat k, x). split; [done|].
  apply list_elem_of_fmap. exists (N.of_nat k, x, masked_mid x y).
  split; [done|]. by eapply row_of_voxel.
Qed.

Lemma segment_le_max_seg y b :
  (y, b) ∈ segment_to_body → (y ≤ max_seg)%N.
Proof.
  intros Hin. apply (array_max_ge _ _ _ Hmax_seg).
  apply list_elem_of_fmap. by exists (y, b).
Qed.

Lemma row_segment_le_max_seg z f g :
  (z, f, g) ∈ sp_to_segment → (g ≤ max_seg)%N.
Proof.
  intros (k & r & c & y & -> & Hf & Hy & ->)%row_inv.
  unfold masked_mid. case_decide; [lia|].
  destruct (decide (y = 0%N)) as [->|Hy0]; [lia|].
  destruct (voxel_volume_shape _ _ _ _ _ _ _ _ Hsm_shape Hy) as (Hk & Hr & Hc).
  destruct (volume_shape_voxel P R C bodies k r c) as [b Hb]; [done..|].
  apply (segment_le_max_seg y b).
  apply (elem_of_segment_to_body P R C); [done..|]. right. eauto 10.
Qed.

Lemma dict_plane k :
  k < P →
  ∃ arr, sp2seg_dict max_sp sp_to_segment !! N.of_nat k = Some arr
    ∧ length arr = N.to_nat (max_sp + 1)
    ∧ ∀ i g, arr !! i = Some g → (g ≤ max_seg)%N.
Proof.
  intros Hk.
  destruct (volume_shape_voxel P R C so k 0 0) as [x Hx]; [done..|lia|].
  destruct (volume_shape_voxel P R C sm k 0 0) as [y Hy]; [done..|lia|].
  destruct (sp2seg_dict_is_Some max_sp sp_to_segment (N.of_nat k) x
              (masked_mid x y)) as [arr Harr].
  { by eapply row_of_voxel. }
  exists arr. split; [done|].
  destruct (sp2seg_dict_inv _ _ _ _ Harr) as [Hlen Hent].
  split; [done|]. intros i g Hg.
  destruct (Hent i g Hg) as [->|[sp Hrow]]; [lia|].
  by eapply row_segment_le_max_seg.
Qed.


End round_trip.



(** ** What the relabeler keeps *)

(** X17.  Without globally unique ids every offset is 0 and the background
    stays where it is: a voxel of the result is 0 exactly where the input
    is 0. *)
Lemma serial_section_map_background_without_offsets nd_map m k r c :
  serial_section_map nd_map 0 false false = Some m →
  voxel m k r c = Some 0%N ↔ voxel nd_map k r c = Some 0%N.
Proof.
  intros Hm. unfold voxel at 2.
  destruct (nd_map !! k) as [a|] eqn:Ha; simpl.
  - rewrite (serial_section_map_voxel _ _ _ _ _ _ _ Hm Ha).
    destruct (pixel a r c) as [v|]; simpl; [|done].
    rewrite N.add_0_r. split; intros [= Hv]; f_equal.
    + by apply new_id_zero in Hv.
    + by apply new_id_zero.
  - assert (Hlen : length m = length nd_map).
    { destruct (decide (nd_map = [])) as [->|Hne]; [done|].
      rewrite serial_section_map_Some in Hm by done. simpl in Hm.
      injection Hm as <-.
      rewrite length_zip_with, length_replicate, !length_fmap. lia. }
    unfold voxel. rewrite (lookup_ge_None_2 m k); [done|].
    apply lookup_ge_None in Ha. lia.
Qed.

(** X18.  With globally unique ids the voxels of two planes that are not
    background get different ids. *)
Lemma serial_section_map_regions_apart nd_map m k k' r c r' c' v v' :
  serial_section_map nd_map 0 false true = Some m →
  k ≠ k' →
  voxel nd_map k r c = Some v → v ≠ 0%N →
  voxel nd_map k' r' c' = Some v' → v' ≠ 0%N →
  voxel m k r c ≠ voxel m k' r' c'.
Proof.
  intros Hm Hne (a & Ha & Hv)%voxel_Some Hv0 (a' & Ha' & Hv')%voxel_Some Hv0'.
  rewrite (serial_section_map_voxel _ _ _ _ _ _ _ Hm Ha), Hv.
  rewrite (serial_section_map_voxel _ _ _ _ _ _ _ Hm Ha'), Hv'. simpl.
  intros [= Heq]. apply Hne.
  apply (plane_offsets_disjoint nd_map k k' a a'
           (new_id (nonzero_ids a) v) (new_id (nonzero_ids a') v'));
    [done|done| | |done].
  - split; [by apply new_id_pos|].
    apply new_id_le. by eapply pixel_nonzero_ids.
  - split; [by apply new_id_pos|].
    apply new_id_le. by eapply pixel_nonzero_ids.
Qed.

(** *** Compacting twice *)

Lemma NoDup_first_seen l : NoDup (first_seen l).
Proof.
  induction l as [|x l IH]; simpl; [constructor|].
  apply NoDup_cons. split.
  - by intros [? _]%list_elem_of_filter.
  - by apply NoDup_filter.
Qed.

Lemma index_of_lookup l i x : NoDup l → l !! i = Some x → index_of x l = i.
Proof.
  intros Hnd. revert i. induction Hnd as [|y l Hy Hnd IH]; intros i; [done|].
  destruct i as [|i]; simpl.
  - intros [= ->]. by rewrite decide_True.
  - intros Hx. rewrite decide_False; [by rewrite (IH i)|].
    intros ->. apply Hy. by eapply list_elem_of_lookup_2.
Qed.

Lemma filter_fmap_on (P Q : N → Prop) `{∀ x, Decision (P x)}
    `{∀ x, Decision (Q x)} (f : N → N) (l : list N) :
  (∀ y, y ∈ l → P (f y) ↔ Q y) →
  filter P (f <$> l) = f <$> filter Q l.
Proof.
  induction l as [|y l IH]; intros Hiff; [done|].
  rewrite fmap_cons, !filter_cons.
  pose proof (Hiff y (list_elem_of_here _ _)) as Hy.
  rewrite IH by (intros z Hz; apply Hiff; by right).
  destruct (decide (P (f y))), (decide (Q y)); try done; tauto.
Qed.

Lemma first_seen_fmap (f : N → N) l :
  (∀ x y, x ∈ l → y ∈ l → f x = f y → x = y) →
  first_seen (f <$> l) = f <$> first_seen l.
Proof.
  induction l as [|x l IH]; intros Hinj; [done|].
  rewrite fmap_cons. cbn [first_seen]. rewrite fmap_cons. f_equal.
  rewrite IH by (intros y z Hy Hz; apply Hinj; by right).
  apply filter_fmap_on. intros y Hy. rewrite elem_of_first_seen in Hy. split.
  - intros Hne Heq. apply Hne. by rewrite Heq.
  - intros Hne Heq. apply Hne. apply Hinj; [by right|by left|done].
Qed.

Lemma new_id_fmap_self ids :
  NoDup ids → 0%N ∉ ids →
  new_id ids <$> ids = (λ i, N.of_nat (S i)) <$> seq 0 (length ids).
Proof.
  intros Hnd H0. apply list_eq. intros i. rewrite !list_lookup_fmap.
  destruct (ids !! i) as [x|] eqn:Hx; simpl.
  - rewrite lookup_seq_lt by by eapply lookup_lt_Some. simpl.
    unfold new_id. rewrite decide_False.
    + by rewrite (index_of_lookup ids i x).
    + intros ->. apply H0. by eapply list_elem_of_lookup_2.
  - rewrite lookup_seq_ge; [done|]. by apply lookup_ge_None.
Qed.

Lemma new_id_range n (w : N) :
  (w ≤ N.of_nat n)%N →
  new_id ((λ i, N.of_nat (S i)) <$> seq 0 n) w = w.
Proof.
  intros Hw. unfold new_id. case_decide as H0; [done|].
  rewrite (index_of_lookup _ (N.to_nat w - 1) w).
  - lia.
  - apply NoDup_fmap_2; [|apply NoDup_seq]. intros i j ?. lia.
  - rewrite list_lookup_fmap, lookup_seq_lt by lia. simpl. f_equal. lia.
Qed.

Lemma map_map_id_on (g : N → N) (b : plane) :
  (∀ w, w ∈ ravel b → g w = w) → map (map g) b = b.
Proof.
  unfold ravel. induction b as [|row b IH]; intros Hg; [done|]. simpl.
  f_equal.
  - clear IH. induction row as [|w row IH]; [done|]. simpl. f_equal.
    + apply Hg. simpl. by left.
    + apply IH. intros w' Hw'. apply Hg. simpl. by right.
  - apply IH. intros w Hw. apply Hg. simpl. apply elem_of_app. by right.
Qed.

(** The ids of a compacted plane are 1, ..., n in this order, so
    compacting it again changes nothing. *)
Lemma nonzero_ids_compacted (a : plane) :
  nonzero_ids (map (map (new_id (nonzero_ids a))) a)
  = (λ i, N.of_nat (S i)) <$> seq 0 (length (nonzero_ids a)).
Proof.
  unfold nonzero_ids at 1. unfold ravel. rewrite join_fmap.
  change (map ?f ?l) with (f <$> l).
  rewrite (filter_fmap_on _ (λ v, v ≠ 0%N)).
  2:{ intros v _. by rewrite new_id_zero. }
  rewrite first_seen_fmap.
  - apply new_id_fmap_self; [apply NoDup_first_seen|].
    by intros [? _]%elem_of_nonzero_ids.
  - intros x y Hx Hy. apply new_id_inj; right.
    + apply elem_of_first_seen. exact Hx.
    + apply elem_of_first_seen. exact Hy.
Qed.

Lemma compact_twice (a : plane) :
  let b := map (map (new_id (nonzero_ids a))) a in
  map (map (new_id (nonzero_ids b))) b = b.
Proof.
  intros b. apply map_map_id_on. intros w Hw.
  unfold b at 1. rewrite nonzero_ids_compacted. apply new_id_range.
  unfold b in Hw. apply elem_of_ravel in Hw as (r & c & Hw).
  rewrite pixel_map in Hw.
  destruct (pixel a r c) as [v|] eqn:Hv; [|done]. injection Hw as <-.
  apply new_id_le. by eapply pixel_nonzero_ids.
Qed.

Lemma serial_section_map_without_offsets nd_map :
  nd_map ≠ [] →
  serial_section_map nd_map 0 false false
  = Some (map (λ a, map (map (new_id (nonzero_ids a))) a) nd_map).
Proof.
  intros Hne. rewrite serial_section_map_Some by done. simpl. f_equal.
  apply list_eq. intros k. rewrite lookup_zip_with.
  rewrite labelled_ids, !list_lookup_fmap.
  destruct (nd_map !! k) as [a|] eqn:Ha; simpl; [|done].
  rewrite lookup_replicate_2.
  2:{ unfold plane_ids. rewrite length_map. by eapply lookup_lt_Some. }
  simpl. f_equal. rewrite remove_small_zero.
  apply map_map_id_on. intros w _. lia.
Qed.

(** X19.  Without globally unique ids (and with the default [min_size],
    without the component pass) relabelling a relabelled volume changes
    nothing. *)
Lemma serial_section_map_twice_without_offsets nd_map m :
  serial_section_map nd_map 0 false false = Some m →
  serial_section_map m 0 false false = Some m.
Proof.
  intros Hm. destruct (decide (nd_map = [])) as [->|Hne]; [done|].
  rewrite serial_section_map_without_offsets in Hm by done.
  injection Hm as <-. rewrite serial_section_map_without_offsets.
  2:{ by destruct nd_map. }
  f_equal. change (map ?f ?l) with (f <$> l) at 1.
  rewrite <- list_fmap_compose. apply list_fmap_ext.
  intros k a _. simpl. apply compact_twice.
Qed.


(** * Further properties *)

(** ** Superpixel-to-body maps *)

Lemma elem_of_compute_sp_to_body_map (sps bodies : list N) s b :
  (s, b) ∈ compute_sp_to_body_map sps bodies
  ↔ ∃ i, sps !! i = Some s ∧ bodies !! i = Some b.
Proof.
  unfold compute_sp_to_body_map, unique2. rewrite (elem_of_unique pair_le).
  rewrite elem_of_lookup_zip_with. split.
  - intros (i & x & y & [= -> ->] & ? & ?). eauto.
  - intros (i & ? & ?). exists i, s, b. eauto.
Qed.

Lemma compute_sp_to_body_map_max (sps bodies : list N) m :
  length sps = length bodies →
  array_max (compute_sp_to_body_map sps bodies).*1 = Some m →
  Forall (λ v, (v ≤ m)%N) sps.
Proof.
  intros Hlen Hm. apply Forall_lookup. intros i s Hs.
  destruct (lookup_lt_is_Some_2 bodies i) as [b Hb].
  { rewrite <- Hlen. by eapply lookup_lt_Some. }
  apply (array_max_ge _ _ _ Hm). apply list_elem_of_fmap. exists (s, b).
  split; [done|]. apply elem_of_compute_sp_to_body_map. eauto.
Qed.

Lemma compute_sp_to_body_map_is_Some_max (sps bodies : list N) :
  length sps = length bodies → sps ≠ [] →
  is_Some (array_max (compute_sp_to_body_map sps bodies).*1).
Proof.
  intros Hlen Hne. apply array_max_is_Some. intros Hnil.
  destruct sps as [|s sps']; [done|].
  destruct bodies as [|b bodies']; [done|].
  assert (Hin : (s, b) ∈ compute_sp_to_body_map (s :: sps') (b :: bodies')).
  { apply elem_of_compute_sp_to_body_map. by exists 0. }
  apply (list_elem_of_fmap_2 fst) in Hin. rewrite Hnil in Hin.
  by apply elem_of_nil in Hin.
Qed.

(** The decoding of superpixels with the map computed from them never
    raises: the forward map is long enough for every superpixel. *)
Lemma apply_computed_map_Some (sps bodies : list N) :
  length sps = length bodies → sps ≠ [] →
  ∃ m seg,
    array_max (compute_sp_to_body_map sps bodies).*1 = Some m
    ∧ apply_segmentation_map sps (compute_sp_to_body_map sps bodies)
      = Some seg
    ∧ length seg = length sps
    ∧ ∀ i s, sps !! i = Some s →
        (N.to_nat s < N.to_nat (m + 1))
        ∧ seg !! i
          = scatter (zeros (m + 1)) (compute_sp_to_body_map sps bodies)
            !! N.to_nat s.
Proof.
  intros Hlen Hne.
  destruct (compute_sp_to_body_map_is_Some_max sps bodies Hlen Hne)
    as [m Hm].
  pose proof (compute_sp_to_body_map_max sps bodies m Hlen Hm) as Hall.
  destruct (gather_Some
              (scatter (zeros (m + 1)) (compute_sp_to_body_map sps bodies))
              sps) as (seg & Hseg & Hl & Hlook).
  { eapply Forall_impl; [done|]. intros v Hv. simpl in Hv.
    rewrite length_scatter, length_zeros. lia. }
  exists m, seg. split; [done|]. split.
  { unfold apply_segmentation_map. rewrite Hm. exact Hseg. }
  split; [done|]. intros i s Hs. split; [|by apply Hlook].
  rewrite Forall_forall in Hall.
  specialize (Hall s (list_elem_of_lookup_2 _ _ _ Hs)). lia.
Qed.

(** X1.  Decoding the superpixels with the map computed from them and a
    segmentation gives the segmentation back, when every superpixel lies in
    one body. *)
Theorem apply_computed_sp_to_body_map sps bodies :
  length sps = length bodies → sps ≠ [] →
  (∀ i j s b b', sps !! i = Some s → sps !! j = Some s →
                 bodies !! i = Some b → bodies !! j = Some b' → b = b') →
  apply_segmentation_map sps (compute_sp_to_body_map sps bodies)
  = Some bodies.
Proof.
  intros Hlen Hne Hone.
  destruct (apply_computed_map_Some sps bodies Hlen Hne)
    as (m & seg & Hm & Hseg & Hl & Hlook).
  rewrite Hseg. f_equal. apply list_eq_same_length with (length sps);
    [lia|lia|].
  intros i x y Hi Hx Hy.
  destruct (lookup_lt_is_Some_2 sps i Hi) as [s Hs].
  destruct (Hlook i s Hs) as [Hlt Hsi].
  assert (Hx' : seg !! i = Some y); [|congruence].
  rewrite Hsi. apply scatter_lookup_single.
  - apply elem_of_compute_sp_to_body_map. eauto.
  - intros t' (j & Hj & Hbj)%elem_of_compute_sp_to_body_map.
    by apply (Hone j i s t' y).
  - by rewrite length_zeros.
Qed.

Lemma apply_computed_sp_to_body_map_witness :
  apply_segmentation_map [3; 3; 0; 7]%N
    (compute_sp_to_body_map [3; 3; 0; 7]%N [1; 1; 0; 1]%N)
  = Some [1; 1; 0; 1]%N.
Proof.
  apply apply_computed_sp_to_body_map.
  - reflexivity.
  - discriminate.
  - intros i j s b b' Hi Hj Hb Hb'.
    assert (Hall : Forall (λ p : N * N,
                     Forall (λ q : N * N, p.1 = q.1 → p.2 = q.2)
                            (zip [3; 3; 0; 7]%N [1; 1; 0; 1]%N))
                     (zip [3; 3; 0; 7]%N [1; 1; 0; 1]%N)).
    { apply (bool_decide_unpack _). vm_compute. exact I. }
    rewrite Forall_forall in Hall.
    assert (Hin : (s, b) ∈ zip [3; 3; 0; 7]%N [1; 1; 0; 1]%N).
    { apply elem_of_lookup_zip_with. exists i, s, b. eauto. }
    assert (Hin' : (s, b') ∈ zip [3; 3; 0; 7]%N [1; 1; 0; 1]%N).
    { apply elem_of_lookup_zip_with. exists j, s, b'. eauto. }
    specialize (Hall _ Hin). rewrite Forall_forall in Hall.
    by apply (Hall _ Hin').
Defined.

(** X2.  Whatever the two arrays of one size hold, the decoding with the
    computed map does not raise, and every superpixel decodes to one of the
    bodies it meets: the largest, the rows being sorted and the later row
    staying in the forward map. *)
Theorem apply_computed_map_largest_body sps bodies :
  length sps = length bodies → sps ≠ [] →
  ∃ seg,
    apply_segmentation_map sps (compute_sp_to_body_map sps bodies) = Some seg
    ∧ length seg = length sps
    ∧ ∀ i s, sps !! i = Some s →
        ∃ b j, seg !! i = Some b
          ∧ sps !! j = Some s ∧ bodies !! j = Some b
          ∧ ∀ j' b', sps !! j' = Some s → bodies !! j' = Some b' →
                     (b' ≤ b)%N.
Proof.
  intros Hlen Hne.
  destruct (apply_computed_map_Some sps bodies Hlen Hne)
    as (m & seg & Hm & Hseg & Hl & Hlook).
  exists seg. split; [done|]. split; [done|]. intros i s Hs.
  destruct (Hlook i s Hs) as [Hlt Hsi].
  (* the largest body met by [s] *)
  set (met := filter (λ p : N * N, p.1 = s)
                (compute_sp_to_body_map sps bodies)).
  destruct (lookup_lt_is_Some_2 bodies i) as [bi Hbi].
  { rewrite <- Hlen. by eapply lookup_lt_Some. }
  assert (Hin : (s, bi) ∈ met).
  { apply list_elem_of_filter. split; [done|].
    apply elem_of_compute_sp_to_body_map. eauto. }
  destruct (array_max_is_Some (met.*2)) as [b Hb].
  { intros Hnil. apply (list_elem_of_fmap_2 snd) in Hin.
    rewrite Hnil in Hin. by apply elem_of_nil in Hin. }
  pose proof (array_max_elem _ _ Hb) as Hbin.
  apply list_elem_of_fmap in Hbin as ([s' b'] & -> & Hbin).
  apply list_elem_of_filter in Hbin as [Hs' Hbin]. simpl in Hs'. subst s'.
  simpl in Hb.
  pose proof Hbin as (j & Hj & Hbj)%elem_of_compute_sp_to_body_map.
  exists b', j. split_and!; try done.
  - rewrite Hsi. apply scatter_lookup_sorted.
    + apply (StronglySorted_unique pair_le).
    + done.
    + intros v' Hv'. apply (array_max_ge _ _ _ Hb).
      apply list_elem_of_fmap. exists (s, v'). split; [done|].
      by apply list_elem_of_filter.
    + by rewrite length_zeros.
  - intros j' b'' Hj' Hbj'. apply (array_max_ge _ _ _ Hb).
    apply list_elem_of_fmap. exists (s, b''). split; [done|].
    apply list_elem_of_filter. split; [done|].
    apply elem_of_compute_sp_to_body_map. eauto.
Qed.

Lemma apply_computed_map_largest_body_witness :
  ∃ seg,
    apply_segmentation_map [3; 3; 0]%N
      (compute_sp_to_body_map [3; 3; 0]%N [1; 2; 0]%N) = Some seg
    ∧ length seg = 3.
Proof.
  destruct (apply_computed_map_largest_body [3; 3; 0]%N [1; 2; 0]%N)
    as (seg & Hseg & Hl & _).
  - reflexivity.
  - discriminate.
  - exists seg. split; [exact Hseg | exact Hl].
Defined.

(** ** The builder's tables and the reader, for all parameters *)

(** X3.  The segment-to-body table of the builder starts with (0,0), has no
    repeated row, is sorted, and its rows are (0,0) and the (segment, body)
    pairs of the voxels whose segment is not 0. *)
Theorem segs_to_raveler_segment_to_body P R C sps bodies min_size cc
    sps_out sp_to_segment segment_to_body :
  volume_shape P R C bodies →
  segs_to_raveler sps bodies min_size cc None
    = Some (sps_out, sp_to_segment, segment_to_body) →
  ∃ segment_map,
    raveler_serial_section_map bodies min_size cc true = Some segment_map
    ∧ head segment_to_body = Some (0%N, 0%N)
    ∧ NoDup segment_to_body
    ∧ StronglySorted pair_le segment_to_body
    ∧ ∀ s b, (s, b) ∈ segment_to_body
        ↔ (s, b) = (0%N, 0%N)
          ∨ s ≠ 0%N ∧ ∃ k r c, voxel segment_map k r c = Some s
                               ∧ voxel bodies k r c = Some b.
Proof.
  intros Hbodies Hres.
  apply segs_to_raveler_Some in Hres as (so & sm & Hso & Hsm & [= -> -> ->]).
  exists sm. split; [done|].
  pose proof (volume_shape_raveler_serial_section_map _ _ _ _ _ _ _ _
                Hbodies Hsm) as Hsm'.
  split; [done|]. split; [|split].
  - apply NoDup_cons. split.
    + by intros [Hne _]%list_elem_of_filter.
    + apply NoDup_filter. apply (NoDup_unique pair_le).
  - apply StronglySorted_segment_to_body.
  - intros s b. by apply (elem_of_segment_to_body P R C).
Qed.

Lemma segs_to_raveler_segment_to_body_witness :
  ∃ segment_map,
    raveler_serial_section_map [[[5; 5; 0]]; [[0; 9; 9]]]%N 0 false true
      = Some segment_map
    ∧ head [(0, 0); (1, 0); (1, 5); (2, 9)]%N = Some (0%N, 0%N).
Proof.
  destruct (segs_to_raveler_segment_to_body 2 1 3
              [[[4; 4; 0]]; [[0; 7; 7]]]%N [[[5; 5; 0]]; [[0; 9; 9]]]%N
              0 false
              [[[1; 1; 0]]; [[0; 1; 1]]]%N
              [(0, 0, 0); (0, 1, 1); (1, 0, 0); (1, 1, 2)]%N
              [(0, 0); (1, 0); (1, 5); (2, 9)]%N)
    as (segment_map & Hsm & Hhead & _).
  - apply (bool_decide_unpack _). vm_compute. exact I.
  - vm_compute. reflexivity.
  - exists segment_map. split; [exact Hsm | exact Hhead].
Defined.

(** An entry of the forward map is an entry of the array it was made from
    or the target of a row with that key. *)
Lemma scatter_lookup_inv fm l i x :
  scatter fm l !! i = Some x →
  fm !! i = Some x ∨ ∃ k, N.to_nat k = i ∧ (k, x) ∈ l.
Proof.
  revert fm. induction l as [|[k t] l IH]; intros fm Hx; [by left|].
  unfold scatter in Hx. simpl in Hx. fold (scatter (<[N.to_nat k:=t]> fm) l) in Hx.
  destruct (IH _ Hx) as [Hfm|(k' & Hk' & Hin)].
  - apply list_lookup_insert_Some in Hfm as [(Hi & <- & _)|(_ & Hfm)].
    + right. exists k. split; [done|]. by left.
    + by left.
  - right. exists k'. split; [done|]. by right.
Qed.

(** An entry of a plane's array is 0 or the segment of a row of that plane
    and that superpixel. *)
Lemma sp2seg_dict_entry max_sp l z arr i x :
  sp2seg_dict max_sp l !! z = Some arr → arr !! i = Some x →
  x = 0%N ∨ ∃ sp, N.to_nat sp = i ∧ (z, sp, x) ∈ l.
Proof.
  revert arr. induction l as [|[[z' sp] seg] l IH] using rev_ind; intros arr.
  { unfold sp2seg_dict. simpl. by rewrite lookup_empty. }
  rewrite sp2seg_dict_snoc. case_decide as Hz.
  - subst z'. intros [= <-] Hx.
    apply list_lookup_insert_Some in Hx as [(Hi & <- & _)|(_ & Hx)].
    + right. exists sp. split; [done|]. apply elem_of_app. right. by left.
    + destruct (sp2seg_dict max_sp l !! z) as [arr|] eqn:Harr; simpl in Hx.
      * destruct (IH arr eq_refl Hx) as [?|(sp' & ? & ?)]; [by left|right].
        exists sp'. split; [done|]. apply elem_of_app. by left.
      * apply lookup_zeros in Hx. by left.
  - intros Harr Hx.
    destruct (IH arr Harr Hx) as [?|(sp' & ? & ?)]; [by left|right].
    exists sp'. split; [done|]. apply elem_of_app. by left.
Qed.

(** The repair of the corners leaves a corner as it is or gives it the
    value of its right-hand neighbour. *)
Lemma repair_corners_value P R C (iv : volume) :
  volume_shape P R C iv → 0 < R → 1 < C →
  ∃ out,
    (corners ← mapM (λ a, pixel a 0 0) iv;
     if bool_decide (Forall (λ x, x = 0%N) corners) &&
        bool_decide (length (filter (λ x, x = 0%N) (ravel3 iv)) = length iv)
     then mapM copy_corner iv
     else Some iv) = Some out
    ∧ volume_shape P R C out
    ∧ (∀ k r c, (r, c) ≠ (0, 0) → voxel out k r c = voxel iv k r c)
    ∧ ∀ k, voxel out k 0 0 = voxel iv k 0 0
           ∨ voxel out k 0 0 = voxel iv k 0 1.
Proof.
  intros Hshape HR HC. pose proof Hshape as [Hl Hplanes].
  destruct (mapM_is_Some_2 (λ a : list (list N), pixel a 0 0) iv)
    as [corners ->].
  { eapply Forall_impl; [done|]. intros a Ha. simpl.
    apply (plane_shape_pixel R C); [done|lia..]. }
  simpl. destruct (_ && _).
  2:{ exists iv. split_and!; auto. }
  destruct (mapM_is_Some_2 copy_corner iv) as [out Hout].
  { eapply Forall_impl; [done|]. intros a Ha. simpl.
    destruct (copy_corner_Some R C a) as (a' & -> & _); [done..|].
    by eexists. }
  exists out. split; [done|]. pose proof Hout as Hout'.
  apply mapM_Some_1 in Hout.
  assert (Hplane : ∀ k a', out !! k = Some a' →
            ∃ a, iv !! k = Some a ∧ plane_shape R C a'
              ∧ (∀ r c, (r, c) ≠ (0, 0) → pixel a' r c = pixel a r c)
              ∧ pixel a' 0 0 = pixel a 0 1).
  { intros k a' Ha'.
    destruct (Forall2_lookup_r _ _ _ _ _ Hout Ha') as (a & Ha & Hcopy).
    exists a. split; [done|].
    rewrite Forall_lookup in Hplanes.
    destruct (copy_corner_Some R C a (Hplanes _ _ Ha)) as (a'' & Hc & Hs & Hp);
      [done..|].
    rewrite Hcopy in Hc. injection Hc as <-. split; [done|]. split; [done|].
    unfold copy_corner in Hcopy.
    destruct (pixel a 0 1) as [x|]; [|done]. simpl in Hcopy.
    destruct a as [|[|y row] rows]; [done..|]. by injection Hcopy as <-. }
  assert (Hnone : ∀ k, out !! k = None → iv !! k = None).
  { intros k Hk. apply lookup_ge_None. apply lookup_ge_None in Hk.
    rewrite (Forall2_length _ _ _ Hout). done. }
  split; [split|split].
  - rewrite <- Hl. symmetry. by eapply Forall2_length.
  - apply Forall_lookup. intros k a' Ha'.
    by destruct (Hplane k a' Ha') as (a & _ & Hs & _).
  - intros k r c Hne. unfold voxel.
    destruct (out !! k) as [a'|] eqn:Ha'; simpl.
    + destruct (Hplane k a' Ha') as (a & -> & _ & Hp & _). simpl. by apply Hp.
    + by rewrite (Hnone k Ha').
  - intros k. right. unfold voxel.
    destruct (out !! k) as [a'|] eqn:Ha'; simpl.
    + by destruct (Hplane k a' Ha') as (a & -> & _ & _ & Hp).
    + by rewrite (Hnone k Ha').
Qed.

Section reader_any.
Context (P R C : nat) (bodies so sm : volume).
Context (Hbodies : volume_shape P R C bodies).
Context (Hso_shape : volume_shape P R C so).
Context (Hsm_shape : volume_shape P R C sm).
Context (HP : 0 < P) (HR : 0 < R) (HC : 1 < C).

Let rows3 : list (N * N * N) := fine_to_mid so sm.
Let rows2 : list (N * N) :=
  (0%N, 0%N) :: filter (λ row : N * N, row.1 ≠ 0%N)
                  (unique2 (zip (ravel3 sm) (ravel3 bodies))).

Context (max_sp max_seg : N).
Context (Hmax_sp : array_max (rows3.*1.*2) = Some max_sp).
Context (Hmax_seg : array_max (rows2.*1) = Some max_seg).

Lemma forward_map_body i b :
  scatter (zeros (max_seg + 1)) rows2 !! i = Some b →
  b = 0%N ∨ b ∈ ravel3 bodies.
Proof.
  intros [Hz|(key & _ & Hin)]%scatter_lookup_inv.
  - left. by eapply lookup_zeros.
  - apply (elem_of_segment_to_body P R C) in Hin
      as [[= _ ->]|(_ & k & r & c & _ & Hb)]; [by left|..|done|done].
    right. apply elem_of_ravel3. eauto.
Qed.

Lemma forward_map_background :
  scatter (zeros (max_seg + 1)) rows2 !! 0 = Some 0%N.
Proof.
  destruct (lookup_lt_is_Some_2 (scatter (zeros (max_seg + 1)) rows2) 0)
    as [v Hv].
  { rewrite length_scatter, length_zeros. lia. }
  rewrite Hv. f_equal.
  apply scatter_lookup_inv in Hv as [Hz|(key & Hkey & Hin)].
  - by eapply lookup_zeros.
  - assert (key = 0%N) as -> by lia.
    apply (elem_of_segment_to_body P R C) in Hin
      as [[= ->]|(? & _)]; done.
Qed.

Lemma reader_plane k m :
  so !! k = Some m →
  ∃ outp,
    (arr ← sp2seg_dict max_sp rows3 !! (0 + N.of_nat k)%N;
     segs ← gather_plane arr m;
     gather_plane (scatter (zeros (max_seg + 1)) rows2) segs) = Some outp
    ∧ plane_shape R C outp
    ∧ (∀ r c, pixel m r c = Some 0%N → pixel outp r c = Some 0%N)
    ∧ (∀ r c b, pixel outp r c = Some b → b = 0%N ∨ b ∈ ravel3 bodies).
Proof.
  intros Hm.
  destruct (volume_shape_lookup _ _ _ _ _ _ Hso_shape Hm) as (Hk & _ & Hms).
  destruct (dict_plane P R C bodies Hbodies HP HR HC so sm Hso_shape
              Hsm_shape max_sp max_seg Hmax_seg k Hk)
    as (arr & Harr & Hlen & Hent).
  destruct (gather_plane_Some R C arr m Hms) as (segs & Hg1 & Hss & Hsegs).
  { intros r c x Hx.
    assert (Hv : voxel so k r c = Some x) by (apply voxel_Some; eauto).
    pose proof (so_le_max_sp P R C so sm Hso_shape Hsm_shape max_sp
                  Hmax_sp _ _ _ _ Hv). lia. }
  destruct (gather_plane_Some R C (scatter (zeros (max_seg + 1)) rows2)
              segs Hss) as (outp & Hg2 & Hos & Houtp).
  { intros r c g Hg. rewrite Hsegs in Hg.
    destruct (pixel m r c) as [x|]; [|done]. simpl in Hg.
    rewrite length_scatter, length_zeros.
    pose proof (Hent _ _ Hg). lia. }
  exists outp. split.
  { apply bind_Some. exists arr. split; [by rewrite N.add_0_l|].
    apply bind_Some. by exists segs. }
  split; [done|]. split.
  - intros r c H0. rewrite Houtp, Hsegs, H0. simpl.
    destruct (lookup_lt_is_Some_2 arr 0) as [g Hg]; [lia|].
    change (N.to_nat 0) with 0. rewrite Hg. simpl.
    assert (g = 0%N) as ->; [|exact forward_map_background].
    destruct (sp2seg_dict_entry _ _ _ _ _ _ Harr Hg)
      as [?|(sp & Hsp & Hrow)]; [done|].
    assert (sp = 0%N) as -> by lia.
    apply (row_inv P R C so sm Hso_shape Hsm_shape) in Hrow
      as (k' & r' & c' & y & _ & _ & _ & ->).
    done.
  - intros r c b Hb. rewrite Houtp in Hb.
    destruct (pixel segs r c) as [g|]; [|done]. simpl in Hb.
    by eapply forward_map_body.
Qed.

Lemma reader_volume :
  ∃ iv,
    mapM (λ im : nat * list (list N),
            arr ← sp2seg_dict max_sp rows3 !! (0 + N.of_nat im.1)%N;
            segs ← gather_plane arr im.2;
            gather_plane (scatter (zeros (max_seg + 1)) rows2) segs)
         (imap (λ i m, (i, m)) so) = Some iv
    ∧ volume_shape P R C iv
    ∧ (∀ k r c, voxel so k r c = Some 0%N → voxel iv k r c = Some 0%N)
    ∧ (∀ k r c b, voxel iv k r c = Some b → b = 0%N ∨ b ∈ ravel3 bodies).
Proof.
  set (f := λ im : nat * list (list N), _).
  destruct (mapM_is_Some_2 f (imap (λ i m, (i, m)) so)) as [iv Hiv].
  { apply Forall_lookup. intros k [k' m]. rewrite list_lookup_imap.
    destruct (so !! k) as [m'|] eqn:Hm; [|done]. intros [= <- <-].
    destruct (reader_plane k m' Hm) as (outp & Hout & _). by exists outp. }
  exists iv. split; [done|]. apply mapM_Some_1 in Hiv.
  assert (Hplane : ∀ k outp, iv !! k = Some outp →
            ∃ m, so !! k = Some m ∧ plane_shape R C outp
              ∧ (∀ r c, pixel m r c = Some 0%N → pixel outp r c = Some 0%N)
              ∧ (∀ r c b, pixel outp r c = Some b →
                          b = 0%N ∨ b ∈ ravel3 bodies)).
  { intros k outp Hk.
    destruct (Forall2_lookup_r _ _ _ _ _ Hiv Hk) as ([k' m] & Hkm & Hf).
    rewrite list_lookup_imap in Hkm.
    destruct (so !! k) as [m'|] eqn:Hm; [|done].
    injection Hkm as <- <-. exists m'. split; [done|].
    destruct (reader_plane k m' Hm) as (outp' & Hout & Hrest).
    assert (Some outp = Some outp') as [= <-].
    { rewrite <- Hf. exact Hout. }
    done. }
  assert (Hlen : length iv = P).
  { rewrite <- (Forall2_length _ _ _ Hiv), length_imap.
    by destruct Hso_shape. }
  split; [split; [done|]|split].
  - apply Forall_lookup. intros k outp Hk.
    by destruct (Hplane k outp Hk) as (m & _ & ? & _).
  - intros k r c (m & Hm & H0)%voxel_Some.
    destruct (lookup_lt_is_Some_2 iv k) as [outp Houtp].
    { rewrite Hlen.
      by destruct (volume_shape_lookup _ _ _ _ _ _ Hso_shape Hm). }
    destruct (Hplane k outp Houtp) as (m' & Hm' & _ & Hbg & _).
    assert (m' = m) as -> by congruence.
    apply voxel_Some. exists outp. split; [done|]. by apply Hbg.
  - intros k r c b (outp & Houtp & Hb)%voxel_Some.
    destruct (Hplane k outp Houtp) as (m & _ & _ & _ & Hids). by eapply Hids.
Qed.
End reader_any.

(** The reader on what the builder returns, for volumes of one shape with
    at least two columns and for all parameters of the builder. *)
Lemma reader_on_builder P R C sps bodies min_size cc :
  volume_shape P R C sps → volume_shape P R C bodies →
  0 < P → 0 < R → 1 < C →
  ∃ sps_out sp_to_segment segment_to_body out,
    segs_to_raveler sps bodies min_size cc None
      = Some (sps_out, sp_to_segment, segment_to_body)
    ∧ raveler_to_labeled_volume sps_out sp_to_segment segment_to_body
      = Some out
    ∧ volume_shape P R C sps_out
    ∧ volume_shape P R C out
    ∧ (∀ k r c, (r, c) ≠ (0, 0) → voxel sps_out k r c = Some 0%N →
                voxel out k r c = Some 0%N)
    ∧ (∀ k r c b, voxel out k r c = Some b → b = 0%N ∨ b ∈ ravel3 bodies).
Proof.
  intros Hsps Hbodies HP HR HC.
  destruct (raveler_serial_section_map_voxel P R C sps min_size cc false)
    as (_ & so & _ & Hso & Hso_shape & _); [done|done|done|lia|].
  destruct (raveler_serial_section_map_voxel P R C bodies min_size cc true)
    as (_ & sm & _ & Hsm & Hsm_shape & _); [done|done|done|lia|].
  set (T3 := fine_to_mid so sm).
  set (T2 := (0%N, 0%N) :: filter (λ row : N * N, row.1 ≠ 0%N)
                             (unique2 (zip (ravel3 sm) (ravel3 bodies)))).
  assert (Hseg : segs_to_raveler sps bodies min_size cc None
                 = Some (so, T3, T2)).
  { unfold segs_to_raveler. rewrite Hso, Hsm. cbn.
    rewrite (sp_to_segment_fine_to_mid P R C); [done..|]. by destruct Hbodies. }
  destruct (volume_shape_voxel P R C so 0 0 0) as [x Hx]; [done..|lia|].
  destruct (volume_shape_voxel P R C sm 0 0 0) as [y Hy]; [done..|lia|].
  assert (Hrow : (0%N, x, masked_mid x y) ∈ T3).
  { by apply (row_of_voxel P R C so sm Hso_shape Hsm_shape 0 0 0). }
  destruct (array_max_is_Some (T3.*1.*2)) as [max_sp Hmax_sp].
  { intros Hnil. apply (f_equal length) in Hnil.
    rewrite !length_fmap in Hnil. destruct T3; [by apply elem_of_nil in Hrow|].
    done. }
  assert (Hmin : array_min (T3.*1.*1) = Some 0%N).
  { destruct (array_min_is_Some (T3.*1.*1)) as [m Hm].
    { intros Hnil. apply (f_equal length) in Hnil.
      rewrite !length_fmap in Hnil.
      destruct T3; [by apply elem_of_nil in Hrow|]. done. }
    rewrite Hm. f_equal.
    assert (Hle : (m ≤ 0)%N); [|lia].
    apply (array_min_le _ _ _ Hm).
    apply list_elem_of_fmap. exists (0%N, x). split; [done|].
    apply list_elem_of_fmap. by exists (0%N, x, masked_mid x y). }
  destruct (array_max_is_Some (T2.*1)) as [max_seg Hmax_seg]; [done|].
  destruct (reader_volume P R C bodies so sm Hbodies Hso_shape Hsm_shape
              HP HR HC max_sp max_seg Hmax_sp Hmax_seg)
    as (iv & Hiv & Hiv_shape & Hiv_bg & Hiv_ids).
  destruct (repair_corners_value P R C iv Hiv_shape HR HC)
    as (out & Hout & Hout_shape & Hout_vox & Hout_corner).
  exists so, T3, T2, out. split_and!; try done.
  - unfold raveler_to_labeled_volume.
    apply bind_Some. exists max_sp. split; [done|].
    apply bind_Some. exists 0%N. split; [done|].
    apply bind_Some. exists max_seg. split; [done|].
    apply bind_Some. exists iv. split; [exact Hiv|]. exact Hout.
  - intros k r c Hne H0. rewrite Hout_vox by done. by apply Hiv_bg.
  - intros k r c b Hb.
    destruct (decide ((r, c) = (0, 0))) as [[= -> ->]|Hne].
    + destruct (Hout_corner k) as [Heq|Heq]; rewrite Heq in Hb;
        by eapply Hiv_ids.
    + rewrite Hout_vox in Hb by done. by eapply Hiv_ids.
Qed.






(** ** Writing a stack of PNG images *)

Lemma map3_id_on (g : N → N) (v : volume) :
  (∀ w, w ∈ ravel3 v → g w = w) → map (map (map g)) v = v.
Proof.
  unfold ravel3. induction v as [|a v IH]; intros Hg; [done|]. simpl.
  f_equal.
  - apply map_map_id_on. intros w Hw. apply Hg. simpl.
    rewrite join_app. apply elem_of_app. by left.
  - apply IH. intros w Hw. apply Hg. simpl.
    rewrite join_app. apply elem_of_app. by right.
Qed.

Lemma png_mode_of_None vmax :
  png_mode_of vmax None
  = if decide (1 < vmax < 256)%N then mode_L
    else if decide (256 ≤ vmax < 2 ^ 16)%N then mode_I16
    else mode_RGBA.
Proof.
  unfold png_mode_of.
  rewrite !(bool_decide_false (None = Some _)) by done. rewrite !orb_false_r.
  destruct (decide (1 < vmax < 256)%N) as [H1|H1].
  { by rewrite bool_decide_true by (split_and!; [lia..|done]). }
  rewrite bool_decide_false by (intros (? & ? & _); lia).
  destruct (decide (256 ≤ vmax < 2 ^ 16)%N) as [H2|H2].
  { by rewrite bool_decide_true by (split_and!; [lia..|done]). }
  by rewrite bool_decide_false by (intros (? & ? & _); lia).
Qed.

Lemma png_width_mode_of vmax :
  (vmax < 2 ^ 32)%N → (vmax < 2 ^ png_width (png_mode_of vmax None))%N.
Proof.
  intros Hlt. rewrite png_mode_of_None. repeat case_decide; simpl; lia.
Qed.

(** X7.  Without a requested depth the depth is chosen from the largest
    value: 8 bits for 2..255, 16 bits for 256..65535 and RGBA otherwise,
    also for a volume whose largest value is 0 or 1.  Whenever the largest
    value is below 2^32 the images are the planes of the volume (with axis 0
    swapped with the requested axis), unchanged. *)
Theorem write_png_image_stack_auto_depth npy_vol axis ax vmax :
  normalize_axis axis = Some ax →
  array_max (ravel3 (swapaxes0 npy_vol ax)) = Some vmax →
  (vmax < 2 ^ 32)%N →
  ∃ mode,
    write_png_image_stack npy_vol axis None
    = Some (mode, imap (λ z pl, (z, pl)) (swapaxes0 npy_vol ax))
    ∧ (mode = mode_L ↔ (1 < vmax < 256)%N)
    ∧ (mode = mode_I16 ↔ (256 ≤ vmax < 2 ^ 16)%N)
    ∧ (mode = mode_RGBA ↔ (vmax ≤ 1 ∨ 2 ^ 16 ≤ vmax)%N).
Proof.
  intros Hax Hmax Hlt. exists (png_mode_of vmax None). split.
  - unfold write_png_image_stack. rewrite Hax. simpl. rewrite Hmax. simpl.
    do 3 f_equal. apply map3_id_on. intros w Hw.
    apply N.mod_small.
    pose proof (array_max_ge _ _ _ Hmax Hw).
    pose proof (png_width_mode_of vmax Hlt). lia.
  - rewrite png_mode_of_None.
    repeat case_decide; split_and!; split; intros Hm; try discriminate Hm;
      try lia; done.
Qed.

Lemma write_png_image_stack_auto_depth_witness :
  ∃ mode,
    write_png_image_stack [[[1; 0]; [0; 1]]]%N 0 None
    = Some (mode, [(0, [[1; 0]; [0; 1]]%N)])
    ∧ (mode = mode_RGBA ↔ (1 ≤ 1 ∨ 2 ^ 16 ≤ 1)%N).
Proof.
  destruct (write_png_image_stack_auto_depth [[[1; 0]; [0; 1]]]%N 0 0 1)
    as (mode & Hw & _ & _ & Hrgba).
  - reflexivity.
  - reflexivity.
  - reflexivity.
  - exists mode. split; [exact Hw | exact Hrgba].
Defined.

Lemma voxel_map3 (g : N → N) (v : volume) k r c :
  voxel (map (map (map g)) v) k r c = g <$> voxel v k r c.
Proof.
  unfold voxel. change (map (map (map g)) v) with (map (map g) <$> v).
  rewrite list_lookup_fmap. destruct (v !! k) as [a|]; [|done]. simpl.
  apply pixel_map.
Qed.

Lemma map3_id_inv (g : N → N) (v : volume) w :
  map (map (map g)) v = v → w ∈ ravel3 v → g w = w.
Proof.
  intros Heq (k & r & c & Hw)%elem_of_ravel3.
  pose proof (voxel_map3 g v k r c) as Hg. rewrite Heq, Hw in Hg.
  simpl in Hg. congruence.
Qed.

Lemma imap_pair_snd {A} (l : list A) : (imap (λ z pl, (z, pl)) l).*2 = l.
Proof.
  apply list_eq. intros i. rewrite list_lookup_fmap, list_lookup_imap.
  by destruct (l !! i).
Qed.

Lemma imap_pair_fst {A} (l : list A) :
  (imap (λ z pl, (z, pl)) l).*1 = seq 0 (length l).
Proof.
  apply list_eq. intros i. rewrite list_lookup_fmap, list_lookup_imap.
  destruct (l !! i) as [x|] eqn:Hx; simpl.
  - apply lookup_lt_Some in Hx. by rewrite lookup_seq_lt.
  - apply lookup_ge_None in Hx. by rewrite lookup_seq_ge.
Qed.

Lemma png_mode_of_Some vmax b :
  png_mode_of vmax (Some b)
  = if decide (b = 8%N) then mode_L
    else if decide (b = 16%N) then mode_I16
    else mode_RGBA.
Proof.
  unfold png_mode_of.
  rewrite !(bool_decide_false (_ ∧ _ ∧ Some b = None))
    by (by intros (_ & _ & ?)).
  simpl. destruct (decide (b = 8%N)) as [->|H8].
  { by rewrite bool_decide_true. }
  rewrite (bool_decide_false (Some b = Some 8%N)) by (by intros [= ?]).
  destruct (decide (b = 16%N)) as [->|H16].
  { by rewrite bool_decide_true. }
  by rewrite (bool_decide_false (Some b = Some 16%N)) by (by intros [= ?]).
Qed.

(** X8.  A requested depth decides the format whatever the values are: 8
    gives 8-bit images, 16 gives 16-bit images and any other number gives
    RGBA.  Each value is stored modulo 2 to the width of the format, so the
    images hold the volume exactly when its largest value is below that
    power: with 16 bits, as the Raveler export asks for its superpixel maps,
    an id of 65536 or more is stored as another id. *)
Theorem write_png_image_stack_requested_depth npy_vol axis ax vmax b :
  normalize_axis axis = Some ax →
  array_max (ravel3 (swapaxes0 npy_vol ax)) = Some vmax →
  ∃ mode imgs,
    write_png_image_stack npy_vol axis (Some b) = Some (mode, imgs)
    ∧ (mode = mode_L ↔ b = 8%N)
    ∧ (mode = mode_I16 ↔ b = 16%N)
    ∧ imgs.*2
      = map (map (map (λ v, v `mod` 2 ^ png_width mode)%N))
            (swapaxes0 npy_vol ax)
    ∧ (imgs.*2 = swapaxes0 npy_vol ax ↔ (vmax < 2 ^ png_width mode)%N).
Proof.
  intros Hax Hmax.
  exists (png_mode_of vmax (Some b)),
    (imap (λ z pl, (z, pl))
       (map (map (map (λ v, v `mod` 2 ^ png_width (png_mode_of vmax (Some b)))%N))
            (swapaxes0 npy_vol ax))).
  split_and!.
  - unfold write_png_image_stack. rewrite Hax. simpl. by rewrite Hmax.
  - rewrite png_mode_of_Some. repeat case_decide; split; intros Hm;
      try discriminate Hm; try done; lia.
  - rewrite png_mode_of_Some. repeat case_decide; split; intros Hm;
      try discriminate Hm; try done; lia.
  - apply imap_pair_snd.
  - rewrite imap_pair_snd. split.
    + intros Heq.
      pose proof (map3_id_inv _ _ vmax Heq (array_max_elem _ _ Hmax)) as Hv.
      simpl in Hv.
      pose proof (N.mod_upper_bound vmax
                    (2 ^ png_width (png_mode_of vmax (Some b)))) as Hub.
      rewrite Hv in Hub. apply Hub. by apply N.pow_nonzero.
    + intros Hlt. apply map3_id_on. intros w Hw. apply N.mod_small.
      pose proof (array_max_ge _ _ _ Hmax Hw). lia.
Qed.

Lemma write_png_image_stack_requested_depth_witness :
  ∃ mode imgs,
    write_png_image_stack [[[1; 65537]]]%N 0 (Some 16%N) = Some (mode, imgs)
    ∧ (mode = mode_I16 ↔ 16%N = 16%N)
    ∧ imgs.*2
      = map (map (map (λ v, v `mod` 2 ^ png_width mode)%N)) [[[1; 65537]]]%N.
Proof.
  destruct (write_png_image_stack_requested_depth
              [[[1; 65537]]]%N 0 0 65537 16)
    as (mode & imgs & Hw & _ & H16 & Himgs & _).
  - reflexivity.
  - reflexivity.
  - exists mode, imgs. split_and!; [exact Hw | exact H16 | exact Himgs].
Defined.

(** *** The axis along which the images are cut *)

Lemma dims_shape P R C (v : volume) :
  volume_shape P R C v → 0 < P → 0 < R → dims v = (P, R, C).
Proof.
  intros [Hl Hplanes] HP HR. unfold dims.
  destruct v as [|a v]; [simpl in Hl; lia|].
  apply Forall_cons in Hplanes as [[Ha Hrows] _]. simpl.
  destruct a as [|row a]; [simpl in Ha; lia|].
  apply Forall_cons in Hrows as [Hrow _]. simpl in *. by subst.
Qed.

Lemma volume_shape_map3 P R C (g : N → N) (v : volume) :
  volume_shape P R C v → volume_shape P R C (map (map (map g)) v).
Proof.
  intros [Hl Hplanes]. split; [by rewrite length_map|].
  apply Forall_fmap. eapply Forall_impl; [done|].
  intros a Ha. by apply plane_shape_map.
Qed.

Lemma lookup_fmap_seq {A} (f : nat → A) n i :
  i < n → (f <$> seq 0 n) !! i = Some (f i).
Proof. intros Hi. by rewrite list_lookup_fmap, lookup_seq_lt. Qed.

Lemma Forall_fmap_seq {A} (Q : A → Prop) (f : nat → A) n :
  (∀ i, i < n → Q (f i)) → Forall Q (f <$> seq 0 n).
Proof.
  intros Hf. apply Forall_fmap, Forall_seq. intros i Hi. apply Hf. lia.
Qed.

Lemma volume_shape_swapaxes0 P R C (v : volume) ax :
  volume_shape P R C v → 0 < P → 0 < R →
  volume_shape (match ax with 0 => P | 1 => R | _ => C end)
               (match ax with 1 => P | _ => R end)
               (match ax with 0 | 1 => C | _ => P end)
               (swapaxes0 v ax).
Proof.
  intros Hshape HP HR. unfold swapaxes0.
  rewrite (dims_shape P R C) by done.
  destruct ax as [|[|ax]]; [done|..].
  - split; [by rewrite length_fmap, length_seq|].
    apply Forall_fmap_seq. intros r Hr.
    split; [by rewrite length_fmap, length_seq|].
    apply Forall_fmap_seq. intros k Hk.
    destruct (lookup_lt_is_Some_2 v k) as [a Ha].
    { destruct Hshape. lia. }
    destruct (volume_shape_lookup _ _ _ _ _ _ Hshape Ha)
      as (_ & Hrows & Hl & _).
    destruct (lookup_lt_is_Some_2 a r) as [row Hrow]; [lia|].
    rewrite Ha. simpl. rewrite Hrow. simpl.
    rewrite Forall_lookup in Hrows. by eapply Hrows.
  - split; [by rewrite length_fmap, length_seq|].
    apply Forall_fmap_seq. intros c Hc.
    split; [by rewrite length_fmap, length_seq|].
    apply Forall_fmap_seq. intros r Hr.
    by rewrite length_fmap, length_seq.
Qed.

Lemma voxel_swapaxes0 P R C (v : volume) ax k r c x :
  volume_shape P R C v → voxel v k r c = Some x →
  voxel (swapaxes0 v ax)
        (match ax with 0 => k | 1 => r | _ => c end)
        (match ax with 1 => k | _ => r end)
        (match ax with 0 | 1 => c | _ => k end)
  = Some x.
Proof.
  intros Hshape Hx.
  destruct (voxel_volume_shape _ _ _ _ _ _ _ _ Hshape Hx) as (Hk & Hr & Hc).
  unfold swapaxes0. rewrite (dims_shape P R C) by (done || lia).
  destruct ax as [|[|ax]]; [done|..].
  - apply voxel_Some. eexists. split; [by apply lookup_fmap_seq|].
    apply pixel_Some. eexists. split; [by apply lookup_fmap_seq|].
    apply voxel_Some in Hx as (a & Ha & (row & Hrow & Hx)%pixel_Some).
    rewrite Ha. simpl. by rewrite Hrow.
  - apply voxel_Some. eexists. split; [by apply lookup_fmap_seq|].
    apply pixel_Some. eexists. split; [by apply lookup_fmap_seq|].
    rewrite lookup_fmap_seq by done. by rewrite Hx.
Qed.

(** X9.  Cutting along an axis swaps it with axis 0: for a volume of shape
    (P, R, C), axis 1 gives R images of shape (P, C), image r holding
    v[k, r, c] at (k, c), and axis 2, or the default -1, gives C images of
    shape (R, P), image c holding v[k, r, c] at (r, k).  The images are
    numbered from 0 in the file names, and every value is stored modulo 2 to
    the width of the format. *)
Theorem write_png_image_stack_axis P R C npy_vol axis ax bitdepth :
  volume_shape P R C npy_vol → 0 < P → 0 < R → 0 < C →
  normalize_axis axis = Some ax →
  ∃ mode imgs,
    write_png_image_stack npy_vol axis bitdepth = Some (mode, imgs)
    ∧ imgs.*1 = seq 0 (match ax with 0 => P | 1 => R | _ => C end)
    ∧ volume_shape (match ax with 0 => P | 1 => R | _ => C end)
                   (match ax with 1 => P | _ => R end)
                   (match ax with 0 | 1 => C | _ => P end)
                   imgs.*2
    ∧ ∀ k r c x, voxel npy_vol k r c = Some x →
        voxel imgs.*2
              (match ax with 0 => k | 1 => r | _ => c end)
              (match ax with 1 => k | _ => r end)
              (match ax with 0 | 1 => c | _ => k end)
        = Some (x `mod` 2 ^ png_width mode)%N.
Proof.
  intros Hshape HP HR HC Hax.
  pose proof (volume_shape_swapaxes0 P R C npy_vol ax Hshape HP HR) as Hsw.
  destruct (array_max_is_Some (ravel3 (swapaxes0 npy_vol ax))) as [vmax Hmax].
  { destruct (volume_shape_voxel P R C npy_vol 0 0 0) as [x Hx]; [done..|].
    pose proof (voxel_swapaxes0 P R C npy_vol ax 0 0 0 x Hshape Hx) as Hx'.
    intros Hnil.
    assert (x ∈ ravel3 (swapaxes0 npy_vol ax)) as Hin.
    { apply elem_of_ravel3. eauto. }
    rewrite Hnil in Hin. by apply elem_of_nil in Hin. }
  eexists _, _. split_and!.
  - unfold write_png_image_stack. rewrite Hax. simpl. rewrite Hmax. simpl.
    reflexivity.
  - rewrite imap_pair_fst, length_map. by destruct Hsw as [-> _].
  - rewrite imap_pair_snd. by apply volume_shape_map3.
  - intros k r c x Hx. rewrite imap_pair_snd, voxel_map3.
    by rewrite (voxel_swapaxes0 P R C npy_vol ax k r c x).
Qed.

Lemma write_png_image_stack_axis_witness :
  ∃ mode imgs,
    write_png_image_stack [[[1; 2]]; [[3; 4]]]%N (-1) None = Some (mode, imgs)
    ∧ imgs.*1 = [0; 1]
    ∧ voxel imgs.*2 1 0 0 = Some (2 `mod` 2 ^ png_width mode)%N.
Proof.
  destruct (write_png_image_stack_axis 2 1 2 [[[1; 2]]; [[3; 4]]]%N (-1) 2 None)
    as (mode & imgs & Hw & Hn & _ & Hv).
  - apply (bool_decide_unpack _). vm_compute. exact I.
  - lia.
  - lia.
  - lia.
  - reflexivity.
  - exists mode, imgs. split_and!; [exact Hw | exact Hn |].
    apply (Hv 0 0 1 2%N). reflexivity.
Defined.

(** ** The superpixel ids of the builder *)

Lemma swapaxes0_0 (v : volume) : swapaxes0 v 0 = v.
Proof. unfold swapaxes0. by destruct (dims v) as [[? ?] ?]. Qed.

Lemma write_png_image_stack_Some npy_vol axis ax vmax bitdepth :
  normalize_axis axis = Some ax →
  array_max (ravel3 (swapaxes0 npy_vol ax)) = Some vmax →
  write_png_image_stack npy_vol axis bitdepth
  = Some (png_mode_of vmax bitdepth,
          imap (λ z pl, (z, pl))
            (map (map (map (λ v, v `mod` 2 ^ png_width
                                           (png_mode_of vmax bitdepth))%N))
                 (swapaxes0 npy_vol ax))).
Proof.
  intros Hax Hmax. unfold write_png_image_stack. rewrite Hax. simpl.
  by rewrite Hmax.
Qed.

Lemma serial_section_map_plane nd_map min_size cc gu m k a :
  serial_section_map nd_map min_size cc gu = Some m → nd_map !! k = Some a →
  ∃ start_id,
    m !! k
    = Some (map (map (λ v, (v + start_id)%N))
              (label_fct cc (remove_small_connected_components a min_size)).1)
    ∧ (gu = false → start_id = 0%N).
Proof.
  intros Hm Ha.
  assert (Hne : nd_map ≠ []) by (by destruct nd_map).
  rewrite serial_section_map_Some in Hm by done. simpl in Hm.
  injection Hm as <-.
  set (labelled := map (label_fct cc)
         (map (λ a, remove_small_connected_components a min_size) nd_map)).
  assert (Hk : k < length (labelled.*2)).
  { unfold labelled. rewrite length_fmap, !length_map.
    by eapply lookup_lt_Some. }
  destruct (lookup_lt_is_Some_2 (start_ids gu (labelled.*2)) k)
    as [start_id Hs].
  { rewrite length_start_ids; [done|]. intros Hnil. rewrite Hnil in Hk.
    simpl in Hk. lia. }
  exists start_id. split.
  - rewrite lookup_zip_with, Hs. unfold labelled.
    rewrite !list_lookup_fmap, Ha. done.
  - intros ->. rewrite start_ids_false_lookup in Hs by done. congruence.
Qed.

Lemma label_fct_le cc a w :
  w ∈ ravel (label_fct cc a).1 → (w ≤ (label_fct cc a).2)%N.
Proof.
  assert (Hgen : ∀ t : plane,
            w ∈ ravel (map (map (new_id (nonzero_ids t))) t) →
            (w ≤ N.of_nat (length (nonzero_ids t)))%N).
  { intros t (r & c & Hw)%elem_of_ravel. rewrite pixel_map in Hw.
    destruct (pixel t r c) as [v|] eqn:Hv; [|done]. injection Hw as <-.
    apply new_id_le. by eapply pixel_nonzero_ids. }
  destruct cc; simpl; apply Hgen.
Qed.

Lemma length_ravel R C (a : plane) :
  plane_shape R C a → length (ravel a) = R * C.
Proof.
  unfold ravel. revert R. induction a as [|row a IH]; intros R [Hl Hrows].
  - simpl in *. lia.
  - apply Forall_cons in Hrows as [Hrow Hrows]. simpl in *.
    rewrite length_app, (IH (length a)) by done. lia.
Qed.

Lemma length_first_seen l : length (first_seen l) ≤ length l.
Proof.
  induction l as [|x l IH]; simpl; [done|].
  pose proof (length_filter (λ y, y ≠ x) (first_seen l)). lia.
Qed.

Lemma length_nonzero_ids R C (a : plane) :
  plane_shape R C a → length (nonzero_ids a) ≤ R * C.
Proof.
  intros Ha. unfold nonzero_ids.
  pose proof (length_first_seen (filter (λ v, v ≠ 0%N) (ravel a))).
  pose proof (length_filter (λ v, v ≠ 0%N) (ravel a)).
  rewrite (length_ravel R C) in * by done. lia.
Qed.

Lemma label_fct_count R C cc a :
  plane_shape R C a → ((label_fct cc a).2 ≤ N.of_nat (R * C))%N.
Proof.
  intros Ha. destruct cc; simpl.
  - pose proof (length_nonzero_ids R C _
                  (plane_shape_components R C
                     (λ v w, negb (N.eqb v 0) && negb (N.eqb w 0)) a Ha)).
    lia.
  - pose proof (length_nonzero_ids R C a Ha). lia.
Qed.

Lemma builder_superpixel_le P R C sps min_size cc so k a r c w :
  volume_shape P R C sps → 0 < P → 0 < R → 0 < C →
  raveler_serial_section_map sps min_size cc false = Some so →
  sps !! k = Some a → voxel so k r c = Some w →
  (w ≤ (label_fct cc (remove_small_connected_components a min_size)).2)%N.
Proof.
  intros Hshape HP HR HC Hso Ha Hw.
  destruct (raveler_serial_section_map_voxel P R C sps min_size cc false)
    as (m & rs & Hm & Hrs & _ & Hrest & Hcorner); [done..|].
  assert (rs = so) as -> by congruence.
  assert (w = 0%N ∨ voxel m k r c = Some w) as [->|Hmw].
  { destruct (decide ((r, c) = (0, 0))) as [[= -> ->]|Hne].
    - by apply Hcorner.
    - right. by rewrite <- Hrest. }
  { lia. }
  destruct (serial_section_map_plane _ _ _ _ _ _ _ Hm Ha)
    as (start_id & Hmk & Hstart).
  rewrite (Hstart eq_refl) in Hmk.
  apply voxel_Some in Hmw as (a' & Ha' & Hw').
  assert (a' = map (map (λ v, (v + 0)%N))
            (label_fct cc (remove_small_connected_components a min_size)).1)
    as -> by congruence.
  rewrite pixel_map in Hw'.
  destruct (pixel _ r c) as [v|] eqn:Hv; [|done]. injection Hw' as <-.
  rewrite N.add_0_r. apply label_fct_le. apply elem_of_ravel. eauto.
Qed.

(** X10.  The builder numbers the superpixels plane by plane: an id of its
    superpixel volume is at most the number of regions of its plane, and so
    at most the number of pixels of a plane.  When a plane has fewer than
    65536 pixels, the 16-bit images the Raveler export writes hold the
    superpixel volume unchanged. *)
Theorem segs_to_raveler_superpixels_fit P R C sps bodies min_size cc
    sps_out sp_to_segment segment_to_body :
  volume_shape P R C sps → 0 < P → 0 < R → 0 < C →
  segs_to_raveler sps bodies min_size cc None
  = Some (sps_out, sp_to_segment, segment_to_body) →
  (∀ k a r c w, sps !! k = Some a → voxel sps_out k r c = Some w →
     (w ≤ (label_fct cc (remove_small_connected_components a min_size)).2
        ≤ N.of_nat (R * C))%N)
  ∧ ((N.of_nat (R * C) < 65536)%N →
     write_png_image_stack sps_out 0 (Some 16%N)
     = Some (mode_I16, imap (λ z pl, (z, pl)) sps_out)).
Proof.
  intros Hshape HP HR HC Hres.
  apply segs_to_raveler_Some in Hres as (so & sm & Hso & _ & [= -> _ _]).
  pose proof (volume_shape_raveler_serial_section_map _ _ _ _ _ _ _ _
                Hshape Hso) as Hso_shape.
  assert (Hbound : ∀ k a r c w, sps !! k = Some a → voxel so k r c = Some w →
            (w ≤ (label_fct cc (remove_small_connected_components a min_size)).2
               ≤ N.of_nat (R * C))%N).
  { intros k a r c w Ha Hw. split.
    - exact (builder_superpixel_le P R C sps min_size cc so k a r c w
               Hshape HP HR HC Hso Ha Hw).
    - apply label_fct_count, plane_shape_remove_small.
      by destruct (volume_shape_lookup _ _ _ _ _ _ Hshape Ha) as (_ & _ & ?). }
  split; [exact Hbound|]. intros Hsmall.
  destruct (array_max_is_Some (ravel3 so)) as [vmax Hmax].
  { destruct (volume_shape_voxel P R C so 0 0 0) as [x Hx]; [done..|].
    intros Hnil. assert (x ∈ ravel3 so) as Hin.
    { apply elem_of_ravel3. eauto. }
    rewrite Hnil in Hin. by apply elem_of_nil in Hin. }
  rewrite (write_png_image_stack_Some so 0 0 vmax (Some 16%N))
    by (done || by rewrite swapaxes0_0).
  rewrite swapaxes0_0, png_mode_of_Some. simpl. do 3 f_equal.
  apply map3_id_on. intros w (k & r & c & Hw)%elem_of_ravel3.
  apply N.mod_small.
  destruct (voxel_volume_shape _ _ _ _ _ _ _ _ Hso_shape Hw) as (Hk & _ & _).
  destruct (lookup_lt_is_Some_2 sps k) as [a Ha].
  { destruct Hshape. lia. }
  pose proof (Hbound k a r c w Ha Hw). lia.
Qed.

Lemma segs_to_raveler_superpixels_fit_witness :
  write_png_image_stack [[[0; 1; 1]]]%N 0 (Some 16%N)
  = Some (mode_I16, imap (λ z pl, (z, pl)) [[[0; 1; 1]]]%N).
Proof.
  refine (proj2 (segs_to_raveler_superpixels_fit 1 1 3
                   [[[0; 5; 5]]]%N [[[0; 2; 2]]]%N 0 false
                   [[[0; 1; 1]]]%N [(0, 0, 0); (0, 1, 1)]%N [(0, 0); (1, 2)]%N
                   _ _ _ _ _) _).
  - apply (bool_decide_unpack _). vm_compute. exact I.
  - lia.
  - lia.
  - lia.
  - vm_compute. reflexivity.
  - lia.
Defined.

Lemma nonzero_ids_head (a : plane) r c v :
  pixel a r c = Some v → v ≠ 0%N →
  ∃ h ids r' c', nonzero_ids a = h :: ids ∧ h ≠ 0%N ∧ pixel a r' c' = Some h.
Proof.
  intros Hv Hne.
  assert (Hin : v ∈ nonzero_ids a).
  { apply elem_of_nonzero_ids. split; [done|]. apply elem_of_ravel. eauto. }
  destruct (nonzero_ids a) as [|h ids] eqn:Hids.
  { by apply elem_of_nil in Hin. }
  assert (Hh : h ∈ nonzero_ids a) by (rewrite Hids; by left).
  apply elem_of_nonzero_ids in Hh as [Hh0 (r' & c' & Hh)%elem_of_ravel].
  by exists h, ids, r', c'.
Qed.

(** The component pass keeps background and foreground where they are. *)
Lemma pixel_imap2 (g : nat → list N → nat → N → N) (a : plane) r c :
  pixel (imap (λ r row, imap (g r row) row) a) r c
  = a !! r ≫= λ row, g r row c <$> row !! c.
Proof.
  unfold pixel. rewrite list_lookup_imap.
  destruct (a !! r) as [row|]; [|done]. simpl. apply list_lookup_imap.
Qed.

Lemma same_support_initial_tags a : same_support a (initial_tags a).
Proof.
  intros r c. unfold initial_tags.
  rewrite (pixel_imap2 (λ r row c v, if decide (v = 0%N) then 0%N
                                     else N.of_nat (S (r * length row + c)))).
  unfold pixel. destruct (a !! r) as [row|]; simpl; [|done].
  destruct (row !! c) as [v|]; simpl; [|done]. split.
  - intros [= ->]. done.
  - intros v' [= <-] Hv. rewrite decide_False by done.
    eexists. split; [done|]. lia.
Qed.

Lemma foldr_min_nonzero {A} (cond : A → bool) (val : A → N) l (tag : N) :
  tag ≠ 0%N → (∀ x, x ∈ l → cond x = true → val x ≠ 0%N) →
  foldr (λ x m, if cond x then N.min m (val x) else m) tag l ≠ 0%N.
Proof.
  intros Htag. induction l as [|x l IH]; intros Hl; simpl; [done|].
  assert (IH' : foldr (λ x m, if cond x then N.min m (val x) else m) tag l
                ≠ 0%N).
  { apply IH. intros y Hy. apply Hl. by right. }
  destruct (cond x) eqn:Hc; [|done].
  pose proof (Hl x (list_elem_of_here _ _) Hc). lia.
Qed.

Lemma same_support_spread a t :
  same_support a t →
  same_support a
    (spread (λ v w, negb (N.eqb v 0) && negb (N.eqb w 0)) a t).
Proof.
  intros Hinv r c. unfold spread.
  rewrite (pixel_imap2 (λ r row c tag,
             if decide (tag = 0%N) then 0%N
             else foldr (λ rc m,
                    if negb (N.eqb (default 0%N (pixel a r c)) 0)
                       && negb (N.eqb (default 0%N (pixel a rc.1 rc.2)) 0)
                    then N.min m (default 0%N (pixel t rc.1 rc.2)) else m)
                  tag (neighbours4 r c))).
  destruct (Hinv r c) as [H0 Hne]. split.
  - intros Ha. specialize (H0 Ha). unfold pixel in H0.
    destruct (t !! r) as [row|]; simpl in *; [|done]. by rewrite H0.
  - intros v Ha Hv. destruct (Hne v Ha Hv) as (tag & Htag & Htag0).
    unfold pixel in Htag.
    destruct (t !! r) as [row|]; simpl in *; [|done]. rewrite Htag. simpl.
    rewrite decide_False by done. eexists. split; [done|].
    apply foldr_min_nonzero; [done|]. intros [r' c'] _ Hc. simpl in *.
    apply andb_true_iff in Hc as [_ Hc]. apply negb_true_iff in Hc.
    apply N.eqb_neq in Hc.
    destruct (pixel a r' c') as [w|] eqn:Hw; [|done]. simpl in Hc.
    destruct (Hinv r' c') as [_ Hne']. destruct (Hne' w Hw Hc) as (tag' & -> & ?).
    done.
Qed.

Lemma same_support_components a :
  same_support a
    (components (λ v w, negb (N.eqb v 0) && negb (N.eqb w 0)) a).
Proof.
  unfold components. induction (length (ravel a)) as [|n IH]; simpl.
  - apply same_support_initial_tags.
  - by apply same_support_spread.
Qed.

(** Both ways of labelling a plane keep the background, and give the id 1
    to some pixel of a plane that has a pixel other than background. *)
Lemma label_fct_support cc (a : plane) r c :
  (pixel a r c = Some 0%N → pixel (label_fct cc a).1 r c = Some 0%N)
  ∧ (∀ v, pixel a r c = Some v → v ≠ 0%N →
          ∃ r' c', pixel (label_fct cc a).1 r' c' = Some 1%N).
Proof.
  assert (Hgen : ∀ t : plane, same_support a t →
            (pixel a r c = Some 0%N →
             pixel (map (map (new_id (nonzero_ids t))) t) r c = Some 0%N)
            ∧ (∀ v, pixel a r c = Some v → v ≠ 0%N →
                 ∃ r' c', pixel (map (map (new_id (nonzero_ids t))) t) r' c'
                          = Some 1%N)).
  { intros t Hinv. destruct (Hinv r c) as [H0 Hne]. split.
    - intros Ha. by rewrite pixel_map, (H0 Ha).
    - intros v Ha Hv. destruct (Hne v Ha Hv) as (tag & Htag & Htag0).
      destruct (nonzero_ids_head t r c tag Htag Htag0)
        as (h & ids & r' & c' & Hids & Hh0 & Hh).
      exists r', c'. rewrite pixel_map, Hh, Hids. simpl. f_equal.
      unfold new_id. rewrite decide_False by done. simpl.
      by rewrite decide_True. }
  destruct cc; simpl.
  - apply Hgen, same_support_components.
  - apply Hgen. intros r' c'. split; [done|]. intros v Hv Hv0. by exists v.
Qed.

(** X11.  With the default [min_size], for both settings of the component
    pass and a superpixel volume that has a background voxel, every plane
    of the superpixel volume the builder returns that has a superpixel
    holds the superpixel 1: the ids are numbered plane by plane and are not
    unique to a plane. *)
Theorem segs_to_raveler_superpixel_ids_restart P R C sps bodies cc
    sps_out sp_to_segment segment_to_body :
  volume_shape P R C sps → 0 < P → 0 < R → 0 < C →
  0%N ∈ ravel3 sps →
  segs_to_raveler sps bodies 0 cc None
  = Some (sps_out, sp_to_segment, segment_to_body) →
  ∀ k r c v, voxel sps k r c = Some v → v ≠ 0%N →
    ∃ r' c', voxel sps_out k r' c' = Some 1%N.
Proof.
  intros Hshape HP HR HC Hzero Hres.
  apply segs_to_raveler_Some in Hres as (so & sm & Hso & _ & [= -> _ _]).
  unfold raveler_serial_section_map in Hso.
  destruct (serial_section_map sps 0 cc false) as [m|] eqn:Hm; [|done].
  simpl in Hso.
  assert (Hvox : ∀ k a r c, sps !! k = Some a →
            voxel m k r c = pixel (label_fct cc a).1 r c).
  { intros k a r c Ha.
    destruct (serial_section_map_plane _ _ _ _ _ _ _ Hm Ha)
      as (start_id & Hmk & Hstart).
    rewrite (Hstart eq_refl), remove_small_zero in Hmk.
    unfold voxel. rewrite Hmk. simpl. rewrite pixel_map.
    destruct (pixel _ r c) as [w|]; [|done]. simpl. f_equal; lia. }
  assert (Hany : any_zero m = true).
  { apply elem_of_ravel3 in Hzero as (k & r & c & Hz).
    apply voxel_Some in Hz as (a & Ha & Hz).
    apply bool_decide_eq_true, elem_of_ravel3. exists k, r, c.
    rewrite (Hvox k a r c Ha).
    by apply (label_fct_support cc a r c). }
  rewrite Hany in Hso. injection Hso as <-.
  intros k r c v (a & Ha & Hv)%voxel_Some Hne.
  destruct (label_fct_support cc a r c) as [_ Hone].
  destruct (Hone v Hv Hne) as (r' & c' & H1).
  exists r', c'. by rewrite (Hvox k a r' c' Ha).
Qed.

Lemma segs_to_raveler_superpixel_ids_restart_witness :
  (∃ r' c', voxel [[[0; 1]]; [[1; 1]]]%N 0 r' c' = Some 1%N)
  ∧ (∃ r' c', voxel [[[0; 1]]; [[1; 1]]]%N 1 r' c' = Some 1%N).
Proof.
  pose proof (segs_to_raveler_superpixel_ids_restart 2 1 2
                [[[0; 7]]; [[9; 9]]]%N [[[0; 3]]; [[3; 3]]]%N true
                [[[0; 1]]; [[1; 1]]]%N
                [(0, 0, 0); (0, 1, 1); (1, 1, 2)]%N
                [(0, 0); (1, 3); (2, 3)]%N) as Hone.
  assert (Hshape : volume_shape 2 1 2 [[[0; 7]]; [[9; 9]]]%N).
  { apply (bool_decide_unpack _). vm_compute. exact I. }
  assert (Hzero : 0%N ∈ ravel3 [[[0; 7]]; [[9; 9]]]%N).
  { apply (bool_decide_unpack _). vm_compute. exact I. }
  specialize (Hone Hshape ltac:(lia) ltac:(lia) ltac:(lia) Hzero).
  assert (Hres : segs_to_raveler [[[0; 7]]; [[9; 9]]]%N
                   [[[0; 3]]; [[3; 3]]]%N 0 true None
                 = Some ([[[0; 1]]; [[1; 1]]]%N,
                         [(0, 0, 0); (0, 1, 1); (1, 1, 2)]%N,
                         [(0, 0); (1, 3); (2, 3)]%N)).
  { vm_compute. reflexivity. }
  specialize (Hone Hres). split.
  - apply (Hone 0 0 1 7%N); [reflexivity|done].
  - apply (Hone 1 0 0 9%N); [reflexivity|done].
Defined.

(** ** Reading a multi-page tif *)

Lemma read_pages_None {A} pos (l : list A) : read_pages pos None l = l.
Proof.
  revert pos. induction l as [|page l IH]; intros pos; simpl; [done|].
  by rewrite IH.
Qed.

Lemma read_pages_Some {A} pos z (l : list A) :
  read_pages pos (Some z) l
  = if decide (pos ≤ z < pos + Z.of_nat (length l))%Z
    then take (Z.to_nat (z - pos)) l else l.
Proof.
  revert pos. induction l as [|page l IH]; intros pos; simpl.
  { case_decide; [|done]. by rewrite take_nil. }
  destruct (decide (Some pos = Some z)) as [[= ->]|Hne].
  { rewrite decide_True by lia. by rewrite Z.sub_diag. }
  assert (pos ≠ z) by congruence. rewrite IH.
  destruct (decide (pos + 1 ≤ z < pos + 1 + Z.of_nat (length l))%Z) as [Hin|Hout].
  - rewrite decide_True by lia.
    replace (Z.to_nat (z - pos)) with (S (Z.to_nat (z - (pos + 1)))) by lia.
    done.
  - by rewrite decide_False by lia.
Qed.

Lemma read_multi_page_tif_from {A} (img : list A) xmin xmax ymin ymax
    zmin zmax :
  (0 ≤ default 0%Z zmin < Z.of_nat (length img))%Z →
  read_multi_page_tif img [xmin; xmax; ymin; ymax; zmin; zmax]
  = match read_pages (default 0%Z zmin) zmax
            (drop (Z.to_nat (default 0%Z zmin)) img) with
    | [] => None
    | pages => Some pages
    end.
Proof.
  intros Hlo. unfold read_multi_page_tif.
  destruct zmin as [z|]; simpl in *; [|done].
  destruct (decide (0 < z)%Z) as [Hz|Hz].
  - by rewrite decide_True by lia.
  - by replace z with 0%Z by lia.
Qed.

(** X12.  A crop [zmin, zmax) within the file gives the pages from [zmin]
    to [zmax - 1] in their order, an absent [zmin] standing for the first
    page and an absent [zmax] for the end of the file.  The four entries
    for x and y play no part: the pages are never cropped. *)
Theorem read_multi_page_tif_crop {A} (img : list A) xmin xmax ymin ymax
    zmin zmax :
  (0 ≤ default 0%Z zmin < default (Z.of_nat (length img)) zmax)%Z →
  (default (Z.of_nat (length img)) zmax ≤ Z.of_nat (length img))%Z →
  read_multi_page_tif img [xmin; xmax; ymin; ymax; zmin; zmax]
  = Some (take (Z.to_nat (default (Z.of_nat (length img)) zmax
                          - default 0%Z zmin))
               (drop (Z.to_nat (default 0%Z zmin)) img)).
Proof.
  intros Hr Hhi. rewrite read_multi_page_tif_from by lia.
  set (lo := default 0%Z zmin) in *.
  assert (Hlen : length (drop (Z.to_nat lo) img)
                 = Z.to_nat (Z.of_nat (length img) - lo)).
  { rewrite length_drop. lia. }
  assert (Hpages : read_pages lo zmax (drop (Z.to_nat lo) img)
            = take (Z.to_nat (default (Z.of_nat (length img)) zmax - lo))
                   (drop (Z.to_nat lo) img)).
  { destruct zmax as [hi|]; simpl in *.
    - rewrite read_pages_Some. case_decide; [done|].
      rewrite take_ge; [done|]. rewrite Hlen. lia.
    - rewrite read_pages_None, take_ge; [done|]. rewrite Hlen. lia. }
  rewrite Hpages.
  destruct (take _ _) as [|page pages] eqn:Htake; [|done].
  apply (f_equal length) in Htake. rewrite length_take, Hlen in Htake.
  simpl in Htake. lia.
Qed.

Lemma read_multi_page_tif_crop_witness :
  read_multi_page_tif [10; 11; 12; 13]%N
    [Some 5; None; None; Some 7; Some 1; Some 3]%Z
  = Some [11; 12]%N.
Proof.
  apply (read_multi_page_tif_crop [10; 11; 12; 13]%N
           (Some 5%Z) None None (Some 7%Z) (Some 1%Z) (Some 3%Z));
    simpl; lia.
Defined.

(** X13.  A crop that ends where it starts raises, since no page is left to
    concatenate, and so does one that starts after the last page.  A crop
    that ends before it starts is not empty: the loop never meets its end
    and reads every page from [zmin] to the end of the file. *)
Theorem read_multi_page_tif_crop_outside {A} (img : list A)
    xmin xmax ymin ymax (zmin zmax : Z) :
  (0 ≤ zmin)%Z → (zmax ≤ zmin)%Z →
  read_multi_page_tif img [xmin; xmax; ymin; ymax; Some zmin; Some zmax]
  = if decide (zmin < Z.of_nat (length img) ∧ zmax < zmin)%Z
    then Some (drop (Z.to_nat zmin) img) else None.
Proof.
  intros H0 Hle.
  destruct (decide (zmin < Z.of_nat (length img))%Z) as [Hin|Hout].
  - rewrite read_multi_page_tif_from by (simpl; lia). simpl.
    assert (Hlen : length (drop (Z.to_nat zmin) img) ≠ 0).
    { rewrite length_drop. lia. }
    rewrite read_pages_Some.
    destruct (decide (zmax < zmin)%Z) as [Hlt|Heq].
    + rewrite decide_False by lia. rewrite decide_True by done.
      destruct (drop _ _); [done|done].
    + assert (zmax = zmin) as -> by lia.
      rewrite decide_True by lia. rewrite (decide_False (P := _ ∧ _)) by lia.
      by rewrite Z.sub_diag.
  - rewrite (decide_False (P := _ ∧ _)) by lia.
    unfold read_multi_page_tif. simpl.
    destruct (decide (0 < zmin)%Z) as [Hz|Hz].
    + by rewrite decide_False by lia.
    + simpl. assert (img = []) as ->; [|done].
      destruct img; [done|]. simpl in Hout. lia.
Qed.

Lemma read_multi_page_tif_crop_outside_witness :
  read_multi_page_tif [10; 11; 12; 13]%N
    [None; None; None; None; Some 2; Some 1]%Z
  = Some [12; 13]%N.
Proof.
  apply (read_multi_page_tif_crop_outside [10; 11; 12; 13]%N
           None None None None 2 1); lia.
Defined.

(** ** Ilastik label attributes *)

Lemma elem_of_unique_labels (ar : list N) x : x ∈ unique ar ↔ x ∈ ar.
Proof. apply (elem_of_unique N.le). Qed.

Lemma StronglySorted_unique_labels (ar : list N) :
  StronglySorted N.lt (unique ar).
Proof.
  pose proof (StronglySorted_unique N.le ar) as Hs.
  pose proof (NoDup_unique N.le ar) as Hn. fold (unique ar) in Hs, Hn.
  induction Hs as [|x l Hl IH Hx]; [constructor|].
  apply NoDup_cons in Hn as [Hnx Hn]. constructor; [by apply IH|].
  apply Forall_forall. intros y Hy. rewrite Forall_forall in Hx.
  specialize (Hx y Hy). assert (x ≠ y) by (by intros ->). lia.
Qed.

Lemma elem_of_join_unique (labels : list (list N)) x :
  x ∈ mjoin (unique <$> labels) ↔ x ∈ mjoin labels.
Proof.
  rewrite !list_elem_of_join. split.
  - intros (l & Hx & (ar & -> & Har)%list_elem_of_fmap).
    exists ar. split; [by apply elem_of_unique_labels|done].
  - intros (ar & Hx & Har). exists (unique ar).
    split; [by apply elem_of_unique_labels|].
    apply list_elem_of_fmap. by exists ar.
Qed.

Lemma elem_of_sorted_tail (l : list N) x :
  StronglySorted N.lt l →
  x ∈ drop 1 l ↔ x ∈ l ∧ ∃ y, y ∈ l ∧ (y < x)%N.
Proof.
  intros Hs. destruct Hs as [|h t Ht Hh]; simpl.
  { split; [by intros ?%elem_of_nil|by intros [?%elem_of_nil _]]. }
  rewrite drop_0. rewrite Forall_forall in Hh. split.
  - intros Hx. split; [by right|]. exists h. split; [by left|by apply Hh].
  - intros [Hx (y & Hy & Hlt)].
    apply elem_of_cons in Hx as [->|Hx]; [|done].
    apply elem_of_cons in Hy as [->|Hy]; [lia|].
    specialize (Hh y Hy). lia.
Qed.

Lemma ilastik_label_attributes_cons ar labels :
  ilastik_label_attributes (ar :: labels)
  = match drop 1 (unique (mjoin (unique <$> ar :: labels))) with
    | [] => None
    | ulbs =>
      Some (take (length ulbs) ilastik_label_colors,
            (λ i, "Label " +:+ pretty i) <$> ulbs, ulbs)
    end.
Proof.
  cbv beta iota zeta delta [ilastik_label_attributes mbind option_bind].
  by destruct (drop 1 (unique (mjoin (unique <$> ar :: labels)))).
Qed.

Lemma ilastik_label_attributes_Some labels colors names ulbs :
  ilastik_label_attributes labels = Some (colors, names, ulbs) →
  ulbs = drop 1 (unique (mjoin (unique <$> labels)))
  ∧ colors = take (length ulbs) ilastik_label_colors
  ∧ names = (λ i, "Label " +:+ pretty i) <$> ulbs.
Proof.
  destruct labels as [|ar labels]; [done|].
  rewrite ilastik_label_attributes_cons.
  destruct (drop 1 _) as [|u ulbs'] eqn:Hulbs; [done|].
  by intros [= <- <- <-].
Qed.

(** X14.  The label numbers written to an Ilastik project are the labels
    of the label arrays in increasing order without the smallest one,
    whatever it is: the nonzero labels when some voxel is unlabelled, and
    otherwise all labels but the smallest.  There is a name for each
    number, but never more than 8 colors. *)
Theorem ilastik_label_numbers labels colors names ulbs :
  ilastik_label_attributes labels = Some (colors, names, ulbs) →
  StronglySorted N.lt ulbs
  ∧ (∀ x, x ∈ ulbs ↔ x ∈ mjoin labels ∧ ∃ y, y ∈ mjoin labels ∧ (y < x)%N)
  ∧ (0%N ∈ mjoin labels → ∀ x, x ∈ ulbs ↔ x ∈ mjoin labels ∧ x ≠ 0%N)
  ∧ length names = length ulbs
  ∧ length colors = length ulbs `min` 8.
Proof.
  intros (Hulbs & -> & ->)%ilastik_label_attributes_Some.
  pose proof (StronglySorted_unique_labels (mjoin (unique <$> labels)))
    as Hs.
  assert (Hin : ∀ x, x ∈ ulbs
            ↔ x ∈ mjoin labels ∧ ∃ y, y ∈ mjoin labels ∧ (y < x)%N).
  { intros x. rewrite Hulbs, (elem_of_sorted_tail _ _ Hs).
    rewrite elem_of_unique_labels, elem_of_join_unique.
    split; intros [Hx (y & Hy & Hlt)]; (split; [done|]); exists y.
    - by rewrite elem_of_unique_labels, elem_of_join_unique in Hy.
    - by rewrite elem_of_unique_labels, elem_of_join_unique. }
  split_and!.
  - rewrite Hulbs. clear Hulbs Hin. destruct Hs; [constructor|done].
  - exact Hin.
  - intros H0 x. rewrite Hin. split.
    + intros [Hx (y & _ & Hlt)]. split; [done|lia].
    + intros [Hx Hne]. split; [done|]. exists 0%N. split; [done|lia].
  - by rewrite length_fmap.
  - rewrite length_take. done.
Qed.

Lemma ilastik_label_numbers_witness :
  StronglySorted N.lt [5; 7]%N
  ∧ (∀ x, x ∈ [5; 7]%N
        ↔ x ∈ mjoin [[3; 5; 3]; [7; 5]]%N
          ∧ ∃ y, y ∈ mjoin [[3; 5; 3]; [7; 5]]%N ∧ (y < x)%N).
Proof.
  destruct (ilastik_label_numbers [[3; 5; 3]; [7; 5]]%N
              [0xffff0000; 0xff00ff00]%N ["Label 5"; "Label 7"] [5; 7]%N)
    as (Hs & Hin & _).
  - vm_compute. reflexivity.
  - split; [exact Hs | exact Hin].
Defined.

(** X15.  Writing an Ilastik project raises exactly when the label arrays
    hold at most one value between them: the only label is taken for the
    background and no label is left to name. *)
Theorem ilastik_label_attributes_None labels :
  ilastik_label_attributes labels = None
  ↔ ∀ x y, x ∈ mjoin labels → y ∈ mjoin labels → x = y.
Proof.
  destruct labels as [|ar labels].
  { split; [|done]. by intros _ x y ?%elem_of_nil. }
  rewrite ilastik_label_attributes_cons.
  set (lbls := ar :: labels).
  pose proof (StronglySorted_unique_labels (mjoin (unique <$> lbls))) as Hs.
  assert (Hel : ∀ x, x ∈ unique (mjoin (unique <$> lbls)) ↔ x ∈ mjoin lbls).
  { intros x. by rewrite elem_of_unique_labels, elem_of_join_unique. }
  destruct (unique (mjoin (unique <$> lbls))) as [|h [|h' t]].
  - split; [|done]. intros _ x y Hx. apply Hel in Hx.
    by apply elem_of_nil in Hx.
  - split; [|done]. intros _ x y Hx%Hel Hy%Hel.
    apply list_elem_of_singleton in Hx, Hy. congruence.
  - split; [done|]. intros Hall.
    assert (h = h') as <-.
    { apply Hall; apply Hel; [by left|right; by left]. }
    apply StronglySorted_inv in Hs as [_ Hh].
    apply Forall_cons in Hh as [Hh _]. lia.
Qed.

(** ** Body annotations *)

Lemma filter_fmap_none {A B} (Q : B → Prop) `{∀ y, Decision (Q y)}
    (f : A → B) (l : list A) :
  (∀ x, ¬ Q (f x)) → filter Q (f <$> l) = [].
Proof.
  intros Hf. induction l as [|x l IH]; [done|].
  rewrite fmap_cons, filter_cons, decide_False by apply Hf. exact IH.
Qed.

Lemma mapM_fmap_Some {A B D} (g : B → option D) (f : A → B) (h : A → D)
    (l : list A) :
  (∀ x, g (f x) = Some (h x)) → mapM g (f <$> l) = Some (h <$> l).
Proof.
  intros Hg. apply mapM_Some, Forall2_fmap_l, Forall2_fmap_r.
  apply Forall2_same_length_lookup. split; [done|].
  intros i x y Hx Hy. assert (x = y) as -> by congruence. apply Hg.
Qed.

(** X16.  The annotations written for orphans and non-traversing bodies
    list the orphans first and the non-traversing bodies after them, each
    with its body ID, and none of them carries the comment 'glia': read
    back with [get_glia=True], they give an empty glia list. *)
Theorem glia_of_raveler_body_annotations orphans non_traversing :
  glia (raveler_body_annotations orphans non_traversing).1 = Some []
  ∧ mapM (λ a, a !! "body ID")
         (raveler_body_annotations orphans non_traversing).1
    = Some (JInt <$> orphans ++ default [] non_traversing).
Proof.
  unfold glia, raveler_body_annotations.
  destruct non_traversing as [nt|]; simpl; split.
  - rewrite filter_app, !filter_fmap_none; [done|by intros n|by intros o].
  - rewrite fmap_app. apply mapM_Some, Forall2_app.
    + apply mapM_Some. by apply mapM_fmap_Some.
    + apply mapM_Some. by apply mapM_fmap_Some.
  - rewrite filter_fmap_none; [done|by intros o].
  - rewrite app_nil_r. by apply mapM_fmap_Some.
Qed.

(** ** The relabeler on small volumes *)

Lemma serial_section_map_background_without_offsets_witness :
  voxel [[[1; 0]]; [[1; 0]]]%N 1 0 1 = Some 0%N
  ↔ voxel [[[5; 0]]; [[7; 0]]]%N 1 0 1 = Some 0%N.
Proof.
  apply (serial_section_map_background_without_offsets
           [[[5; 0]]; [[7; 0]]]%N [[[1; 0]]; [[1; 0]]]%N 1 0 1).
  vm_compute. reflexivity.
Defined.

Lemma serial_section_map_regions_apart_witness :
  voxel [[[1; 0]]; [[2; 1]]]%N 0 0 0 ≠ voxel [[[1; 0]]; [[2; 1]]]%N 1 0 0.
Proof.
  apply (serial_section_map_regions_apart
           [[[5; 0]]; [[5; 0]]]%N [[[1; 0]]; [[2; 1]]]%N 0 1 0 0 0 0 5 5).
  - vm_compute. reflexivity.
  - lia.
  - reflexivity.
  - lia.
  - reflexivity.
  - lia.
Defined.

Lemma serial_section_map_twice_without_offsets_witness :
  serial_section_map [[[1; 0]]; [[1; 0]]]%N 0 false false
  = Some [[[1; 0]]; [[1; 0]]]%N.
Proof.
  apply (serial_section_map_twice_without_offsets [[[5; 0]]; [[7; 0]]]%N).
  vm_compute. reflexivity.
Defined.

(** * The round trip through the export directory *)

(** ** What is written and what is read *)

Lemma write_png_16_small (v : volume) :
  ravel3 v ≠ [] → (∀ w, w ∈ ravel3 v → (w < 65536)%N) →
  write_png_image_stack v 0 (Some 16%N)
  = Some (mode_I16, imap (λ z pl, (z, pl)) v).
Proof.
  intros Hne Hsmall.
  destruct (array_max_is_Some (ravel3 v) Hne) as [vmax Hmax].
  rewrite (write_png_image_stack_Some v 0 0 vmax (Some 16%N))
    by (done || by rewrite swapaxes0_0).
  rewrite swapaxes0_0, png_mode_of_Some. simpl. do 3 f_equal.
  apply map3_id_on. intros w Hw. apply N.mod_small.
  specialize (Hsmall w Hw). lia.
Qed.

Lemma write_to_raveler_small v t3 t2 :
  ravel3 v ≠ [] → (∀ w, w ∈ ravel3 v → (w < 65536)%N) →
  write_to_raveler v t3 t2
  = Some {| superpixel_maps := v;
            superpixel_to_segment_map := t3;
            segment_to_body_map := t2 |}.
Proof.
  intros Hne Hsmall. unfold write_to_raveler.
  rewrite write_png_16_small by done. simpl. by rewrite imap_pair_snd.
Qed.

Lemma write_to_raveler_Some P R C v t3 t2 d :
  volume_shape P R C v → write_to_raveler v t3 t2 = Some d →
  volume_shape P R C (superpixel_maps d)
  ∧ superpixel_to_segment_map d = t3 ∧ segment_to_body_map d = t2.
Proof.
  intros Hshape Hd. unfold write_to_raveler in Hd.
  destruct (array_max (ravel3 (swapaxes0 v 0))) as [vmax|] eqn:Hmax.
  - rewrite (write_png_image_stack_Some v 0 0 vmax (Some 16%N)) in Hd
      by done.
    simpl in Hd. injection Hd as <-. simpl.
    rewrite imap_pair_snd, swapaxes0_0. split; [|done].
    by apply volume_shape_map3.
  - unfold write_png_image_stack in Hd.
    change (normalize_axis 0) with (Some 0) in Hd.
    cbn [mbind option_bind] in Hd. rewrite Hmax in Hd. done.
Qed.

Lemma squeeze_id R C : squeeze [R; C] = [R; C] ↔ R ≠ 1 ∧ C ≠ 1.
Proof.
  unfold squeeze. rewrite !filter_cons, filter_nil.
  destruct (decide (R ≠ 1)), (decide (C ≠ 1)); split;
    try (intros Heq; by simplify_eq); try (by intros [? ?]); done.
Qed.

Lemma read_image_stack_thick P R C (v : volume) :
  volume_shape P R C v → 1 < P → 1 < R → 1 < C →
  read_image_stack v = Some (stack3 v).
Proof.
  intros Hshape HP HR HC. unfold read_image_stack.
  rewrite (dims_shape P R C) by (done || lia).
  destruct v as [|im0 v']; [destruct Hshape as [Hl _]; simpl in Hl; lia|].
  rewrite bool_decide_true by (apply squeeze_id; lia).
  by rewrite decide_False by lia.
Qed.

Lemma read_image_stack_thin P R C (v : volume) :
  volume_shape P R C v → 0 < P → 0 < R → P = 1 ∨ R = 1 ∨ C = 1 →
  read_image_stack v = None ∨ ∃ a, read_image_stack v = Some (stack2 a).
Proof.
  intros Hshape HP HR Hthin. unfold read_image_stack.
  rewrite (dims_shape P R C) by done.
  destruct v as [|im0 v']; [by left|].
  destruct (decide (R ≠ 1 ∧ C ≠ 1)) as [Hrc|Hrc].
  - rewrite bool_decide_true by (by apply squeeze_id).
    rewrite decide_True by lia. right. by eexists.
  - rewrite bool_decide_false by (by rewrite squeeze_id). by left.
Qed.

Lemma loadtxt3_id rows :
  2 ≤ length rows →
  Forall (λ row : N * N * N,
            (row.1.1 < 2 ^ 32 ∧ row.1.2 < 2 ^ 32 ∧ row.2 < 2 ^ 32)%N) rows →
  loadtxt3 rows = Some rows.
Proof.
  intros Hlen Hrows. unfold loadtxt3. rewrite decide_True by done. f_equal.
  transitivity (id <$> rows); [|apply list_fmap_id].
  apply Forall_fmap_ext_1. eapply Forall_impl; [done|].
  intros [[z sp] seg] (Hz & Hsp & Hseg). simpl in *. unfold uint32.
  by rewrite !N.mod_small by done.
Qed.

Lemma loadtxt2_id rows :
  2 ≤ length rows →
  Forall (λ row : N * N, (row.1 < 2 ^ 32 ∧ row.2 < 2 ^ 32)%N) rows →
  loadtxt2 rows = Some rows.
Proof.
  intros Hlen Hrows. unfold loadtxt2. rewrite decide_True by done. f_equal.
  transitivity (id <$> rows); [|apply list_fmap_id].
  apply Forall_fmap_ext_1. eapply Forall_impl; [done|].
  intros [seg b] (Hseg & Hb). simpl in *. unfold uint32.
  by rewrite !N.mod_small by done.
Qed.

(** On a stack of at least two planes, rows and columns and on tables of at
    least two rows whose entries fit 32 bits, the reader decodes what is in
    the directory. *)
Lemma raveler_to_labeled_volume_export_thick P R C v t3 t2 :
  volume_shape P R C v → 1 < P → 1 < R → 1 < C →
  2 ≤ length t3 → 2 ≤ length t2 →
  Forall (λ row : N * N * N,
            (row.1.1 < 2 ^ 32 ∧ row.1.2 < 2 ^ 32 ∧ row.2 < 2 ^ 32)%N) t3 →
  Forall (λ row : N * N, (row.1 < 2 ^ 32 ∧ row.2 < 2 ^ 32)%N) t2 →
  raveler_to_labeled_volume_export
    {| superpixel_maps := v;
       superpixel_to_segment_map := t3;
       segment_to_body_map := t2 |}
  = raveler_to_labeled_volume v t3 t2.
Proof.
  intros Hshape HP HR HC Hl3 Hl2 H3 H2.
  unfold raveler_to_labeled_volume_export. simpl.
  rewrite (read_image_stack_thick P R C) by done. simpl.
  rewrite loadtxt3_id by done. simpl. by rewrite loadtxt2_id by done.
Qed.

(** The reader raises on a stack of one plane, one row or one column, and
    on a segment-to-body table of fewer than two rows. *)
Lemma raveler_to_labeled_volume_export_None P R C d :
  volume_shape P R C (superpixel_maps d) → 0 < P → 0 < R →
  P = 1 ∨ R = 1 ∨ C = 1 ∨ length (segment_to_body_map d) < 2 →
  raveler_to_labeled_volume_export d = None.
Proof.
  intros Hshape HP HR Hcases. unfold raveler_to_labeled_volume_export.
  destruct (decide (P = 1 ∨ R = 1 ∨ C = 1)) as [Hthin|Hthick].
  - destruct (read_image_stack_thin P R C _ Hshape HP HR Hthin)
      as [->|[a ->]]; [done|]. simpl.
    destruct (loadtxt3 _); [|done]. simpl. by destruct (loadtxt2 _).
  - assert (Hl2 : length (segment_to_body_map d) < 2) by tauto.
    destruct (read_image_stack _); [|done]. simpl.
    destruct (loadtxt3 _); [|done]. simpl.
    unfold loadtxt2. by rewrite decide_False by lia.
Qed.

(** ** The ids of the builder fit the files *)

Lemma sumN_take_le (l : list N) k n :
  l !! k = Some n → (sumN (take k l) + n ≤ sumN l)%N.
Proof.
  revert k. induction l as [|x l IH]; intros k; [done|].
  destruct k as [|k]; simpl.
  - intros [= ->]. lia.
  - intros Hk. specialize (IH k Hk). lia.
Qed.

Lemma sumN_le_bound (l : list N) (B : N) :
  Forall (λ n, (n ≤ B)%N) l → (sumN l ≤ N.of_nat (length l) * B)%N.
Proof.
  induction 1 as [|x l Hx Hl IH]; simpl; [lia|]. lia.
Qed.

Lemma serial_section_map_plane_global nd_map min_size cc m k a :
  serial_section_map nd_map min_size cc true = Some m →
  nd_map !! k = Some a →
  let nids :=
    (map (label_fct cc)
         (map (λ a, remove_small_connected_components a min_size) nd_map)).*2
  in
  m !! k
  = Some (map (map (λ v, (v + sumN (take k nids))%N))
            (label_fct cc (remove_small_connected_components a min_size)).1)
  ∧ nids !! k
    = Some (label_fct cc (remove_small_connected_components a min_size)).2.
Proof.
  intros Hm Ha nids.
  assert (Hne : nd_map ≠ []) by (by destruct nd_map).
  rewrite serial_section_map_Some in Hm by done. cbv zeta in Hm.
  injection Hm as <-.
  assert (Hk : nids !! k
    = Some (label_fct cc (remove_small_connected_components a min_size)).2).
  { unfold nids. by rewrite !list_lookup_fmap, Ha. }
  split; [|done].
  rewrite lookup_zip_with. fold nids.
  assert (Hs : start_ids true nids !! k = Some (sumN (take k nids))).
  { apply start_ids_lookup. by eapply lookup_lt_Some. }
  change (start_ids true nids)
    with (0%N :: take (length (cumsum nids) - 1) (cumsum nids)) in Hs.
  rewrite Hs.
  by rewrite !list_lookup_fmap, Ha.
Qed.

Lemma builder_segment_le P R C bodies min_size cc sm k r c w :
  volume_shape P R C bodies → 0 < P → 0 < R → 0 < C →
  raveler_serial_section_map bodies min_size cc true = Some sm →
  voxel sm k r c = Some w → (w ≤ N.of_nat (P * R * C))%N.
Proof.
  intros Hshape HP HR HC Hsm Hw.
  destruct (raveler_serial_section_map_voxel P R C bodies min_size cc true)
    as (m & rs & Hm & Hrs & Hrs_shape & Hrest & Hcorner); [done..|].
  assert (rs = sm) as -> by congruence.
  destruct (voxel_volume_shape _ _ _ _ _ _ _ _ Hrs_shape Hw) as (Hk & _ & _).
  assert (w = 0%N ∨ voxel m k r c = Some w) as [->|Hmw].
  { destruct (decide ((r, c) = (0, 0))) as [[= -> ->]|Hne].
    - by apply Hcorner.
    - right. by rewrite <- Hrest. }
  { lia. }
  destruct (lookup_lt_is_Some_2 bodies k) as [a Ha].
  { destruct Hshape. lia. }
  destruct (serial_section_map_plane_global _ _ _ _ _ _ Hm Ha) as [Hmk Hnk].
  set (nids := (map (label_fct cc)
                  (map (λ a, remove_small_connected_components a min_size)
                       bodies)).*2) in *.
  apply voxel_Some in Hmw as (a' & Ha' & Hw').
  rewrite Hmk in Ha'. injection Ha' as <-.
  rewrite pixel_map in Hw'.
  destruct (pixel _ r c) as [v|] eqn:Hv; [|done]. injection Hw' as <-.
  assert (Hv' : (v ≤ (label_fct cc
                       (remove_small_connected_components a min_size)).2)%N).
  { apply label_fct_le. apply elem_of_ravel. eauto. }
  pose proof (sumN_take_le _ _ _ Hnk) as Htake.
  assert (Hall : Forall (λ n, (n ≤ N.of_nat (R * C))%N) nids).
  { apply Forall_lookup. intros i n Hi. unfold nids in Hi.
    rewrite !list_lookup_fmap in Hi.
    destruct (bodies !! i) as [b|] eqn:Hb; [|done]. injection Hi as <-.
    apply label_fct_count, plane_shape_remove_small.
    by destruct (volume_shape_lookup _ _ _ _ _ _ Hshape Hb) as (_ & _ & ?). }
  pose proof (sumN_le_bound _ _ Hall) as Hsum.
  assert (Hlen : length nids = P).
  { unfold nids. rewrite length_fmap, !length_map. by destruct Hshape. }
  rewrite Hlen in Hsum.
  assert (N.of_nat P * N.of_nat (R * C) = N.of_nat (P * R * C))%N by lia.
  lia.
Qed.

Lemma two_elems {A} (l : list A) x y :
  x ∈ l → y ∈ l → x ≠ y → 2 ≤ length l.
Proof.
  destruct l as [|a [|b l]]; simpl; [by intros ?%elem_of_nil| |lia].
  intros ->%list_elem_of_singleton ->%list_elem_of_singleton. done.
Qed.

(** The tables of the builder: the superpixel-to-segment table has a row for
    each plane, and the entries of both tables fit 32 bits when the number
    of voxels and the body ids do. *)
Lemma builder_tables P R C sps bodies min_size cc so t3 t2 :
  volume_shape P R C sps → volume_shape P R C bodies →
  1 < P → 0 < R → 0 < C →
  (N.of_nat (P * R * C) < 2 ^ 32)%N →
  Forall (λ b, (b < 2 ^ 32)%N) (ravel3 bodies) →
  segs_to_raveler sps bodies min_size cc None = Some (so, t3, t2) →
  volume_shape P R C so
  ∧ (∀ w, w ∈ ravel3 so → (w ≤ N.of_nat (R * C))%N)
  ∧ 2 ≤ length t3
  ∧ Forall (λ row : N * N * N,
              (row.1.1 < 2 ^ 32 ∧ row.1.2 < 2 ^ 32 ∧ row.2 < 2 ^ 32)%N) t3
  ∧ Forall (λ row : N * N, (row.1 < 2 ^ 32 ∧ row.2 < 2 ^ 32)%N) t2.
Proof.
  intros Hsps Hbodies HP HR HC Hvox Hb Hres.
  apply segs_to_raveler_Some in Hres as (so' & sm & Hso & Hsm & [= -> -> ->]).
  rename so' into so.
  pose proof (volume_shape_raveler_serial_section_map _ _ _ _ _ _ _ _
                Hsps Hso) as Hso_shape.
  pose proof (volume_shape_raveler_serial_section_map _ _ _ _ _ _ _ _
                Hbodies Hsm) as Hsm_shape.
  assert (Hso_le : ∀ k r c w, voxel so k r c = Some w →
            (w ≤ N.of_nat (R * C))%N).
  { intros k r c w Hw.
    destruct (voxel_volume_shape _ _ _ _ _ _ _ _ Hso_shape Hw) as (Hk & _ & _).
    destruct (lookup_lt_is_Some_2 sps k) as [a Ha].
    { destruct Hsps. lia. }
    pose proof (builder_superpixel_le P R C sps min_size cc so k a r c w
                  Hsps ltac:(lia) HR HC Hso Ha Hw) as Hle.
    pose proof (label_fct_count R C cc
                  (remove_small_connected_components a min_size)) as Hc.
    assert (plane_shape R C (remove_small_connected_components a min_size)).
    { apply plane_shape_remove_small.
      by destruct (volume_shape_lookup _ _ _ _ _ _ Hsps Ha) as (_ & _ & ?). }
    specialize (Hc ltac:(done)). lia. }
  assert (Hsm_le : ∀ k r c w, voxel sm k r c = Some w →
            (w ≤ N.of_nat (P * R * C))%N).
  { intros k r c w Hw.
    by apply (builder_segment_le P R C bodies min_size cc sm k r c w);
      try lia. }
  assert (HRC : R * C ≤ P * R * C) by nia.
  assert (HPRC : P ≤ P * R * C) by nia.
  rewrite (sp_to_segment_fine_to_mid P R C) by (done || by destruct Hbodies).
  split_and!.
  - done.
  - intros w (k & r & c & Hw)%elem_of_ravel3. by eapply Hso_le.
  - destruct (volume_shape_voxel P R C so 0 0 0) as [x Hx]; [done|lia..|].
    destruct (volume_shape_voxel P R C sm 0 0 0) as [y Hy]; [done|lia..|].
    destruct (volume_shape_voxel P R C so 1 0 0) as [x' Hx']; [done|lia..|].
    destruct (volume_shape_voxel P R C sm 1 0 0) as [y' Hy']; [done|lia..|].
    apply (two_elems _ (N.of_nat 0, x, masked_mid x y)
                       (N.of_nat 1, x', masked_mid x' y')).
    + apply (elem_of_fine_to_mid P R C); [done..|].
      exists 0, 0, 0, x, y. split_and!; try done.
      unfold masked_mid. case_decide; [by right|by left].
    + apply (elem_of_fine_to_mid P R C); [done..|].
      exists 1, 0, 0, x', y'. split_and!; try done.
      unfold masked_mid. case_decide; [by right|by left].
    + intros Heq. discriminate Heq.
  - apply Forall_forall. intros row Hrow.
    apply (elem_of_fine_to_mid P R C) in Hrow
      as (k & r & c & f & m & Hf & Hm & _ & ->); [|done..].
    destruct (voxel_volume_shape _ _ _ _ _ _ _ _ Hso_shape Hf) as (Hk & _ & _).
    pose proof (Hso_le _ _ _ _ Hf). pose proof (Hsm_le _ _ _ _ Hm).
    assert (masked_mid f m ≤ m)%N.
    { unfold masked_mid. case_decide; lia. }
    simpl. split_and!; lia.
  - apply Forall_forall. intros [s b] Hrow.
    apply (elem_of_segment_to_body P R C) in Hrow
      as [[= -> ->]|(_ & k & r & c & Hs & Hb')]; [| |done|done]; simpl.
    + split; lia.
    + pose proof (Hsm_le _ _ _ _ Hs). rewrite Forall_forall in Hb.
      split; [lia|]. apply Hb. apply elem_of_ravel3. eauto.
Qed.

(** With at least two planes, rows and columns, fewer than 65536 pixels in a
    plane, fewer than 2^32 voxels, body ids below 2^32 and a
    segment-to-body table of at least two rows, the reader gets from the
    export directory what the builder returned. *)
Lemma round_trip_export P R C sps bodies min_size cc so t3 t2 :
  volume_shape P R C sps → volume_shape P R C bodies →
  1 < P → 1 < R → 1 < C →
  (N.of_nat (R * C) < 65536)%N → (N.of_nat (P * R * C) < 2 ^ 32)%N →
  Forall (λ b, (b < 2 ^ 32)%N) (ravel3 bodies) →
  segs_to_raveler sps bodies min_size cc None = Some (so, t3, t2) →
  2 ≤ length t2 →
  round_trip sps bodies min_size cc = raveler_to_labeled_volume so t3 t2.
Proof.
  intros Hsps Hbodies HP HR HC Hpix Hvox Hb Hres Hl2.
  destruct (builder_tables P R C sps bodies min_size cc so t3 t2)
    as (Hso_shape & Hso_le & Hl3 & H3 & H2); [done|done|done|lia|lia|done..|].
  unfold round_trip. rewrite Hres. cbn [mbind option_bind].
  rewrite write_to_raveler_small.
  - cbn [mbind option_bind].
    by apply (raveler_to_labeled_volume_export_thick P R C).
  - destruct (volume_shape_voxel P R C so 0 0 0) as [x Hx]; [done|lia..|].
    intros Hnil. assert (x ∈ ravel3 so) as Hin.
    { apply elem_of_ravel3. eauto. }
    rewrite Hnil in Hin. by apply elem_of_nil in Hin.
  - intros w Hw. specialize (Hso_le w Hw). lia.
Qed.

(** On a volume of one plane, one row or one column, and when the
    segment-to-body table has the row (0,0) only, the reader raises. *)
Lemma round_trip_None P R C sps bodies min_size cc so t3 t2 :
  volume_shape P R C sps → 0 < P → 0 < R →
  segs_to_raveler sps bodies min_size cc None = Some (so, t3, t2) →
  P = 1 ∨ R = 1 ∨ C = 1 ∨ length t2 < 2 →
  round_trip sps bodies min_size cc = None.
Proof.
  intros Hsps HP HR Hres Hcases.
  unfold round_trip. rewrite Hres. cbn [mbind option_bind].
  destruct (write_to_raveler so t3 t2) as [d|] eqn:Hd; [|done].
  cbn [mbind option_bind].
  apply segs_to_raveler_Some in Hres as (so' & sm & Hso & _ & [= -> _ _]).
  pose proof (volume_shape_raveler_serial_section_map _ _ _ _ _ _ _ _
                Hsps Hso) as Hso_shape.
  destruct (write_to_raveler_Some P R C _ _ _ _ Hso_shape Hd)
    as (Hd_shape & _ & Hd2).
  apply (raveler_to_labeled_volume_export_None P R C); [done..|].
  rewrite Hd2. tauto.
Qed.

(** ** The round trip *)






(** *** What else the contract of the round trip excludes *)

(** A volume of one plane: the stack is squeezed to two axes and the reader
    raises. *)
Lemma round_trip_one_plane :
  round_trip [[[0; 1]; [1; 1]]]%N [[[0; 1]; [1; 1]]]%N 0 false = None.
Proof. vm_compute. reflexivity. Qed.

(** A body id of 2^32 + 1 comes back as 1. *)
Lemma round_trip_wide_body :
  round_trip [[[0; 1]; [2; 2]]; [[0; 1]; [2; 2]]]%N
             [[[0; 4294967297]; [7; 7]]; [[0; 4294967297]; [7; 7]]]%N 0 false
  = Some [[[1; 1]; [7; 7]]; [[1; 1]; [7; 7]]]%N.
Proof. vm_compute. reflexivity. Qed.

(** A superpixel over background bodies, in a plane with a positive offset,
    comes back with the last body of the plane before (plane 1). *)
Lemma round_trip_superpixel_over_background :
  round_trip [[[0; 1]; [1; 1]]; [[0; 2]; [2; 2]]]%N
             [[[0; 1]; [1; 1]]; [[0; 0]; [0; 0]]]%N 0 false
  = Some [[[1; 1]; [1; 1]]; [[1; 1]; [1; 1]]]%N.
Proof. vm_compute. reflexivity. Qed.

(** X4.  When the builder returns, the round trip through the export
    directory raises on a volume of one plane, one row or one column, and
    when the segment-to-body table has the row (0,0) only.  For every
    [min_size] and both settings of the component pass it returns a volume
    of the shape of the input when there are at least two planes, rows and
    columns, fewer than 65536 pixels in a plane, fewer than 2^32 voxels,
    body ids below 2^32 and a second row in the segment-to-body table. *)
Theorem round_trip_succeeds P R C sps bodies min_size cc
    sps_out sp_to_segment segment_to_body :
  volume_shape P R C sps → volume_shape P R C bodies →
  0 < P → 0 < R → 0 < C →
  segs_to_raveler sps bodies min_size cc None
  = Some (sps_out, sp_to_segment, segment_to_body) →
  (P = 1 ∨ R = 1 ∨ C = 1 ∨ length segment_to_body < 2 →
   round_trip sps bodies min_size cc = None)
  ∧ (1 < P → 1 < R → 1 < C → 2 ≤ length segment_to_body →
     (N.of_nat (R * C) < 65536)%N → (N.of_nat (P * R * C) < 2 ^ 32)%N →
     Forall (λ b, (b < 2 ^ 32)%N) (ravel3 bodies) →
     ∃ out, round_trip sps bodies min_size cc = Some out
       ∧ volume_shape P R C out).
Proof.
  intros Hsps Hbodies HP HR HC Hres. split.
  - by apply (round_trip_None P R C sps bodies min_size cc
                sps_out sp_to_segment segment_to_body).
  - intros HP' HR' HC' Hl2 Hpix Hvox Hb.
    destruct (reader_on_builder P R C sps bodies min_size cc)
      as (so & t3 & t2 & out & Hseg & Hout & _ & Hshape & _); [done..|].
    rewrite Hres in Hseg. injection Hseg as <- <- <-.
    exists out. split; [|done].
    by rewrite (round_trip_export P R C sps bodies min_size cc
                  sps_out sp_to_segment segment_to_body).
Qed.

Lemma round_trip_succeeds_witness :
  round_trip [[[0; 0]; [0; 0]]; [[0; 0]; [0; 0]]]%N
             [[[0; 0]; [0; 0]]; [[0; 0]; [0; 0]]]%N 0 true = None
  ∧ ∃ out, round_trip [[[0; 1]; [2; 2]]; [[0; 1]; [2; 2]]]%N
                      [[[0; 3]; [7; 7]]; [[0; 3]; [7; 7]]]%N 0 true
           = Some out
      ∧ volume_shape 2 2 2 out.
Proof.
  split.
  - refine (proj1 (round_trip_succeeds 2 2 2
                     [[[0; 0]; [0; 0]]; [[0; 0]; [0; 0]]]%N
                     [[[0; 0]; [0; 0]]; [[0; 0]; [0; 0]]]%N 0 true
                     [[[0; 0]; [0; 0]]; [[0; 0]; [0; 0]]]%N
                     [(0, 0, 0); (1, 0, 0)]%N [(0, 0)]%N
                     _ _ _ _ _ _) _).
    + apply (bool_decide_unpack _). vm_compute. exact I.
    + apply (bool_decide_unpack _). vm_compute. exact I.
    + lia.
    + lia.
    + lia.
    + vm_compute. reflexivity.
    + simpl. lia.
  - refine (proj2 (round_trip_succeeds 2 2 2
                     [[[0; 1]; [2; 2]]; [[0; 1]; [2; 2]]]%N
                     [[[0; 3]; [7; 7]]; [[0; 3]; [7; 7]]]%N 0 true
                     [[[0; 1]; [1; 1]]; [[0; 1]; [1; 1]]]%N
                     [(0, 0, 0); (0, 1, 1); (1, 0, 0); (1, 1, 2)]%N
                     [(0, 0); (1, 0); (1, 3); (1, 7); (2, 3); (2, 7)]%N
                     _ _ _ _ _ _) _ _ _ _ _ _ _).
    + apply (bool_decide_unpack _). vm_compute. exact I.
    + apply (bool_decide_unpack _). vm_compute. exact I.
    + lia.
    + lia.
    + lia.
    + vm_compute. reflexivity.
    + lia.
    + lia.
    + lia.
    + simpl. lia.
    + lia.
    + lia.
    + apply (bool_decide_unpack _). vm_compute. exact I.
Defined.

(** X6.  Under the bounds of the export (at least two planes, rows and
    columns, fewer than 65536 pixels in a plane, fewer than 2^32 voxels and
    body ids below 2^32) the round trip invents no body, for every
    [min_size] and both settings of the component pass: every voxel of its
    result is 0 or a body id that occurs in the body volume. *)
Theorem reader_bodies_from_input P R C sps bodies min_size cc out :
  volume_shape P R C sps → volume_shape P R C bodies →
  1 < P → 1 < R → 1 < C →
  (N.of_nat (R * C) < 65536)%N → (N.of_nat (P * R * C) < 2 ^ 32)%N →
  Forall (λ b, (b < 2 ^ 32)%N) (ravel3 bodies) →
  round_trip sps bodies min_size cc = Some out →
  ∀ k r c b, voxel out k r c = Some b → b = 0%N ∨ b ∈ ravel3 bodies.
Proof.
  intros Hsps Hbodies HP HR HC Hpix Hvox Hb Hout.
  destruct (reader_on_builder P R C sps bodies min_size cc)
    as (so & t3 & t2 & out' & Hseg & Hout' & _ & _ & _ & Hids);
    [done|done|lia|lia|done|].
  destruct (decide (2 ≤ length t2)) as [Hl2|Hl2].
  - rewrite (round_trip_export P R C sps bodies min_size cc so t3 t2) in Hout
      by done.
    rewrite Hout in Hout'. injection Hout' as <-. exact Hids.
  - rewrite (round_trip_None P R C sps bodies min_size cc so t3 t2) in Hout;
      [done|done|lia|lia|done|lia].
Qed.

Lemma reader_bodies_from_input_witness :
  7%N = 0%N ∨ 7%N ∈ ravel3 [[[0; 3]; [7; 7]]; [[0; 3]; [7; 7]]]%N.
Proof.
  apply (reader_bodies_from_input 2 2 2
           [[[0; 1]; [2; 2]]; [[0; 1]; [2; 2]]]%N
           [[[0; 3]; [7; 7]]; [[0; 3]; [7; 7]]]%N 0 true
           [[[7; 7]; [7; 7]]; [[7; 7]; [7; 7]]]%N) with (k := 1) (r := 1)
           (c := 0).
  - apply (bool_decide_unpack _). vm_compute. exact I.
  - apply (bool_decide_unpack _). vm_compute. exact I.
  - lia.
  - lia.
  - lia.
  - lia.
  - lia.
  - apply (bool_decide_unpack _). vm_compute. exact I.
  - vm_compute. reflexivity.
  - reflexivity.
Defined.
